(** * ooplus.js: [callSuper], [$super], [property], [enhance], [extend]

    A shallow embedding of [src/index.js] over an explicit model of the part
    of the JavaScript object system the library manipulates: heap-allocated
    objects with a prototype link, ordered own properties (data properties
    with their writable/enumerable/configurable attributes and accessor
    properties), function objects, and the interception wrapper (a [Proxy]
    with a single [get] trap) that [$super] creates.

    Boundaries of the model.  Property keys are strings; numbers are
    integers; every object is extensible; the intrinsic prototypes of
    primitive values are not modelled (a property read on a primitive yields
    [undefined], and a primitive has no keys to enumerate); [f.apply] is the
    intrinsic [Function.prototype.apply]; the short-lived helper objects the
    engine allocates (property-descriptor records, the handler object of a
    proxy, the rest-parameter array) are not allocated; function objects
    carry no own [length] and [name]; own keys are kept in insertion order,
    and a [for-in] loop takes its keys when it starts.  The module is an ES
    module, hence strict-mode code: a refused assignment or deletion raises
    [TypeError].

    Functions that walk a prototype chain or call into user code take a
    fuel argument; [OutOfFuel] is the outcome when it runs out. *)

From Stdlib Require Import ZArith String List Bool Lia DecimalString.
From stdpp Require Import base tactics option list.
Import ListNotations.
Local Open Scope string_scope.
Local Open Scope list_scope.

(** ** Values, properties, objects *)

Abbreviation loc := nat.

Inductive value : Type :=
| VUndefined
| VNull
| VBool (b : bool)
| VNumber (z : Z)
| VString (s : string)
| VObject (l : loc).

(** Own property of an object, as the engine stores it. *)
Inductive Property : Type :=
| DataProperty (v : value) (writable enumerable configurable : bool)
| AccessorProperty (getter setter : value) (enumerable configurable : bool).

(** What a function object runs when it is called. *)
Inductive code : Type :=
| UserFunction (id : nat)
    (* a function written by the library's user; its body is the [id]-th
       entry of the program *)
| DerivedClass (baseClass classDescriptor : value)
    (* the [derivedClass] function created by [extend], closed over the two
       arguments of [extend] *)
| SuperMethod (target : value) (name : string).
    (* the arrow function returned by the [get] trap of the wrapper, closed
       over [target] and [property] *)

Inductive object_kind : Type :=
| Ordinary
| Callable (c : code) (isConstructor : bool)
| SuperProxy (target : loc).
    (* [new Proxy(target, { get(target, property) {...} })] *)

Record object : Type := mkObject {
  proto : option loc;
  props : list (string * Property);
  kind : object_kind
}.

Abbreviation heap := (list object).

(** The realm's [Object.prototype] and [Function.prototype]. *)
Definition ObjectPrototype : loc := 0.
Definition FunctionPrototype : loc := 1.

Definition empty_object : object := mkObject None [] Ordinary.

Definition obj (h : heap) (l : loc) : object := default empty_object (h !! l).

Definition strict_equal (a b : value) : bool :=
  match a, b with
  | VUndefined, VUndefined => true
  | VNull, VNull => true
  | VBool x, VBool y => Bool.eqb x y
  | VNumber x, VNumber y => Z.eqb x y
  | VString x, VString y => String.eqb x y
  | VObject x, VObject y => Nat.eqb x y
  | _, _ => false
  end.

Definition to_boolean (v : value) : bool :=
  match v with
  | VUndefined | VNull => false
  | VBool b => b
  | VNumber z => negb (Z.eqb z 0)
  | VString s => negb (String.eqb s "")
  | VObject _ => true
  end.

Definition is_undefined (v : value) : bool :=
  match v with VUndefined => true | _ => false end.

Definition enumerable (x : Property) : bool :=
  match x with
  | DataProperty _ _ e _ => e
  | AccessorProperty _ _ e _ => e
  end.

Definition configurable (x : Property) : bool :=
  match x with
  | DataProperty _ _ _ c => c
  | AccessorProperty _ _ _ c => c
  end.

(** [descriptor.value] of the record [Object.getOwnPropertyDescriptor]
    returns: absent, hence [undefined], for an accessor. *)
Definition descriptor_value (x : Property) : value :=
  match x with
  | DataProperty v _ _ _ => v
  | AccessorProperty _ _ _ _ => VUndefined
  end.

(** ** Own property tables *)

Fixpoint assoc (p : string) (ps : list (string * Property)) : option Property :=
  match ps with
  | [] => None
  | (k, x) :: ps' => if String.eqb k p then Some x else assoc p ps'
  end.

(** Replace in place, or append: a new key comes last in key order. *)
Fixpoint put (p : string) (x : Property) (ps : list (string * Property))
  : list (string * Property) :=
  match ps with
  | [] => [(p, x)]
  | (k, y) :: ps' => if String.eqb k p then (k, x) :: ps' else (k, y) :: put p x ps'
  end.

Fixpoint remove (p : string) (ps : list (string * Property))
  : list (string * Property) :=
  match ps with
  | [] => []
  | (k, y) :: ps' => if String.eqb k p then remove p ps' else (k, y) :: remove p ps'
  end.

Definition set_props (f : list (string * Property) -> list (string * Property))
  (o : object) : object :=
  mkObject (proto o) (f (props o)) (kind o).

Definition put_own (l : loc) (p : string) (x : Property) (h : heap) : heap :=
  alter (set_props (put p x)) l h.

Definition remove_own (l : loc) (p : string) (h : heap) : heap :=
  alter (set_props (remove p)) l h.

Definition own (h : heap) (l : loc) (p : string) : option Property :=
  assoc p (props (obj h l)).

(** ** Completions *)

Inductive thrown : Type :=
| TypeError
| Thrown (v : value).

Inductive outcome (A : Type) : Type :=
| Normal (a : A) (h : heap)
| Abrupt (e : thrown) (h : heap)
| OutOfFuel.
Arguments Normal {A} a h.
Arguments Abrupt {A} e h.
Arguments OutOfFuel {A}.

Definition M (A : Type) : Type := heap -> outcome A.

Definition ret {A} (a : A) : M A := fun h => Normal a h.
Definition throw {A} (e : thrown) : M A := fun h => Abrupt e h.
Definition bind {A B} (m : M A) (k : A -> M B) : M B :=
  fun h => match m h with
           | Normal a h' => k a h'
           | Abrupt e h' => Abrupt e h'
           | OutOfFuel => OutOfFuel
           end.
Definition gets {A} (f : heap -> A) : M A := fun h => Normal (f h) h.
Definition modify (f : heap -> heap) : M unit := fun h => Normal tt (f h).
Definition new_object (o : object) : M loc := fun h => Normal (length h) (h ++ [o]).

Notation "'let*' x ':=' m 'in' k" := (bind m (fun x => k))
  (at level 10, x name, m at level 100, k at level 200).
Notation "m ';;' k" := (bind m (fun _ => k))
  (at level 100, k at level 200, right associativity).

(** ** Internal methods that run no user code *)

(** The object a chain of wrappers forwards to.  A wrapper has a [get] trap
    only: every other internal method is forwarded to its target. *)
Fixpoint target_of (n : nat) (h : heap) (l : loc) : option loc :=
  match n with
  | 0 => None
  | S n' =>
      match kind (obj h l) with
      | SuperProxy t => target_of n' h t
      | _ => Some l
      end
  end.

Definition resolve (n : nat) (l : loc) : M loc :=
  fun h => match target_of n h l with
           | Some t => Normal t h
           | None => OutOfFuel
           end.

Definition GetOwnProperty (n : nat) (l : loc) (p : string) : M (option Property) :=
  let* t := resolve n l in gets (fun h => own h t p).

Definition GetPrototypeOf (n : nat) (l : loc) : M (option loc) :=
  let* t := resolve n l in gets (fun h => proto (obj h t)).

Fixpoint HasProperty (n : nat) (l : loc) (p : string) : M bool :=
  match n with
  | 0 => fun _ => OutOfFuel
  | S n' => fun h =>
      let o := obj h l in
      match kind o with
      | SuperProxy t => HasProperty n' t p h
      | _ =>
          match assoc p (props o) with
          | Some _ => Normal true h
          | None =>
              match proto o with
              | Some q => HasProperty n' q p h
              | None => Normal false h
              end
          end
      end
  end.

(** [delete O[p]] on an object: [false] when the property is not configurable. *)
Definition Delete (n : nat) (l : loc) (p : string) : M bool :=
  let* t := resolve n l in
  let* d := gets (fun h => own h t p) in
  match d with
  | None => ret true
  | Some x => if configurable x then modify (remove_own t p) ;; ret true else ret false
  end.

Definition IsCallable (n : nat) (v : value) : M bool :=
  match v with
  | VObject l =>
      let* t := resolve n l in
      gets (fun h => match kind (obj h t) with Callable _ _ => true | _ => false end)
  | _ => ret false
  end.

Definition IsConstructor (n : nat) (v : value) : M bool :=
  match v with
  | VObject l =>
      let* t := resolve n l in
      gets (fun h => match kind (obj h t) with Callable _ c => c | _ => false end)
  | _ => ret false
  end.

(** ** Property definition ([Object.defineProperty]) *)

(** A property descriptor as [ToPropertyDescriptor] reads it: each field is
    present or absent. *)
Record descriptor : Type := mkDescriptor {
  d_value : option value;
  d_writable : option bool;
  d_get : option value;
  d_set : option value;
  d_enumerable : option bool;
  d_configurable : option bool
}.

Definition present {A} (o : option A) : bool :=
  match o with Some _ => true | None => false end.

Definition is_accessor_descriptor (d : descriptor) : bool :=
  present (d_get d) || present (d_set d).

Definition is_data_descriptor (d : descriptor) : bool :=
  present (d_value d) || present (d_writable d).

Definition absent_or {A} (eqb : A -> A -> bool) (o : option A) (a : A) : bool :=
  match o with Some x => eqb x a | None => true end.

Definition asks_true (o : option bool) : bool :=
  match o with Some true => true | _ => false end.

(** The property a descriptor creates where none exists. *)
Definition new_property (d : descriptor) : Property :=
  if is_accessor_descriptor d
  then AccessorProperty (default VUndefined (d_get d)) (default VUndefined (d_set d))
         (default false (d_enumerable d)) (default false (d_configurable d))
  else DataProperty (default VUndefined (d_value d)) (default false (d_writable d))
         (default false (d_enumerable d)) (default false (d_configurable d)).

(** Whether an existing property admits the change (step 4 of
    ValidateAndApplyPropertyDescriptor). *)
Definition permitted (cur : Property) (d : descriptor) : bool :=
  if configurable cur then true
  else
    negb (asks_true (d_configurable d))
    && absent_or Bool.eqb (d_enumerable d) (enumerable cur)
    && match cur with
       | DataProperty v w _ _ =>
           negb (is_accessor_descriptor d)
           && (if w then true
               else negb (asks_true (d_writable d))
                    && absent_or strict_equal (d_value d) v)
       | AccessorProperty g s _ _ =>
           negb (is_data_descriptor d)
           && absent_or strict_equal (d_get d) g
           && absent_or strict_equal (d_set d) s
       end.

Definition apply_descriptor (cur : Property) (d : descriptor) : Property :=
  let e := default (enumerable cur) (d_enumerable d) in
  let c := default (configurable cur) (d_configurable d) in
  match cur with
  | DataProperty v w _ _ =>
      if is_accessor_descriptor d
      then AccessorProperty (default VUndefined (d_get d)) (default VUndefined (d_set d)) e c
      else DataProperty (default v (d_value d)) (default w (d_writable d)) e c
  | AccessorProperty g s _ _ =>
      if is_data_descriptor d
      then DataProperty (default VUndefined (d_value d)) (default false (d_writable d)) e c
      else AccessorProperty (default g (d_get d)) (default s (d_set d)) e c
  end.

Definition DefineOwnProperty (n : nat) (l : loc) (p : string) (d : descriptor) : M bool :=
  let* t := resolve n l in
  let* cur := gets (fun h => own h t p) in
  match cur with
  | None => modify (put_own t p (new_property d)) ;; ret true
  | Some x =>
      if permitted x d
      then modify (put_own t p (apply_descriptor x d)) ;; ret true
      else ret false
  end.

(** The keys a [for (key in o)] loop visits: the enumerable own keys, then
    those of the prototype chain that no nearer level declares. *)
Fixpoint for_in_keys (n : nat) (h : heap) (l : loc) (visited : list string)
  : option (list string) :=
  match n with
  | 0 => None
  | S n' =>
      match target_of n' h l with
      | None => None
      | Some t =>
          let o := obj h t in
          let fresh :=
            List.filter (fun k => negb (existsb (String.eqb k) visited))
              (map fst (List.filter (fun kv => enumerable (snd kv)) (props o))) in
          match proto o with
          | None => Some fresh
          | Some q =>
              match for_in_keys n' h q (visited ++ map fst (props o)) with
              | Some rest => Some (fresh ++ rest)
              | None => None
              end
          end
      end
  end.

Definition own_enumerable_keys (h : heap) (l : loc) : list string :=
  map fst (List.filter (fun kv => enumerable (snd kv)) (props (obj h l))).

(** ** Operations that may run user code *)

Section Operations.

(** [Call f this args] is [f.apply(this, args)]; it is tied to the function
    objects of the heap in [Call] below. *)
Variable Call : value -> value -> list value -> M value.

(** The [get] trap of the wrapper returns a new arrow function whatever the
    property; the engine then enforces the invariant of [[Get]] on a proxy:
    the trap may not misreport a non-configurable own property of the
    target that is a read-only data property or an accessor without
    getter. *)
Definition proxy_get (n : nat) (t : loc) (p : string) : M value :=
  let* f := new_object (mkObject (Some FunctionPrototype) []
                          (Callable (SuperMethod (VObject t) p) false)) in
  let* targetDesc := GetOwnProperty n t p in
  match targetDesc with
  | Some (DataProperty v false _ false) =>
      if strict_equal (VObject f) v then ret (VObject f) else throw TypeError
  | Some (AccessorProperty VUndefined _ _ false) => throw TypeError
  | _ => ret (VObject f)
  end.

(** [[Get]]: [receiver] is the [this] of a getter. *)
Fixpoint Get (n : nat) (l : loc) (p : string) (receiver : value) : M value :=
  match n with
  | 0 => fun _ => OutOfFuel
  | S n' => fun h =>
      let o := obj h l in
      match kind o with
      | SuperProxy t => proxy_get n' t p h
      | _ =>
          match assoc p (props o) with
          | Some (DataProperty v _ _ _) => Normal v h
          | Some (AccessorProperty g _ _ _) =>
              if is_undefined g then Normal VUndefined h else Call g receiver [] h
          | None =>
              match proto o with
              | Some q => Get n' q p receiver h
              | None => Normal VUndefined h
              end
          end
      end
  end.

(** [o[p]] for any value [o]. *)
Definition GetV (n : nat) (o : value) (p : string) : M value :=
  match o with
  | VObject l => Get n l p o
  | VUndefined | VNull => throw TypeError
  | _ => ret VUndefined
  end.

(** Last step of [[Set]]: write the data property on the receiver. *)
Definition set_on_receiver (n : nat) (receiver : value) (p : string) (v : value)
  : M bool :=
  match receiver with
  | VObject r =>
      let* t := resolve n r in
      let* existing := gets (fun h => own h t p) in
      match existing with
      | Some (AccessorProperty _ _ _ _) => ret false
      | Some (DataProperty _ w e c) =>
          if w then modify (put_own t p (DataProperty v w e c)) ;; ret true
          else ret false
      | None => modify (put_own t p (DataProperty v true true true)) ;; ret true
      end
  | _ => ret false
  end.

(** [[Set]]: the nearest declaration of [p] on the chain decides; a setter
    is run, a read-only data property refuses, otherwise the receiver gets
    an own data property. *)
Fixpoint SetProp (n : nat) (l : loc) (p : string) (v : value) (receiver : value)
  : M bool :=
  match n with
  | 0 => fun _ => OutOfFuel
  | S n' => fun h =>
      let o := obj h l in
      match kind o with
      | SuperProxy t => SetProp n' t p v receiver h
      | _ =>
          match assoc p (props o) with
          | Some (DataProperty _ w _ _) =>
              if w then set_on_receiver n' receiver p v h else Normal false h
          | Some (AccessorProperty _ s _ _) =>
              if is_undefined s then Normal false h
              else (Call s receiver [v] ;; ret true) h
          | None =>
              match proto o with
              | Some q => SetProp n' q p v receiver h
              | None => set_on_receiver n' receiver p v h
              end
          end
      end
  end.

(** [o[p] = v] in strict code. *)
Definition assign (n : nat) (o : value) (p : string) (v : value) : M unit :=
  match o with
  | VObject l =>
      let* ok := SetProp n l p v o in
      if ok then ret tt else throw TypeError
  | _ => throw TypeError
  end.

(** [delete o[p]] in strict code. *)
Definition delete_property (n : nat) (o : value) (p : string) : M unit :=
  match o with
  | VObject l =>
      let* ok := Delete n l p in
      if ok then ret tt else throw TypeError
  | VUndefined | VNull => throw TypeError
  | _ => ret tt
  end.

(** [p in o]. *)
Definition has_in (n : nat) (p : string) (o : value) : M bool :=
  match o with
  | VObject l => HasProperty n l p
  | _ => throw TypeError
  end.

Definition getOwnPropertyDescriptor (n : nat) (o : value) (p : string)
  : M (option Property) :=
  match o with
  | VObject l => GetOwnProperty n l p
  | VUndefined | VNull => throw TypeError
  | _ => ret None
  end.

Definition getPrototypeOf (n : nat) (o : value) : M value :=
  match o with
  | VObject l =>
      let* q := GetPrototypeOf n l in
      ret (match q with Some q' => VObject q' | None => VNull end)
  | VUndefined | VNull => throw TypeError
  | _ => ret VNull
  end.

(** [Object.prototype.hasOwnProperty.call(o, p)]. *)
Definition hasOwnProperty (n : nat) (o : value) (p : string) : M bool :=
  match o with
  | VObject l => let* d := GetOwnProperty n l p in ret (present d)
  | VUndefined | VNull => throw TypeError
  | _ => ret false
  end.

(** *** [callSuper] (src/index.js, lines 11-41) *)

Fixpoint callSuper_loop (k n : nat) (target : value) (methodName : string)
  (args : list value) (directBaseMethod base : value) (isSuper : bool) : M value :=
  match k with
  | 0 => fun _ => OutOfFuel
  | S k' =>
      if to_boolean base then
        let* descriptor := getOwnPropertyDescriptor n base methodName in
        let next isSuper' :=
          let* base' := getPrototypeOf n base in
          callSuper_loop k' n target methodName args directBaseMethod base' isSuper' in
        match descriptor with
        | Some d =>
            if strict_equal (descriptor_value d) directBaseMethod then next true
            else if isSuper then
              assign n target "$BaseReference" base ;;
              let* result := Call (descriptor_value d) target args in
              delete_property n target "$BaseReference" ;;
              ret result
            else next isSuper
        | None => next isSuper
        end
      else ret VUndefined
  end.

Definition callSuper (n : nat) (target : value) (methodName : string)
  (args : list value) : M value :=
  let* marked := has_in n "$BaseReference" target in
  let* base := if marked then GetV n target "$BaseReference" else ret target in
  let* directBaseMethod := GetV n base methodName in
  callSuper_loop n n target methodName args directBaseMethod base false.

(** *** [$super] (lines 49-62) *)

Definition super (n : nat) (this : value) : M value :=
  let* cached := has_in n "$SuperProxy" this in
  if cached then GetV n this "$SuperProxy"
  else
    match this with
    | VObject l =>
        let* proxy := new_object (mkObject None [] (SuperProxy l)) in
        assign n this "$SuperProxy" (VObject proxy) ;;
        ret (VObject proxy)
    | _ => throw TypeError
    end.

(** *** [isMarkedPropertyDescriptor], [property] (lines 63-76) *)

Definition isMarkedPropertyDescriptor (n : nat) (target : value) : M bool :=
  hasOwnProperty n target "$IsPropertyDescriptor".

Definition property (n : nat) (descriptor : value) : M value :=
  let* descriptor' :=
    if to_boolean descriptor then ret descriptor
    else let* o := new_object (mkObject (Some ObjectPrototype) [] Ordinary) in
         ret (VObject o) in
  assign n descriptor' "$IsPropertyDescriptor" (VBool true) ;;
  ret descriptor'.

(** *** [Object.defineProperty] *)

(** A field of the attributes object, when it has one (own or inherited). *)
Definition field (n : nat) (o : loc) (name : string) : M (option value) :=
  let* has := HasProperty n o name in
  if has then let* v := Get n o name (VObject o) in ret (Some v)
  else ret None.

Definition function_field (n : nat) (o : loc) (name : string) : M (option value) :=
  let* f := field n o name in
  match f with
  | Some v =>
      let* callable := IsCallable n v in
      if callable || is_undefined v then ret f else throw TypeError
  | None => ret None
  end.

Definition ToPropertyDescriptor (n : nat) (attributes : value) : M descriptor :=
  match attributes with
  | VObject o =>
      let* e := field n o "enumerable" in
      let* c := field n o "configurable" in
      let* v := field n o "value" in
      let* w := field n o "writable" in
      let* g := function_field n o "get" in
      let* s := function_field n o "set" in
      if (present g || present s) && (present v || present w)
      then throw TypeError
      else ret (mkDescriptor v (option_map to_boolean w) g s
                  (option_map to_boolean e) (option_map to_boolean c))
  | _ => throw TypeError
  end.

Definition defineProperty (n : nat) (O : value) (p : string) (attributes : value)
  : M value :=
  match O with
  | VObject l =>
      let* desc := ToPropertyDescriptor n attributes in
      let* ok := DefineOwnProperty n l p desc in
      if ok then ret O else throw TypeError
  | _ => throw TypeError
  end.

Definition for_in (n : nat) (o : value) : M (list string) :=
  match o with
  | VObject l =>
      fun h => match for_in_keys n h l [] with
               | Some keys => Normal keys h
               | None => OutOfFuel
               end
  | _ => ret []
  end.

(** *** [enhance] (lines 84-99) *)

Fixpoint enhance_loop (n : nat) (constructor members : value) (keys : list string)
  : M unit :=
  match keys with
  | [] => ret tt
  | key :: keys' =>
      let* isOwn := hasOwnProperty n members key in
      if negb isOwn then enhance_loop n constructor members keys'
      else
        let* member := GetV n members key in
        let* marked := isMarkedPropertyDescriptor n member in
        (if marked then
           let* prototype := GetV n constructor "prototype" in
           defineProperty n prototype key member ;; ret tt
         else
           let* prototype := GetV n constructor "prototype" in
           assign n prototype key member) ;;
        enhance_loop n constructor members keys'
  end.

Definition enhance (n : nat) (constructor members : value) : M value :=
  let* keys := for_in n members in
  enhance_loop n constructor members keys ;;
  ret constructor.

(** *** [extend] (lines 108-144) *)

Definition ObjectCreate (n : nat) (prototype : value) : M value :=
  match prototype with
  | VObject q =>
      let* o := new_object (mkObject (Some q) [] Ordinary) in ret (VObject o)
  | VNull =>
      let* o := new_object (mkObject None [] Ordinary) in ret (VObject o)
  | _ => throw TypeError
  end.

Fixpoint extend_loop (n : nat) (derivedClass classDescriptor : value)
  (keys : list string) : M unit :=
  match keys with
  | [] => ret tt
  | key :: keys' =>
      let* isOwn := hasOwnProperty n classDescriptor key in
      if negb isOwn then extend_loop n derivedClass classDescriptor keys'
      else if String.eqb key "preConstructor" || String.eqb key "constructor"
      then extend_loop n derivedClass classDescriptor keys'
      else
        let* member := GetV n classDescriptor key in
        let* marked := isMarkedPropertyDescriptor n member in
        (if marked then
           let* prototype := GetV n derivedClass "prototype" in
           defineProperty n prototype key member ;; ret tt
         else
           let* prototype := GetV n derivedClass "prototype" in
           assign n prototype key member) ;;
        extend_loop n derivedClass classDescriptor keys'
  end.

(** The function expression [function (...args) {...}]: a constructor with
    its own fresh [prototype] object, which points back at it. *)
Definition new_function (c : code) : M value :=
  fun h =>
    let f := length h in
    let p := S f in
    Normal (VObject f)
      (h ++ [mkObject (Some FunctionPrototype)
               [("prototype", DataProperty (VObject p) true false false)]
               (Callable c true);
             mkObject (Some ObjectPrototype)
               [("constructor", DataProperty (VObject f) true false true)]
               Ordinary]).

Definition extend (n : nat) (baseClass classDescriptor : value) : M value :=
  let* derivedClass := new_function (DerivedClass baseClass classDescriptor) in
  let* basePrototype := GetV n baseClass "prototype" in
  let* prototype := ObjectCreate n basePrototype in
  assign n derivedClass "prototype" prototype ;;
  let* keys := for_in n classDescriptor in
  extend_loop n derivedClass classDescriptor keys ;;
  ret derivedClass.

(** *** Construction *)

Definition string_of_nat (i : nat) : string :=
  DecimalString.NilZero.string_of_uint (Nat.to_uint i).

Definition to_length (v : value) : nat :=
  match v with
  | VNumber z => Z.to_nat z
  | VBool true => 1
  | VString s =>
      match DecimalString.NilEmpty.uint_of_string s with
      | Some u => Nat.of_uint u
      | None => 0
      end
  | _ => 0
  end.

Fixpoint elements (n : nat) (o : loc) (i count : nat) : M (list value) :=
  match count with
  | 0 => ret []
  | S count' =>
      let* v := Get n o (string_of_nat i) (VObject o) in
      let* vs := elements n o (S i) count' in
      ret (v :: vs)
  end.

Definition CreateListFromArrayLike (n : nat) (arrayLike : value) : M (list value) :=
  match arrayLike with
  | VObject o =>
      let* len := Get n o "length" arrayLike in
      elements n o 0 (to_length len)
  | _ => throw TypeError
  end.

(** [[Construct]] of a function: a new object whose prototype is
    [newTarget.prototype] is the receiver of the body; an object returned
    by the body replaces it. *)
Definition Construct (n : nat) (F : value) (args : list value) (newTarget : value)
  : M value :=
  let* prototype := GetV n newTarget "prototype" in
  let* this :=
    new_object (mkObject (Some (match prototype with
                                | VObject q => q
                                | _ => ObjectPrototype
                                end)) [] Ordinary) in
  let* result := Call F (VObject this) args in
  ret (match result with VObject _ => result | _ => VObject this end).

(** [Reflect.construct(target, argumentsList, newTarget)]; the rest
    parameter [args], when it is passed on as it is, is its own element
    list. *)
Definition Reflect_construct (n : nat) (target : value)
  (argumentsList : list value + value) (newTarget : value) : M value :=
  let* isCtor := IsConstructor n target in
  if negb isCtor then throw TypeError
  else
    let* isCtor' := IsConstructor n newTarget in
    if negb isCtor' then throw TypeError
    else
      let* args := match argumentsList with
                   | inl args => ret args
                   | inr arrayLike => CreateListFromArrayLike n arrayLike
                   end in
      Construct n target args newTarget.

(** [Object.assign(to, source)] with an object for [to]. *)
Fixpoint assign_loop (n : nat) (to : value) (source : loc) (keys : list string)
  : M unit :=
  match keys with
  | [] => ret tt
  | key :: keys' =>
      let* desc := GetOwnProperty n source key in
      (match desc with
       | Some d =>
           if enumerable d then
             let* v := Get n source key (VObject source) in
             assign n to key v
           else ret tt
       | None => ret tt
       end) ;;
      assign_loop n to source keys'
  end.

Definition Object_assign (n : nat) (to source : value) : M value :=
  match to with
  | VObject _ =>
      match source with
      | VObject s =>
          let* t := resolve n s in
          let* keys := gets (fun h => map fst (props (obj h t))) in
          assign_loop n to s keys ;; ret to
      | _ => ret to
      end
  | _ => throw TypeError
  end.

(** The body of [derivedClass] (lines 111-123); [derivedClass] is the
    function object itself. *)
Definition derivedClass_body (n : nat) (derivedClass baseClass classDescriptor : value)
  (args : list value) : M value :=
  let* courier := new_object (mkObject (Some ObjectPrototype) [] Ordinary) in
  let* pre := GetV n classDescriptor "preConstructor" in
  let* baseArgs :=
    if to_boolean pre then
      let* preConstructor := GetV n classDescriptor "preConstructor" in
      let* r := Call preConstructor (VObject courier) args in
      ret (inr r)
    else ret (inl args) in
  let* result := Reflect_construct n baseClass baseArgs derivedClass in
  Object_assign n result (VObject courier) ;;
  let* post := GetV n classDescriptor "constructor" in
  (if to_boolean post then
     let* constructor := GetV n classDescriptor "constructor" in
     Call constructor result args ;; ret tt
   else ret tt) ;;
  ret result.

End Operations.

(** ** Programs: the functions supplied by the library's user *)

(** What the body of a user function can do besides reading and writing the
    heap: call functions, use the object operations, and use the library. *)
Record runtime : Type := mkRuntime {
  rt_call : value -> value -> list value -> M value;
  rt_new : value -> list value -> M value;
  rt_get : value -> string -> M value;
  rt_set : value -> string -> value -> M unit;
  rt_delete : value -> string -> M unit;
  rt_defineProperty : value -> string -> value -> M value;
  rt_callSuper : value -> string -> list value -> M value;
  rt_super : value -> M value;
  rt_property : value -> M value;
  rt_enhance : value -> value -> M value;
  rt_extend : value -> value -> M value
}.

Definition body : Type := runtime -> value -> list value -> M value.

Definition program : Type := nat -> body.

(** [f.apply(this, args)] on the function objects of the heap. *)
Fixpoint Call (prog : program) (n : nat) (f this : value) (args : list value)
  : M value :=
  match n with
  | 0 => fun _ => OutOfFuel
  | S n' =>
      let call := Call prog n' in
      match f with
      | VObject l => fun h =>
          match target_of n' h l with
          | None => OutOfFuel
          | Some t =>
              match kind (obj h t) with
              | Callable (UserFunction id) _ =>
                  prog id
                    (mkRuntime call
                       (fun F args' => Reflect_construct call n' F (inl args') F)
                       (GetV call n') (assign call n') (delete_property n')
                       (defineProperty call n')
                       (callSuper call n') (super call n') (property call n')
                       (enhance call n') (extend call n'))
                    this args h
              | Callable (DerivedClass baseClass classDescriptor) _ =>
                  derivedClass_body call n' (VObject t) baseClass classDescriptor args h
              | Callable (SuperMethod target name) _ =>
                  callSuper call n' target name args h
              | _ => Abrupt TypeError h
              end
          end
      | _ => throw TypeError
      end
  end.

(** [new F(...args)]. *)
Definition New (prog : program) (n : nat) (F : value) (args : list value) : M value :=
  Reflect_construct (Call prog n) n F (inl args) F.

(** ** Helpers for writing user functions *)

Definition to_string (v : value) : string :=
  match v with
  | VUndefined => "undefined"
  | VNull => "null"
  | VBool true => "true"
  | VBool false => "false"
  | VNumber z =>
      DecimalString.NilZero.string_of_int (Z.to_int z)
  | VString s => s
  | VObject _ => "[object Object]"
  end.

(** [a + b] on primitives. *)
Definition add (a b : value) : value :=
  match a, b with
  | VNumber x, VNumber y => VNumber (x + y)
  | _, _ => VString (to_string a ++ to_string b)
  end.

Definition nth_arg (i : nat) (args : list value) : value :=
  nth i args VUndefined.

Definition data (v : value) : Property := DataProperty v true true true.
Definition method (f : loc) : Property := DataProperty (VObject f) true false true.
Definition function (id : nat) : object :=
  mkObject (Some FunctionPrototype) [] (Callable (UserFunction id) false).
Definition class (id : nat) (prototype : loc) : object :=
  mkObject (Some FunctionPrototype)
    [("prototype", DataProperty (VObject prototype) false false false)]
    (Callable (UserFunction id) true).
Definition plain (parent : loc) (ps : list (string * Property)) : object :=
  mkObject (Some parent) ps Ordinary.

(** An array literal. *)
Definition new_array (vs : list value) : M value :=
  let* a := new_object
    (mkObject (Some ObjectPrototype)
       (imap (fun i v => (string_of_nat i, data v)) vs
        ++ [("length", DataProperty (VNumber (Z.of_nat (length vs))) true false false)])
       Ordinary) in
  ret (VObject a).

(** The outcome without the heap, for reading off results. *)
Definition result_of {A} (o : outcome A) : option (A + thrown) :=
  match o with
  | Normal a _ => Some (inl a)
  | Abrupt e _ => Some (inr e)
  | OutOfFuel => None
  end.

Definition heap_of {A} (o : outcome A) : option heap :=
  match o with
  | Normal _ h => Some h
  | Abrupt _ h => Some h
  | OutOfFuel => None
  end.

(** ** The three-level example: [A], [B extends A], [C extends B] *)

Module Levels.

(** Heap layout: 0 [Object.prototype], 1 [Function.prototype],
    2 [A], 3 [A.prototype], 4 [B], 5 [B.prototype], 6 [C], 7 [C.prototype],
    8-10 the three [action] functions, 11-12 the member maps passed to
    [enhance], 13 an instance of [B], 14 an instance of [C]. *)
Definition A := 2.
Definition A_prototype := 3.
Definition B := 4.
Definition B_prototype := 5.
Definition C := 6.
Definition C_prototype := 7.
Definition actionA := 8.
Definition actionB := 9.
Definition actionC := 10.
Definition membersB := 11.
Definition membersC := 12.
Definition b := 13.
Definition c := 14.

(** [action() { return $super(this).action() + suffix }] *)
Definition chained (suffix : string) : body :=
  fun rt this _ =>
    let* wrapper := rt_super rt this in
    let* f := rt_get rt wrapper "action" in
    let* r := rt_call rt f wrapper [] in
    ret (add r (VString suffix)).

Definition prog : program :=
  fun id =>
    match id with
    | 1 => fun _ _ _ => ret (VString "A")
    | 2 => chained "B"
    | 3 => chained "C"
    | _ => fun _ _ _ => ret VUndefined
    end.

Definition initial : heap :=
  [ mkObject None [] Ordinary;
    mkObject (Some ObjectPrototype) [] Ordinary;
    class 0 A_prototype;
    plain ObjectPrototype [("constructor", method A); ("action", method actionA)];
    class 0 B_prototype;
    plain A_prototype [("constructor", method B)];
    class 0 C_prototype;
    plain B_prototype [("constructor", method C)];
    function 1; function 2; function 3;
    plain ObjectPrototype [("action", data (VObject actionB))];
    plain ObjectPrototype [("action", data (VObject actionC))];
    plain B_prototype [];
    plain C_prototype [] ].

(** [enhance(B, { action() {...} }); enhance(C, { action() {...} })] *)
Definition enhanced (n : nat) : option heap :=
  heap_of ((enhance (Call prog n) n (VObject B) (VObject membersB) ;;
            enhance (Call prog n) n (VObject C) (VObject membersC)) initial).

(** [x.action()] *)
Definition invoke_action (n : nat) (x : loc) : M value :=
  let* f := GetV (Call prog n) n (VObject x) "action" in
  Call prog n f (VObject x) [].

End Levels.

(** ** Predicates used in the statements *)

(** Keys of a table, and how many entries carry a given key. *)
Definition keys (ps : list (string * Property)) : list string := map fst ps.

Definition count_key (p : string) (ps : list (string * Property)) : nat :=
  length (List.filter (fun kv => String.eqb (fst kv) p) ps).

Definition is_proxy (o : object) : bool :=
  match kind o with SuperProxy _ => true | _ => false end.

(** [chain h l ls]: [ls] lists the levels of the prototype chain of [l], from
    [l] itself to the level without parent link; every level is an object of
    the heap and none is a wrapper. *)
Inductive chain (h : heap) : loc -> list loc -> Prop :=
| chain_end l :
    l < length h -> is_proxy (obj h l) = false -> proto (obj h l) = None ->
    chain h l [l]
| chain_link l q ls :
    l < length h -> is_proxy (obj h l) = false -> proto (obj h l) = Some q ->
    chain h q ls -> chain h l (l :: ls).

(** No level of [ls] declares [p] itself. *)
Definition undeclared (h : heap) (p : string) (ls : list loc) : Prop :=
  Forall (fun l => own h l p = None) ls.

(** The ancestor-dispatch marker and the cache of the wrapper. *)
Abbreviation BaseReference := "$BaseReference".
Abbreviation SuperProxyField := "$SuperProxy".

(** Where the walk of [callSuper] stops on the levels [ls], read off the
    heap: the first level that declares [name] with a value other than
    [direct], after a level that declares it with [direct]. *)
Fixpoint dispatch_target (h : heap) (name : string) (direct : value)
  (ls : list loc) (isSuper : bool) : option (loc * value) :=
  match ls with
  | [] => None
  | l :: ls' =>
      match own h l name with
      | Some d =>
          if strict_equal (descriptor_value d) direct
          then dispatch_target h name direct ls' true
          else if isSuper then Some (l, descriptor_value d)
               else dispatch_target h name direct ls' isSuper
      | None => dispatch_target h name direct ls' isSuper
      end
  end.

(** The search start point of [callSuper] on the instance [t]: the level the
    marker names when [t] carries one (as [callSuper] itself writes it),
    [t] itself when no level of its chain declares a marker.  The index is
    the number of levels the test for the marker visits. *)
Inductive starts_at (h : heap) (t : loc) : nat -> loc -> Prop :=
| starts_at_instance ls :
    chain h t ls -> undeclared h BaseReference ls -> starts_at h t (length ls) t
| starts_at_marker base :
    own h t BaseReference = Some (DataProperty (VObject base) true true true) ->
    starts_at h t 1 base.

(** No level of [ls] declares [name] with a value other than [direct] above
    a level that declares it with [direct]. *)
Definition no_override (h : heap) (name : string) (direct : value) (ls : list loc)
  : Prop :=
  forall pre l1 mid l2 post x1 x2,
    ls = pre ++ l1 :: mid ++ l2 :: post ->
    own h l1 name = Some x1 -> descriptor_value x1 = direct ->
    own h l2 name = Some x2 -> descriptor_value x2 = direct.

(** The heap once the marker on [t] names [level]. *)
Definition with_marker (t level : loc) (h : heap) : heap :=
  put_own t BaseReference (DataProperty (VObject level) true true true) h.

(** The heap prepared by the two [enhance] calls of the three-level example,
    and the failing-ancestor example. *)
Module Prepared.

Definition levels : heap :=
  Eval vm_compute in default [] (Levels.enhanced 20).

End Prepared.

Module Failing.

(** Heap layout: 2 [A], 3 [A.prototype], 4 [B], 5 [B.prototype],
    6 [A.prototype.action] (raises), 7 [A.prototype.other],
    8 [B.prototype.action], 9 [B.prototype.other], 10 an instance of [B]. *)
Definition A := 2.
Definition A_prototype := 3.
Definition B := 4.
Definition B_prototype := 5.
Definition b := 10.

Definition prog : program :=
  fun id =>
    match id with
    | 1 => fun _ _ _ => throw (Thrown (VString "boom"))
    | 2 => fun _ _ _ => ret (VString "A.other")
    | 3 => fun rt this args => rt_callSuper rt this "action" args
    | 4 => fun rt this args => rt_callSuper rt this "other" args
    | _ => fun _ _ _ => ret VUndefined
    end.

Definition initial : heap :=
  [ mkObject None [] Ordinary;
    mkObject (Some ObjectPrototype) [] Ordinary;
    class 0 A_prototype;
    plain ObjectPrototype
      [("constructor", method A); ("action", method 6); ("other", method 7)];
    class 0 B_prototype;
    plain A_prototype
      [("constructor", method B); ("action", method 8); ("other", method 9)];
    function 1; function 2; function 3; function 4;
    plain B_prototype [] ].

(** [x.name()] *)
Definition invoke (n : nat) (x : loc) (name : string) : M value :=
  let* f := GetV (Call prog n) n (VObject x) name in
  Call prog n f (VObject x) [].

(** The heap the failed [b.action()] leaves. *)
Definition after_failure : heap :=
  Eval vm_compute in default [] (heap_of (invoke 20 b "action" initial)).

End Failing.

(** ** Invariants of the heap *)

(** Every object declares each key once: an instance has at most one
    [$BaseReference] slot. *)
Definition unique_keys (h : heap) : Prop :=
  Forall (fun o => NoDup (keys (props o))) h.

(** [m] keeps [P], whether it completes normally or abruptly. *)
Definition preserves (P : heap -> Prop) {A} (m : M A) : Prop :=
  forall h, P h ->
    match m h with
    | Normal _ h' => P h'
    | Abrupt _ h' => P h'
    | OutOfFuel => True
    end.

Definition runtime_preserves (P : heap -> Prop) (rt : runtime) : Prop :=
  (forall f this args, preserves P (rt_call rt f this args))
  /\ (forall F args, preserves P (rt_new rt F args))
  /\ (forall o p, preserves P (rt_get rt o p))
  /\ (forall o p v, preserves P (rt_set rt o p v))
  /\ (forall o p, preserves P (rt_delete rt o p))
  /\ (forall o p a, preserves P (rt_defineProperty rt o p a))
  /\ (forall t m args, preserves P (rt_callSuper rt t m args))
  /\ (forall t, preserves P (rt_super rt t))
  /\ (forall d, preserves P (rt_property rt d))
  /\ (forall c m, preserves P (rt_enhance rt c m))
  /\ (forall b d, preserves P (rt_extend rt b d)).

(** The user functions keep [P] when the operations they are given do. *)
Definition program_preserves (P : heap -> Prop) (prog : program) : Prop :=
  forall id rt this args, runtime_preserves P rt -> preserves P (prog id rt this args).

(** The two objects [$super] and its wrapper allocate. *)
Definition wrapper (x : loc) : object := mkObject None [] (SuperProxy x).

Definition arrow (x : loc) (name : string) : object :=
  mkObject (Some FunctionPrototype) [] (Callable (SuperMethod (VObject x) name) false).

(** An own property whose value a [get] trap may not misreport: not
    configurable, and a read-only data property or an accessor without
    getter. *)
Definition locked (d : option Property) : bool :=
  match d with
  | Some (DataProperty _ false _ false) => true
  | Some (AccessorProperty VUndefined _ _ false) => true
  | _ => false
  end.

(** An instance with a read-only, non-configurable own field [id], as
    [Object.defineProperty(this, "id", { value: 7 })] leaves it. *)
Module Sealed.

Definition A := 2.
Definition A_prototype := 3.
Definition x := 4.

Definition prog : program := fun _ _ _ _ => ret VUndefined.

Definition initial : heap :=
  [ mkObject None [] Ordinary;
    mkObject (Some ObjectPrototype) [] Ordinary;
    class 0 A_prototype;
    plain ObjectPrototype [("constructor", method A)];
    plain A_prototype [("id", DataProperty (VNumber 7) false false false)] ].

(** [$super(x).id] *)
Definition read_id (n : nat) : M value :=
  let* w := super (Call prog n) n (VObject x) in
  GetV (Call prog n) n w "id".

End Sealed.

(** The three-level example once [$super(c)] has been called. *)
Module Wrapped.

Definition levels : heap :=
  Eval vm_compute in
    default [] (heap_of (super (Call Levels.prog 20) 20 (VObject Levels.c)
                           Prepared.levels)).

Definition w : loc := 15.

End Wrapped.

(** ** Plain assignment onto an object, read off the heap *)

(** The nearest declaration of [p] on the levels [ls]. *)
Fixpoint nearest (h : heap) (p : string) (ls : list loc) : option Property :=
  match ls with
  | [] => None
  | l :: ls' =>
      match own h l p with
      | Some x => Some x
      | None => nearest h p ls'
      end
  end.

(** Whether an assignment is carried out as a write of an own data property:
    no declaration, or a writable data property. *)
Definition accepts_write (d : option Property) : bool :=
  match d with
  | None => true
  | Some (DataProperty _ w _ _) => w
  | Some (AccessorProperty _ _ _ _) => false
  end.

(** The own property an accepted assignment of [v] leaves. *)
Definition written (v : value) (d : option Property) : Property :=
  match d with
  | Some (DataProperty _ w e c) => DataProperty v w e c
  | _ => DataProperty v true true true
  end.

Definition install (t : loc) (p : string) (v : value) (h : heap) : heap :=
  put_own t p (written v (own h t p)) h.

(** [h'] differs from [h] at most in the own properties of [t]. *)
Definition same_except (t : loc) (h h' : heap) : Prop :=
  length h' = length h
  /\ (forall l, l <> t -> obj h' l = obj h l)
  /\ proto (obj h' t) = proto (obj h t)
  /\ kind (obj h' t) = kind (obj h t).

Definition is_data (x : Property) : bool :=
  match x with DataProperty _ _ _ _ => true | AccessorProperty _ _ _ _ => false end.

(** The value of an own property of [l] that is an enumerable data
    property. *)
Definition enumerable_field (h : heap) (l : loc) (p : string) : option value :=
  match own h l p with
  | Some (DataProperty v _ true _) => Some v
  | _ => None
  end.

Abbreviation IsPropertyDescriptor := "$IsPropertyDescriptor".

(** The heap after the enumerable data fields that [s] had in [h0] have been
    assigned, key by key, onto [t]. *)
Fixpoint installs (h0 : heap) (s t : loc) (ks : list string) (h : heap) : heap :=
  match ks with
  | [] => h
  | k :: ks' =>
      match enumerable_field h0 s k with
      | Some v => installs h0 s t ks' (install t k v h)
      | None => installs h0 s t ks' h
      end
  end.

(** A member that [enhance] and [extend] install by plain assignment onto
    the prototype [t]: neither [undefined] nor [null], and, when an object,
    one without own [$IsPropertyDescriptor] (and not [t] itself). *)
Definition plain_member (h : heap) (t : loc) (v : value) : bool :=
  match v with
  | VUndefined | VNull => false
  | VObject e =>
      negb (is_proxy (obj h e)) && negb (present (own h e IsPropertyDescriptor))
      && negb (Nat.eqb e t)
  | _ => true
  end.

(** Every own property of [l] is a data property, each key once. *)
Definition plain_fields (h : heap) (l : loc) : Prop :=
  NoDup (keys (props (obj h l)))
  /\ Forall (fun kv => is_data (snd kv) = true) (props (obj h l)).

(** ** Construction through a class made by [extend], step by step *)

Definition is_object (v : value) : bool :=
  match v with VObject _ => true | _ => false end.




(** ** Class synthesis examples *)

(** [Base(v)] stores [v]; the descriptor's [preConstructor(a, b)] writes
    [tag] and [keep] on its receiver and returns [[a + b]]; its
    [constructor(a, b)] writes [sum], [b] and [tag]. *)
Module Synthesis.

(** Heap layout: 0 [Object.prototype], 1 [Function.prototype], 2 [Object],
    3 [Base], 4 [Base.prototype], 5 the class descriptor, 6 its
    [preConstructor], 7 its [constructor]. *)
Definition Object := 2.
Definition Base := 3.
Definition Base_prototype := 4.
Definition descriptor := 5.

Definition prog : program :=
  fun id =>
    match id with
    | 0 => fun _ _ args =>
             match args with
             | VObject l :: _ => ret (VObject l)
             | _ => let* o := new_object (plain ObjectPrototype []) in ret (VObject o)
             end
    | 1 => fun rt this args =>
             rt_set rt this "v" (nth_arg 0 args) ;; ret VUndefined
    | 2 => fun rt this args =>
             rt_set rt this "tag" (VString "pre") ;;
             rt_set rt this "keep" (nth_arg 0 args) ;;
             new_array [add (nth_arg 0 args) (nth_arg 1 args)]
    | 3 => fun rt this args =>
             rt_set rt this "sum" (nth_arg 0 args) ;;
             rt_set rt this "b" (nth_arg 1 args) ;;
             rt_set rt this "tag" (VString "post") ;;
             ret VUndefined
    | _ => fun _ _ _ => ret VUndefined
    end.

Definition initial : heap :=
  [ mkObject None [("constructor", method Object)] Ordinary;
    mkObject (Some ObjectPrototype) [] Ordinary;
    class 0 ObjectPrototype;
    class 1 Base_prototype;
    plain ObjectPrototype [("constructor", method Base)];
    plain ObjectPrototype
      [("preConstructor", data (VObject 6)); ("constructor", data (VObject 7))];
    function 2; function 3 ].

(** [const Derived = extend(Base, descriptor)]: [Derived] is object 8 and
    [Derived.prototype] object 10. *)
Definition Derived := 8.
Definition Derived_prototype := 10.

Definition defined : heap :=
  Eval vm_compute in
    default [] (heap_of (extend (Call prog 20) 20 (VObject Base) (VObject descriptor)
                           initial)).

(** The stages of [new Derived(3, 4)]. *)
Definition args : list value := [VNumber 3; VNumber 4].
Definition courier := 12.
Definition instance := 14.

Definition h1 : heap :=
  (defined ++ [mkObject (Some Derived_prototype) [] Ordinary])
  ++ [mkObject (Some ObjectPrototype) [] Ordinary].

Definition h2 : heap :=
  Eval vm_compute in
    default [] (heap_of (Call prog 19 (VObject 6) (VObject courier) args h1)).

Definition h3 : heap :=
  Eval vm_compute in
    default [] (heap_of (Call prog 19 (VObject Base) (VObject instance) [VNumber 7]
                           (h2 ++ [mkObject (Some Derived_prototype) [] Ordinary]))).



End Synthesis.

(** [extend(extend(Base, {}), { greet() {...} })]. *)
Module Nested.

(** Heap layout: as in [Synthesis] up to 4; 5 the empty descriptor, 6 the
    descriptor with [greet], 7 [greet]. *)
Definition prog : program :=
  fun id =>
    match id with
    | 4 => fun _ _ _ => ret (VString "hi")
    | _ => Synthesis.prog id
    end.

Definition initial : heap :=
  [ mkObject None [("constructor", method Synthesis.Object)] Ordinary;
    mkObject (Some ObjectPrototype) [] Ordinary;
    class 0 ObjectPrototype;
    class 1 Synthesis.Base_prototype;
    plain ObjectPrototype [("constructor", method Synthesis.Base)];
    plain ObjectPrototype [];
    plain ObjectPrototype [("greet", data (VObject 7))];
    function 4 ].


End Nested.

(** ** Tagged and untagged entries *)

(** Heap layout: 2 [C], 3 [C.prototype], 4 the descriptor
    [{ value: 7, writable: false }] that [property] tags, 5 an object that
    inherits from it ([Object.create] of it), 6 the member map [{ y: 4 }],
    7 the member map [{ z: 5 }], 8 the member map [{ y: 8 }], 9 an instance
    of [C]. *)
Module Tagged.

Definition C := 2.
Definition C_prototype := 3.
Definition descriptor := 4.
Definition heir := 5.
Definition x := 9.

Definition prog : program := fun _ _ _ _ => ret VUndefined.

Definition initial : heap :=
  [ mkObject None [] Ordinary;
    mkObject (Some ObjectPrototype) [] Ordinary;
    class 0 C_prototype;
    plain ObjectPrototype [("constructor", method C)];
    plain ObjectPrototype
      [("value", data (VNumber 7)); ("writable", data (VBool false))];
    plain descriptor [];
    plain ObjectPrototype [("y", data (VObject descriptor))];
    plain ObjectPrototype [("z", data (VObject heir))];
    plain ObjectPrototype [("y", data (VNumber 8))];
    plain C_prototype [] ].

(** [property(descriptor); enhance(C, { y: descriptor })] *)
Definition tagged : heap :=
  Eval vm_compute in
    default []
      (heap_of ((property (Call prog 20) 20 (VObject descriptor) ;;
                 enhance (Call prog 20) 20 (VObject C) (VObject 6)) initial)).

(** Then [enhance(C, { z: heir })]. *)
Definition inherited : heap :=
  Eval vm_compute in
    default [] (heap_of (enhance (Call prog 20) 20 (VObject C) (VObject 7) tagged)).

(** [extend(C, { z: heir })] and [extend(C, { y: descriptor })] on the
    tagged heap: the new prototypes are objects 12 and 15. *)
Definition extended : heap :=
  Eval vm_compute in
    default []
      (heap_of ((extend (Call prog 20) 20 (VObject C) (VObject 7) ;;
                 extend (Call prog 20) 20 (VObject C) (VObject 6)) tagged)).

End Tagged.

(** ** Further predicates and examples *)


(** Every level of [ls] that declares [name] declares it with the value
    [direct]. *)
Definition declares_only (h : heap) (name : string) (direct : value)
  (ls : list loc) : Prop :=
  Forall (fun l => forall x, own h l name = Some x -> descriptor_value x = direct) ls.

(** Heap layout: 2 a function [f], 3 a function [g], 4 the root prototype
    with [m = g] and [size = 2], 5 and 6 two prototypes above each other
    that both hold [m = f], 7 an instance with the own field [size = 1]. *)
Module Shapes.

Definition f := 2.
Definition g := 3.
Definition root := 4.
Definition lower := 5.
Definition upper := 6.
Definition x := 7.

Definition prog : program :=
  fun id =>
    match id with
    | 1 => fun _ _ _ => ret (VString "f")
    | 2 => fun _ _ _ => ret (VString "g")
    | _ => fun _ _ _ => ret VUndefined
    end.

Definition initial : heap :=
  [ mkObject None [] Ordinary;
    mkObject (Some ObjectPrototype) [] Ordinary;
    function 1; function 2;
    plain ObjectPrototype [("m", method g); ("size", data (VNumber 2))];
    plain root [("m", method f)];
    plain lower [("m", method f)];
    plain upper [("size", data (VNumber 1))] ].

End Shapes.

(** The three-level example with the wrapper of [c] in place, and an object
    [y] created from [c] ([Object.create(c)]). *)
Module Borrowed.

Definition y : loc := 16.

Definition levels : heap := Wrapped.levels ++ [plain Levels.c []].

End Borrowed.

(** A class [C] and the member map [{ a: 1, b: null, c: 2 }]. *)
Module Partial.

Definition C := 2.
Definition C_prototype := 3.
Definition members := 4.

Definition prog : program := fun _ _ _ _ => ret VUndefined.

Definition initial : heap :=
  [ mkObject None [] Ordinary;
    mkObject (Some ObjectPrototype) [] Ordinary;
    class 0 C_prototype;
    plain ObjectPrototype [("constructor", method C)];
    plain ObjectPrototype
      [("a", data (VNumber 1)); ("b", data VNull); ("c", data (VNumber 2))] ].

End Partial.

(** ** A tagged descriptor, read off the heap *)

(** The value of the field [name] of a descriptor object with chain [ls],
    when the nearest declaration of the field is a data property. *)
Definition read_field (h : heap) (ls : list loc) (name : string) : option value :=
  option_map descriptor_value (nearest h name ls).

Definition data_or_absent (d : option Property) : bool :=
  match d with Some x => is_data x | None => true end.

(** None of the fields that [Object.defineProperty] reads is an accessor. *)
Definition data_fields (h : heap) (ls : list loc) : bool :=
  forallb (fun name => data_or_absent (nearest h name ls))
    ["enumerable"; "configurable"; "value"; "writable"; "get"; "set"].

(** What [Object.defineProperty] admits as a [get] or [set] field. *)
Definition function_or_undefined (h : heap) (v : option value) : bool :=
  match v with
  | None | Some VUndefined => true
  | Some (VObject l) =>
      match kind (obj h l) with Callable _ _ => true | _ => false end
  | Some _ => false
  end.

(** The descriptor that the object with chain [ls] describes. *)
Definition described (h : heap) (ls : list loc) : descriptor :=
  mkDescriptor (read_field h ls "value")
    (option_map to_boolean (read_field h ls "writable"))
    (read_field h ls "get") (read_field h ls "set")
    (option_map to_boolean (read_field h ls "enumerable"))
    (option_map to_boolean (read_field h ls "configurable")).

(** A class [C], the member map [{ limit: property({ value: 7 }) }] and an
    instance [x] of [C]. *)
Module Constant.

Definition C := 2.
Definition C_prototype := 3.
Definition descriptor := 4.
Definition members := 5.
Definition x := 6.

Definition prog : program := fun _ _ _ _ => ret VUndefined.

Definition initial : heap :=
  [ mkObject None [] Ordinary;
    mkObject (Some ObjectPrototype) [] Ordinary;
    class 0 C_prototype;
    plain ObjectPrototype [("constructor", method C)];
    plain ObjectPrototype
      [("value", data (VNumber 7)); (IsPropertyDescriptor, data (VBool true))];
    plain ObjectPrototype [("limit", data (VObject descriptor))];
    plain C_prototype [] ].

End Constant.

(** ** The class [extend] builds, read off the heap *)

(** The two keys of a class descriptor that [extend] does not install. *)
Definition reserved (key : string) : bool :=
  String.eqb key "preConstructor" || String.eqb key "constructor".

(** A member value that goes onto a new prototype by plain assignment:
    neither [undefined] nor [null], and, when an object, one of the heap
    without own [$IsPropertyDescriptor]. *)
Definition untagged (h : heap) (v : value) : bool :=
  match v with
  | VUndefined | VNull => false
  | VObject e =>
      Nat.ltb e (length h) && negb (is_proxy (obj h e))
      && negb (present (own h e IsPropertyDescriptor))
  | _ => true
  end.

(** The three objects [extend(B, D)] allocates, as they are when the members
    are about to be installed: the function, the prototype object every
    function expression comes with, and the prototype made from
    [B.prototype], which replaces it. *)
Definition extend_allocates (h : heap) (B D : value) (bp : loc) : list object :=
  [ mkObject (Some FunctionPrototype)
      [("prototype", DataProperty (VObject (S (S (length h)))) true false false)]
      (Callable (DerivedClass B D) true);
    mkObject (Some ObjectPrototype)
      [("constructor", DataProperty (VObject (length h)) true false true)]
      Ordinary;
    mkObject (Some bp) [] Ordinary ].

(** A base class and a class descriptor with the two reserved entries and
    two members: [{ preConstructor, sides: 4, constructor, area }]. *)
Module Blueprint.

Definition Object := 2.
Definition Base := 3.
Definition Base_prototype := 4.
Definition descriptor := 5.
Definition area := 8.

Definition prog : program := fun _ _ _ _ => ret VUndefined.

Definition initial : heap :=
  [ mkObject None [("constructor", method Object)] Ordinary;
    mkObject (Some ObjectPrototype) [] Ordinary;
    class 0 ObjectPrototype;
    class 1 Base_prototype;
    plain ObjectPrototype [("constructor", method Base)];
    plain ObjectPrototype
      [("preConstructor", data (VObject 6)); ("sides", data (VNumber 4));
       ("constructor", data (VObject 7)); ("area", data (VObject area))];
    function 2; function 3; function 4 ].

End Blueprint.

(** What [Object.create] accepts as a prototype. *)
Definition usable_prototype (v : value) : bool :=
  match v with VObject _ | VNull => true | _ => false end.

(** A class whose [preConstructor] writes on the courier and returns
    nothing. *)
Module Forgetful.

Definition Base := 2.
Definition Base_prototype := 3.
Definition descriptor := 4.
Definition preConstructor := 5.
Definition Derived := 6.
Definition Derived_prototype := 8.
Definition courier := 10.

Definition prog : program :=
  fun id =>
    match id with
    | 1 => fun rt this args =>
             rt_set rt this "v" (nth_arg 0 args) ;; ret VUndefined
    | 2 => fun rt this args =>
             rt_set rt this "tag" (VString "pre") ;; ret VUndefined
    | _ => fun _ _ _ => ret VUndefined
    end.

Definition initial : heap :=
  [ mkObject None [] Ordinary;
    mkObject (Some ObjectPrototype) [] Ordinary;
    class 1 Base_prototype;
    plain ObjectPrototype [("constructor", method Base)];
    plain ObjectPrototype [("preConstructor", data (VObject preConstructor))];
    function 2 ].

(** [const Derived = extend(Base, descriptor)] *)
Definition defined : heap :=
  Eval vm_compute in
    default [] (heap_of (extend (Call prog 20) 20 (VObject Base) (VObject descriptor)
                           initial)).

(** The heap when the [preConstructor] of [new Derived(1)] has returned. *)
Definition after_pre : heap :=
  Eval vm_compute in
    default []
      (heap_of (Call prog 19 (VObject preConstructor) (VObject courier) [VNumber 1]
                  ((defined ++ [mkObject (Some Derived_prototype) [] Ordinary])
                   ++ [mkObject (Some ObjectPrototype) [] Ordinary]))).

End Forgetful.

(** A base class with a method [describe] and a class descriptor that
    overrides it. *)
Module Override.

Definition Base := 2.
Definition Base_prototype := 3.
Definition descriptor := 4.
Definition describeBase := 5.
Definition describeDerived := 6.

(** The overriding [describe() { return callSuper(this, "describe") + "!" }]. *)
Definition prog : program :=
  fun id =>
    match id with
    | 1 => fun _ _ _ => ret (VString "base")
    | 2 => fun rt this _ =>
             let* r := rt_callSuper rt this "describe" [] in
             ret (add r (VString "!"))
    | _ => fun _ _ _ => ret VUndefined
    end.

Definition initial : heap :=
  [ mkObject None [] Ordinary;
    mkObject (Some ObjectPrototype) [] Ordinary;
    class 0 Base_prototype;
    plain ObjectPrototype
      [("constructor", method Base); ("describe", method describeBase)];
    plain ObjectPrototype [("describe", data (VObject describeDerived))];
    function 1; function 2 ].

End Override.

(** * Proofs *)

(** ** Basic facts about values and property tables *)

Lemma strict_equal_true a b : strict_equal a b = true <-> a = b.
Proof.
  destruct a, b; simpl; split; intros H; try discriminate; try reflexivity.
  - apply Bool.eqb_prop in H. congruence.
  - inversion H. apply Bool.eqb_reflx.
  - apply Z.eqb_eq in H. congruence.
  - inversion H. apply Z.eqb_refl.
  - apply String.eqb_eq in H. congruence.
  - inversion H. apply String.eqb_refl.
  - apply Nat.eqb_eq in H. congruence.
  - inversion H. apply Nat.eqb_refl.
Qed.

Lemma strict_equal_refl a : strict_equal a a = true.
Proof. now apply strict_equal_true. Qed.

Lemma strict_equal_false a b : strict_equal a b = false <-> a <> b.
Proof.
  split.
  - intros H E. apply strict_equal_true in E. congruence.
  - intros H. destruct (strict_equal a b) eqn:E; [|reflexivity].
    apply strict_equal_true in E. contradiction.
Qed.

Lemma assoc_put_same p x ps : assoc p (put p x ps) = Some x.
Proof.
  induction ps as [|[k y] ps IH]; simpl.
  - now rewrite String.eqb_refl.
  - destruct (String.eqb k p) eqn:E; simpl; rewrite E; auto.
Qed.

Lemma assoc_put_other p q x ps : p <> q -> assoc q (put p x ps) = assoc q ps.
Proof.
  intros Hne. induction ps as [|[k y] ps IH]; simpl.
  - destruct (String.eqb_spec p q); congruence.
  - destruct (String.eqb_spec k p) as [->|Hk]; simpl.
    + destruct (String.eqb_spec p q); congruence.
    + now rewrite IH.
Qed.

Lemma assoc_remove_same p ps : assoc p (remove p ps) = None.
Proof.
  induction ps as [|[k y] ps IH]; simpl; auto.
  destruct (String.eqb k p) eqn:E; simpl; auto. now rewrite E.
Qed.

Lemma assoc_remove_other p q ps : p <> q -> assoc q (remove p ps) = assoc q ps.
Proof.
  intros Hne. induction ps as [|[k y] ps IH]; simpl; auto.
  destruct (String.eqb_spec k p) as [->|Hk]; simpl.
  - destruct (String.eqb_spec p q); congruence.
  - now rewrite IH.
Qed.

Lemma keys_put_in p x ps : In p (keys ps) -> keys (put p x ps) = keys ps.
Proof.
  induction ps as [|[k y] ps IH]; simpl; [tauto|].
  intros [->|Hin].
  - now rewrite String.eqb_refl.
  - destruct (String.eqb k p); simpl; [reflexivity|]. now rewrite IH.
Qed.

Lemma keys_put_fresh p x ps : ~ In p (keys ps) -> keys (put p x ps) = keys ps ++ [p].
Proof.
  induction ps as [|[k y] ps IH]; simpl; [reflexivity|].
  intros Hn. destruct (String.eqb_spec k p) as [->|Hk]; [tauto|].
  simpl. rewrite IH; tauto.
Qed.

Lemma assoc_None_keys p ps : assoc p ps = None <-> ~ In p (keys ps).
Proof.
  induction ps as [|[k y] ps IH]; simpl; [tauto|].
  destruct (String.eqb_spec k p) as [->|Hk]; split; intros H;
    try discriminate; tauto.
Qed.

(** ** Basic facts about the heap *)

Lemma obj_alter_same f l (h : heap) : l < length h -> obj (alter f l h) l = f (obj h l).
Proof.
  intros Hl. unfold obj. rewrite list_lookup_alter_eq.
  destruct (h !! l) eqn:Ho; [reflexivity|].
  apply lookup_ge_None_1 in Ho. lia.
Qed.

Lemma obj_alter_other f l l' (h : heap) : l <> l' -> obj (alter f l h) l' = obj h l'.
Proof. intros Hne. unfold obj. now rewrite list_lookup_alter_ne. Qed.

Lemma obj_app_old (h hs : heap) l : l < length h -> obj (h ++ hs) l = obj h l.
Proof. intros Hl. unfold obj. now rewrite lookup_app_l. Qed.

Lemma obj_app_new (h : heap) o : obj (h ++ [o]) (length h) = o.
Proof.
  unfold obj. rewrite lookup_app_r by lia.
  now replace (length h - length h) with 0 by lia.
Qed.

Lemma own_put_own_same h l p x : l < length h -> own (put_own l p x h) l p = Some x.
Proof.
  intros Hl. unfold own, put_own. rewrite obj_alter_same by assumption.
  simpl. apply assoc_put_same.
Qed.

Lemma own_put_own_other_key h l p q x :
  p <> q -> own (put_own l p x h) l q = own h l q.
Proof.
  intros Hne. unfold own, put_own.
  destruct (Nat.lt_ge_cases l (length h)) as [Hl|Hl].
  - rewrite obj_alter_same by assumption. simpl. now apply assoc_put_other.
  - unfold obj. rewrite list_lookup_alter_eq.
    rewrite (lookup_ge_None_2 h l) by lia. reflexivity.
Qed.

Lemma own_put_own_other_loc h l l' p q x :
  l <> l' -> own (put_own l p x h) l' q = own h l' q.
Proof. intros Hne. unfold own, put_own. now rewrite obj_alter_other. Qed.

(** ** The internal methods on objects that are not wrappers *)

Lemma target_of_ordinary n h l :
  is_proxy (obj h l) = false -> target_of (S n) h l = Some l.
Proof.
  unfold is_proxy. simpl. destruct (kind (obj h l)); congruence.
Qed.

Lemma resolve_ordinary n h l :
  is_proxy (obj h l) = false -> resolve (S n) l h = Normal l h.
Proof. intros H. unfold resolve. now rewrite target_of_ordinary. Qed.

Lemma GetOwnProperty_ordinary n h l p :
  is_proxy (obj h l) = false -> GetOwnProperty (S n) l p h = Normal (own h l p) h.
Proof. intros H. unfold GetOwnProperty, bind. now rewrite resolve_ordinary. Qed.

Lemma GetPrototypeOf_ordinary n h l :
  is_proxy (obj h l) = false ->
  GetPrototypeOf (S n) l h = Normal (proto (obj h l)) h.
Proof. intros H. unfold GetPrototypeOf, bind. now rewrite resolve_ordinary. Qed.

Lemma HasProperty_step n h l p :
  is_proxy (obj h l) = false ->
  HasProperty (S n) l p h =
  match own h l p with
  | Some _ => Normal true h
  | None => match proto (obj h l) with
            | Some q => HasProperty n q p h
            | None => Normal false h
            end
  end.
Proof.
  unfold is_proxy, own. simpl. destruct (kind (obj h l)); congruence.
Qed.

Lemma chain_head h l ls : chain h l ls -> exists ls', ls = l :: ls'.
Proof. destruct 1; eauto. Qed.

Lemma chain_not_proxy h l ls : chain h l ls -> is_proxy (obj h l) = false.
Proof. now destruct 1. Qed.

Lemma chain_levels_not_proxy h l ls :
  chain h l ls -> Forall (fun x => is_proxy (obj h x) = false) ls.
Proof. induction 1; repeat constructor; auto. Qed.

Lemma chain_functional h l ls ls' : chain h l ls -> chain h l ls' -> ls = ls'.
Proof.
  intros H. revert ls'.
  induction H as [l Hv Hk Hp|l q ls Hv Hk Hp Hq IH]; intros ls' H';
    inversion H'; subst; try congruence.
  f_equal. apply IH. congruence.
Qed.

(** Splitting a chain at one of its levels. *)
Lemma chain_split h l pre x post :
  chain h l (pre ++ x :: post) ->
  match post with
  | [] => proto (obj h x) = None
  | y :: _ => proto (obj h x) = Some y /\ chain h y post
  end
  /\ (pre = [] -> l = x).
Proof.
  revert l. induction pre as [|a pre IH]; simpl; intros l H.
  - inversion H as [? Hv Hk Hp|? q ls Hv Hk Hp Hq]; subst; split; auto.
    destruct (chain_head _ _ _ Hq) as [ls' ->]. inversion Hq; subst; auto.
  - inversion H as [? Hv Hk Hp|? q ls Hv Hk Hp Hq]; subst.
    + destruct pre; discriminate.
    + destruct (IH _ Hq) as [IH1 _]. split; [assumption|discriminate].
Qed.

Lemma chain_suffix h l pre x post :
  chain h l (pre ++ x :: post) -> chain h x (x :: post).
Proof.
  revert l. induction pre as [|a pre IH]; simpl; intros l H.
  - destruct (chain_head _ _ _ H) as [ls' E]. inversion E; subst. assumption.
  - inversion H as [? Hv Hk Hp|? q ls Hv Hk Hp Hq]; subst.
    + destruct pre; discriminate.
    + eauto.
Qed.

Lemma HasProperty_chain n h l ls p :
  chain h l ls -> length ls <= n ->
  HasProperty n l p h = Normal (existsb (fun x => present (own h x p)) ls) h.
Proof.
  intros H. revert n.
  induction H as [l Hv Hk Hp|l q ls Hv Hk Hp Hq IH]; intros n Hn; simpl in Hn;
    (destruct n as [|n]; [lia|]); rewrite HasProperty_step by assumption;
    rewrite Hp; simpl.
  - destruct (own h l p); reflexivity.
  - destruct (own h l p); simpl; [reflexivity|]. apply IH. lia.
Qed.

Lemma undeclared_existsb h p ls :
  undeclared h p ls -> existsb (fun x => present (own h x p)) ls = false.
Proof.
  induction 1 as [|x ls Hx _ IH]; simpl; [reflexivity|]. now rewrite Hx, IH.
Qed.

Section ObjectFacts.

Variable Call : value -> value -> list value -> M value.

Lemma Get_step n h l p r :
  is_proxy (obj h l) = false ->
  Get Call (S n) l p r h =
  match own h l p with
  | Some (DataProperty v _ _ _) => Normal v h
  | Some (AccessorProperty g _ _ _) =>
      if is_undefined g then Normal VUndefined h else Call g r [] h
  | None => match proto (obj h l) with
            | Some q => Get Call n q p r h
            | None => Normal VUndefined h
            end
  end.
Proof.
  unfold is_proxy, own. simpl. destruct (kind (obj h l)); congruence.
Qed.

Lemma Get_undeclared n h l ls p r :
  chain h l ls -> undeclared h p ls -> length ls <= n ->
  Get Call n l p r h = Normal VUndefined h.
Proof.
  intros H. revert n.
  induction H as [l Hv Hk Hp|l q ls Hv Hk Hp Hq IH]; intros n Hu Hn;
    simpl in Hn; (destruct n as [|n]; [lia|]);
    rewrite Get_step by assumption;
    inversion Hu as [|? ? Hx Hrest]; subst; rewrite Hx, Hp.
  - reflexivity.
  - apply IH; [assumption|lia].
Qed.

(** The nearest declaration is a data property: reading runs no code. *)
Lemma Get_data n h l pre x post p v w e c r :
  chain h l (pre ++ x :: post) -> undeclared h p pre ->
  own h x p = Some (DataProperty v w e c) -> length pre < n ->
  Get Call n l p r h = Normal v h.
Proof.
  revert l n. induction pre as [|a pre IH]; simpl; intros l n H Hu Hx Hn;
    (destruct n as [|n]; [lia|]);
    rewrite Get_step by (eapply chain_not_proxy; eassumption).
  - destruct (chain_head _ _ _ H) as [ls' E]. inversion E; subst.
    now rewrite Hx.
  - inversion Hu as [|? ? Ha Hrest]; subst.
    inversion H as [? Hv Hk Hp|? q ls Hv Hk Hp Hq]; subst.
    + destruct pre; discriminate.
    + rewrite Ha, Hp. apply IH; auto. lia.
Qed.

Lemma set_on_receiver_fresh n h l p v :
  is_proxy (obj h l) = false -> own h l p = None ->
  set_on_receiver (S n) (VObject l) p v h
  = Normal true (put_own l p (DataProperty v true true true) h).
Proof.
  intros Hk Ho. unfold set_on_receiver, bind, gets.
  rewrite resolve_ordinary by assumption. now rewrite Ho.
Qed.

Lemma set_on_receiver_writable n h l p v v0 e c :
  is_proxy (obj h l) = false -> own h l p = Some (DataProperty v0 true e c) ->
  set_on_receiver (S n) (VObject l) p v h
  = Normal true (put_own l p (DataProperty v true e c) h).
Proof.
  intros Hk Ho. unfold set_on_receiver, bind, gets.
  rewrite resolve_ordinary by assumption. now rewrite Ho.
Qed.

Lemma SetProp_step n h l p v r :
  is_proxy (obj h l) = false ->
  SetProp Call (S n) l p v r h =
  match own h l p with
  | Some (DataProperty _ w _ _) =>
      if w then set_on_receiver n r p v h else Normal false h
  | Some (AccessorProperty _ s _ _) =>
      if is_undefined s then Normal false h
      else (Call s r [v] ;; ret true) h
  | None => match proto (obj h l) with
            | Some q => SetProp Call n q p v r h
            | None => set_on_receiver n r p v h
            end
  end.
Proof.
  unfold is_proxy, own. simpl. destruct (kind (obj h l)); congruence.
Qed.

(** Writing a name no level declares creates an own data property on the
    receiver. *)
Lemma SetProp_undeclared n h l ls p v t :
  chain h l ls -> undeclared h p ls -> length ls < n ->
  is_proxy (obj h t) = false -> own h t p = None ->
  SetProp Call n l p v (VObject t) h
  = Normal true (put_own t p (DataProperty v true true true) h).
Proof.
  intros H. revert n.
  induction H as [l Hv Hk Hp|l q ls Hv Hk Hp Hq IH]; intros n Hu Hn Ht Hot;
    simpl in Hn; (destruct n as [|n]; [lia|]);
    rewrite SetProp_step by assumption;
    inversion Hu as [|? ? Hx Hrest]; subst; rewrite Hx, Hp.
  - destruct n as [|n]; [lia|]. now apply set_on_receiver_fresh.
  - apply IH; auto. lia.
Qed.

(** Writing a name the object holds as a writable data property. *)
Lemma SetProp_own_writable n h l p v v0 e c :
  is_proxy (obj h l) = false -> own h l p = Some (DataProperty v0 true e c) ->
  SetProp Call (S (S n)) l p v (VObject l) h
  = Normal true (put_own l p (DataProperty v true e c) h).
Proof.
  intros Hk Ho. rewrite SetProp_step by assumption. rewrite Ho.
  now apply set_on_receiver_writable with v0.
Qed.

End ObjectFacts.

(** ** The walk of [callSuper] *)

Section WalkFacts.

Variable Call : value -> value -> list value -> M value.

Lemma callSuper_loop_chain k n h target name args direct base ls isSuper :
  chain h base ls -> length ls < k -> 0 < n ->
  callSuper_loop Call k n target name args direct (VObject base) isSuper h =
  match dispatch_target h name direct ls isSuper with
  | None => Normal VUndefined h
  | Some (l, f) =>
      (assign Call n target BaseReference (VObject l) ;;
       let* result := Call f target args in
       delete_property n target BaseReference ;;
       ret result) h
  end.
Proof.
  intros H. revert k isSuper.
  induction H as [l Hv Hk Hp|l q ls Hv Hk Hp Hq IH]; intros k isSuper Hlen Hn;
    simpl in Hlen; (destruct k as [|k]; [lia|]);
    (destruct n as [|n]; [lia|]); simpl;
    unfold bind; rewrite GetOwnProperty_ordinary by assumption;
    (destruct (own h l name) as [d|];
     [destruct (strict_equal (descriptor_value d) direct); [|destruct isSuper]|]);
    try reflexivity;
    rewrite GetPrototypeOf_ordinary by assumption; rewrite Hp; unfold ret;
    try (apply IH; lia);
    (destruct k as [|k]; [lia|]); reflexivity.
Qed.

End WalkFacts.

Lemma dispatch_target_all_direct h name direct ls isSuper :
  (forall l x, In l ls -> own h l name = Some x -> descriptor_value x = direct) ->
  dispatch_target h name direct ls isSuper = None.
Proof.
  revert isSuper. induction ls as [|l ls IH]; intros isSuper H; simpl; [reflexivity|].
  destruct (own h l name) as [d|] eqn:E.
  - rewrite (H l d) by (simpl; auto). rewrite strict_equal_refl.
    apply IH. intros; eapply H; simpl; eauto.
  - apply IH. intros; eapply H; simpl; eauto.
Qed.

Lemma dispatch_target_no_override h name direct ls :
  no_override h name direct ls ->
  dispatch_target h name direct ls false = None.
Proof.
  induction ls as [|l ls IH]; intros H; simpl; [reflexivity|].
  assert (Htail : no_override h name direct ls).
  { intros pre l1 mid l2 post x1 x2 E. apply (H (l :: pre) l1 mid l2 post x1 x2).
    simpl. now rewrite E. }
  destruct (own h l name) as [d|] eqn:E; [|now apply IH].
  destruct (strict_equal (descriptor_value d) direct) eqn:Ed; [|now apply IH].
  apply strict_equal_true in Ed.
  apply dispatch_target_all_direct. intros l2 x2 Hin Hx2.
  destruct (in_split _ _ Hin) as (mid & post & ->).
  now apply (H [] l mid l2 post d x2).
Qed.

Lemma dispatch_target_undeclared h name direct ls isSuper rest :
  undeclared h name ls ->
  dispatch_target h name direct (ls ++ rest) isSuper
  = dispatch_target h name direct rest isSuper.
Proof.
  induction 1 as [|l ls Hl _ IH]; simpl; [reflexivity|]. now rewrite Hl.
Qed.

(** The walk stops at the nearest declaration above the current level. *)
Lemma dispatch_target_nearest h name direct pre l1 mid l2 post x1 x2 :
  undeclared h name pre -> own h l1 name = Some x1 -> descriptor_value x1 = direct ->
  undeclared h name mid -> own h l2 name = Some x2 -> descriptor_value x2 <> direct ->
  dispatch_target h name direct (pre ++ l1 :: mid ++ l2 :: post) false
  = Some (l2, descriptor_value x2).
Proof.
  intros Hpre H1 Hd Hmid H2 Hne.
  rewrite dispatch_target_undeclared by assumption. simpl.
  rewrite H1, Hd, strict_equal_refl.
  rewrite dispatch_target_undeclared by assumption. simpl.
  rewrite H2. apply strict_equal_false in Hne. now rewrite Hne.
Qed.

(** ** [callSuper] from its start point *)

Lemma remove_absent p ps : assoc p ps = None -> remove p ps = ps.
Proof.
  induction ps as [|[k y] ps IH]; simpl; [reflexivity|].
  destruct (String.eqb k p); [discriminate|]. intros H. now rewrite IH.
Qed.

Lemma own_remove_own_same h l p : own (remove_own l p h) l p = None.
Proof.
  unfold own, remove_own. destruct (Nat.lt_ge_cases l (length h)) as [Hl|Hl].
  - rewrite obj_alter_same by assumption. simpl. apply assoc_remove_same.
  - unfold obj. rewrite list_lookup_alter_eq.
    rewrite (lookup_ge_None_2 h l) by lia. reflexivity.
Qed.

Lemma is_proxy_put_own h l p x l' :
  is_proxy (obj (put_own l p x h) l') = is_proxy (obj h l').
Proof.
  unfold put_own. destruct (Nat.eq_dec l l') as [<-|Hne].
  - destruct (Nat.lt_ge_cases l (length h)) as [Hl|Hl].
    + now rewrite obj_alter_same.
    + unfold obj. rewrite list_lookup_alter_eq.
      rewrite (lookup_ge_None_2 h l) by lia. reflexivity.
  - now rewrite obj_alter_other.
Qed.

Lemma proto_put_own h l p x l' :
  proto (obj (put_own l p x h) l') = proto (obj h l').
Proof.
  unfold put_own. destruct (Nat.eq_dec l l') as [<-|Hne].
  - destruct (Nat.lt_ge_cases l (length h)) as [Hl|Hl].
    + now rewrite obj_alter_same.
    + unfold obj. rewrite list_lookup_alter_eq.
      rewrite (lookup_ge_None_2 h l) by lia. reflexivity.
  - now rewrite obj_alter_other.
Qed.

Lemma chain_put_own h l p x l' ls :
  chain h l' ls -> chain (put_own l p x h) l' ls.
Proof.
  induction 1; [apply chain_end|eapply chain_link];
    rewrite ?is_proxy_put_own, ?proto_put_own; eauto;
    unfold put_own; now rewrite length_alter.
Qed.

Section DispatchFacts.

Variable Call : value -> value -> list value -> M value.

Lemma delete_property_absent n h t p :
  is_proxy (obj h t) = false -> own h t p = None ->
  delete_property (S n) (VObject t) p h = Normal tt h.
Proof.
  intros Hk Ho. unfold delete_property, Delete, bind, gets.
  rewrite resolve_ordinary by assumption. now rewrite Ho.
Qed.

Lemma delete_property_configurable n h t p x :
  is_proxy (obj h t) = false -> own h t p = Some x -> configurable x = true ->
  delete_property (S n) (VObject t) p h = Normal tt (remove_own t p h).
Proof.
  intros Hk Ho Hc. unfold delete_property, Delete, bind, gets.
  rewrite resolve_ordinary by assumption. now rewrite Ho, Hc.
Qed.

Lemma delete_property_locked n h t p x :
  is_proxy (obj h t) = false -> own h t p = Some x -> configurable x = false ->
  delete_property (S n) (VObject t) p h = Abrupt TypeError h.
Proof.
  intros Hk Ho Hc. unfold delete_property, Delete, bind, gets.
  rewrite resolve_ordinary by assumption. now rewrite Ho, Hc.
Qed.

(** Writing the marker from either start point. *)
Lemma assign_marker n h t d base level :
  is_proxy (obj h t) = false -> starts_at h t d base -> d < n -> 1 < n ->
  assign Call n (VObject t) BaseReference (VObject level) h
  = Normal tt (with_marker t level h).
Proof.
  intros Hk Hs Hd Hn. unfold assign, bind, with_marker.
  destruct Hs as [ls Hc Hu|base Ho].
  - erewrite SetProp_undeclared; eauto.
    destruct (chain_head _ _ _ Hc) as [ls' ->]. now inversion Hu.
  - destruct n as [|[|n]]; try lia.
    erewrite SetProp_own_writable; eauto.
Qed.

(** [callSuper] up to the point where the walk has chosen its level, in
    the heap [h1] that reading [base[methodName]] leaves. *)
Lemma callSuper_walk n h h1 t d base ls name args direct :
  is_proxy (obj h t) = false -> starts_at h t d base -> d < n ->
  Get Call n base name (VObject base) h = Normal direct h1 ->
  chain h1 base ls -> length ls < n ->
  callSuper Call n (VObject t) name args h =
  match dispatch_target h1 name direct ls false with
  | None => Normal VUndefined h1
  | Some (l, f) =>
      (assign Call n (VObject t) BaseReference (VObject l) ;;
       let* result := Call f (VObject t) args in
       delete_property n (VObject t) BaseReference ;;
       ret result) h1
  end.
Proof.
  intros Hk Hs Hd Hg Hc Hlen. unfold callSuper, has_in.
  assert (Hn : 0 < n) by (destruct ls; simpl in *; lia).
  unfold bind at 1.
  destruct Hs as [lsT HcT Hu|base Ho].
  - rewrite (HasProperty_chain n h t lsT) by (auto; lia).
    rewrite undeclared_existsb by assumption.
    unfold bind at 1. unfold ret at 1. unfold bind at 1. unfold GetV at 1.
    rewrite Hg. now apply callSuper_loop_chain.
  - destruct n as [|n]; [lia|].
    rewrite HasProperty_step by assumption. rewrite Ho.
    unfold bind at 1. unfold GetV at 1.
    rewrite Get_step by assumption. rewrite Ho.
    unfold bind at 1. unfold GetV at 1. rewrite Hg.
    now apply callSuper_loop_chain.
Qed.

End DispatchFacts.

Lemma remove_own_absent h l p : own h l p = None -> remove_own l p h = h.
Proof.
  intros Ho. unfold remove_own. apply list_eq. intros i.
  destruct (Nat.eq_dec i l) as [->|Hne].
  - rewrite list_lookup_alter_eq. unfold own, obj in Ho.
    destruct (h !! l) as [o|]; [|reflexivity]. simpl in *.
    unfold set_props. rewrite remove_absent by assumption. now destruct o.
  - now rewrite list_lookup_alter_ne.
Qed.

Lemma no_override_of_dispatch h name direct ls :
  dispatch_target h name direct ls false = None -> no_override h name direct ls.
Proof.
  assert (Hall : forall ls, dispatch_target h name direct ls true = None ->
            forall l x, In l ls -> own h l name = Some x -> descriptor_value x = direct).
  { clear ls. induction ls as [|a ls IH]; simpl; intros Hd l x Hin Hx; [tauto|].
    destruct (own h a name) as [d|] eqn:Ea.
    - destruct (strict_equal (descriptor_value d) direct) eqn:Ed; [|discriminate].
      destruct Hin as [->|Hin]; [|eauto].
      apply strict_equal_true in Ed. congruence.
    - destruct Hin as [->|Hin]; [congruence|eauto]. }
  induction ls as [|a ls IH]; intros Hd pre l1 mid l2 post x1 x2 E H1 Hv H2.
  - destruct pre; discriminate.
  - simpl in Hd. destruct pre as [|a' pre]; simpl in E; injection E as -> ->.
    + rewrite H1, Hv, strict_equal_refl in Hd.
      eapply Hall; eauto. apply in_or_app. right. now left.
    + destruct (own h a' name) as [d|] eqn:Ea.
      * destruct (strict_equal (descriptor_value d) direct) eqn:Ed.
        -- eapply Hall; eauto. apply in_or_app. right. right.
           apply in_or_app. right. now left.
        -- eapply IH; eauto.
      * eapply IH; eauto.
Qed.

(** The dispatch of [callSuper] on a chain that declares the method at a
    current level [l1] and, nearest above it, at [l2] with another value. *)
Lemma callSuper_dispatches prog n h t d base pre l1 mid l2 post name args
      current w1 e1 c1 f w2 e2 c2 :
  is_proxy (obj h t) = false ->
  starts_at h t d base -> d < n ->
  chain h base (pre ++ l1 :: mid ++ l2 :: post) ->
  length (pre ++ l1 :: mid ++ l2 :: post) < n ->
  undeclared h name pre ->
  own h l1 name = Some (DataProperty current w1 e1 c1) ->
  undeclared h name mid ->
  own h l2 name = Some (DataProperty f w2 e2 c2) ->
  f <> current ->
  callSuper (Call prog n) n (VObject t) name args h
  = (let* result := Call prog n f (VObject t) args in
     delete_property n (VObject t) BaseReference ;;
     ret result) (with_marker t l2 h).
Proof.
  intros Hk Hs Hd Hc Hlen Hpre H1 Hmid H2 Hne.
  assert (Hn : 1 < n).
  { rewrite length_app in Hlen. simpl in Hlen. rewrite length_app in Hlen.
    simpl in Hlen. lia. }
  rewrite (callSuper_walk _ n h h t d base (pre ++ l1 :: mid ++ l2 :: post)
             name args current Hk Hs Hd);
    [|eapply Get_data; eauto; rewrite length_app in Hlen; simpl in Hlen; lia
     |assumption|assumption].
  rewrite (dispatch_target_nearest h name current pre l1 mid l2 post
             (DataProperty current w1 e1 c1) (DataProperty f w2 e2 c2));
    auto.
  simpl descriptor_value. unfold bind at 1.
  now rewrite (assign_marker _ n h t d base l2).
Qed.


(** ** The claims about [callSuper] *)

(** C6.  When the walk from the search start point to the end of the chain
    finds no level that declares the method with a value other than
    [directBaseMethod] above a level that declares it with that value --
    in particular when no level declares the name at all -- [callSuper]
    returns [undefined] and raises nothing.  [direct] is what
    [base[methodName]] evaluates to, [h1] the heap that evaluation leaves
    ([h1 = h] unless the name is an accessor). *)
Theorem callSuper_absent_returns_undefined :
  (forall prog n h h1 t d base ls name args direct,
      is_proxy (obj h t) = false ->
      starts_at h t d base -> d < n ->
      Get (Call prog n) n base name (VObject base) h = Normal direct h1 ->
      chain h1 base ls -> length ls < n ->
      no_override h1 name direct ls ->
      callSuper (Call prog n) n (VObject t) name args h = Normal VUndefined h1)
  /\
  (forall prog n h t d base ls name args,
      is_proxy (obj h t) = false ->
      starts_at h t d base -> d < n ->
      chain h base ls -> length ls < n ->
      undeclared h name ls ->
      callSuper (Call prog n) n (VObject t) name args h = Normal VUndefined h).
Proof.
  assert (Hgen : forall prog n h h1 t d base ls name args direct,
      is_proxy (obj h t) = false ->
      starts_at h t d base -> d < n ->
      Get (Call prog n) n base name (VObject base) h = Normal direct h1 ->
      chain h1 base ls -> length ls < n ->
      no_override h1 name direct ls ->
      callSuper (Call prog n) n (VObject t) name args h = Normal VUndefined h1).
  { intros prog n h h1 t d base ls name args direct Hk Hs Hd Hg Hc Hlen Hno.
    rewrite (callSuper_walk _ n h h1 t d base ls name args direct) by assumption.
    now rewrite dispatch_target_no_override. }
  split; [exact Hgen|].
  intros prog n h t d base ls name args Hk Hs Hd Hc Hlen Hu.
  apply (Hgen prog n h h t d base ls name args VUndefined); auto.
  - eapply Get_undeclared; eauto. lia.
  - intros pre l1 mid l2 post x1 x2 E H1. subst ls.
    unfold undeclared in Hu. rewrite Forall_app in Hu. destruct Hu as [_ Hu].
    inversion Hu; congruence.
Qed.


(** C1 (the code does not do this).  [callSuper] deletes the marker only
    after the ancestor method has returned: when that method raises, the
    failure reaches the caller unchanged but the marker stays on the
    instance, and the next dispatch on it starts from the stale level:
    here [b.other()] then yields [undefined] instead of "A.other". *)
Theorem callSuper_failure_leaves_marker :
  Failing.invoke 20 Failing.b "action" Failing.initial
  = Abrupt (Thrown (VString "boom")) Failing.after_failure
  /\ own Failing.after_failure Failing.b BaseReference
     = Some (DataProperty (VObject Failing.A_prototype) true true true)
  /\ result_of (Failing.invoke 20 Failing.b "other" Failing.initial)
     = Some (inl (VString "A.other"))
  /\ result_of (Failing.invoke 20 Failing.b "other" Failing.after_failure)
     = Some (inl VUndefined).
Proof. repeat split; vm_compute; reflexivity. Qed.

Ltac chain_levels :=
  repeat first
    [ apply chain_end; [apply Nat.ltb_lt; reflexivity|reflexivity|reflexivity]
    | eapply chain_link; [apply Nat.ltb_lt; reflexivity|reflexivity|reflexivity|] ].

Lemma callSuper_absent_returns_undefined_witness :
  callSuper (Call Levels.prog 20) 20 (VObject Levels.b) "action" [] Levels.initial
  = Normal VUndefined Levels.initial.
Proof.
  apply (proj1 callSuper_absent_returns_undefined Levels.prog 20
           Levels.initial Levels.initial Levels.b 4 Levels.b
           [Levels.b; Levels.B_prototype; Levels.A_prototype; ObjectPrototype]
           "action" [] (VObject Levels.actionA)).
  - reflexivity.
  - apply (starts_at_instance _ _
             [Levels.b; Levels.B_prototype; Levels.A_prototype; ObjectPrototype]).
    + chain_levels.
    + repeat constructor.
  - lia.
  - reflexivity.
  - chain_levels.
  - simpl. lia.
  - apply no_override_of_dispatch. reflexivity.
Defined.


(** ** Preservation of [unique_keys] *)

Lemma NoDup_keys_put p x ps : NoDup (keys ps) -> NoDup (keys (put p x ps)).
Proof.
  intros H. destruct (assoc p ps) eqn:E.
  - rewrite keys_put_in; [assumption|].
    destruct (in_dec string_dec p (keys ps)) as [Hin|Hn]; [assumption|].
    apply assoc_None_keys in Hn. congruence.
  - apply assoc_None_keys in E. rewrite keys_put_fresh by assumption.
    apply NoDup_app. repeat split; auto.
    + intros y Hy Hy'. apply list_elem_of_In in Hy.
      apply list_elem_of_In in Hy'. simpl in Hy'. destruct Hy' as [->|[]].
      contradiction.
    + apply NoDup_singleton.
Qed.

Lemma In_keys_remove p q ps : In q (keys (remove p ps)) -> In q (keys ps).
Proof.
  induction ps as [|[k y] ps IH]; simpl; [tauto|].
  destruct (String.eqb k p); simpl; tauto.
Qed.

Lemma NoDup_keys_remove p ps : NoDup (keys ps) -> NoDup (keys (remove p ps)).
Proof.
  induction ps as [|[k y] ps IH]; simpl; intros H; [assumption|].
  apply NoDup_cons in H. destruct H as [Hk H].
  destruct (String.eqb k p); simpl; [auto|].
  apply NoDup_cons. split; [|auto].
  intros Hin. apply Hk. apply list_elem_of_In. apply list_elem_of_In in Hin.
  eapply In_keys_remove; eauto.
Qed.

Lemma unique_keys_put_own l p x h : unique_keys h -> unique_keys (put_own l p x h).
Proof.
  unfold unique_keys, put_own. intros H. apply Forall_alter; [assumption|].
  intros o _ Ho. simpl. now apply NoDup_keys_put.
Qed.

Lemma unique_keys_remove_own l p h : unique_keys h -> unique_keys (remove_own l p h).
Proof.
  unfold unique_keys, remove_own. intros H. apply Forall_alter; [assumption|].
  intros o _ Ho. simpl. now apply NoDup_keys_remove.
Qed.

Lemma unique_keys_new h o :
  unique_keys h -> NoDup (keys (props o)) -> unique_keys (h ++ [o]).
Proof. intros H Ho. apply Forall_app. split; [assumption|]. now constructor. Qed.

Lemma unique_keys_count h l p : unique_keys h -> count_key p (props (obj h l)) <= 1.
Proof.
  intros H. assert (Hn : NoDup (keys (props (obj h l)))).
  { unfold obj. destruct (h !! l) as [o|] eqn:E; simpl.
    - eapply Forall_lookup_1 in H; eauto.
    - constructor. }
  revert Hn. generalize (props (obj h l)). clear. unfold count_key.
  induction l as [|[k y] ps IH]; simpl; intros Hn; [lia|].
  apply NoDup_cons in Hn. destruct Hn as [Hk Hn].
  destruct (String.eqb_spec k p) as [->|Hne]; simpl; [|auto].
  assert (E : List.filter (fun kv : string * Property => String.eqb (fst kv) p) ps = []).
  { clear IH Hn. induction ps as [|[k' y'] ps IH]; simpl; [reflexivity|].
    destruct (String.eqb_spec k' p) as [->|Hne].
    - exfalso. apply Hk. simpl. left.
    - apply IH. intros Hin. apply Hk. simpl. now right. }
  rewrite E. simpl. lia.
Qed.

Create HintDb pres.

Lemma preserves_ret {A} (a : A) : preserves unique_keys (ret a).
Proof. intros h Hh. exact Hh. Qed.

Lemma preserves_throw {A} e : preserves unique_keys (@throw A e).
Proof. intros h Hh. exact Hh. Qed.

Lemma preserves_gets {A} (f : heap -> A) : preserves unique_keys (gets f).
Proof. intros h Hh. exact Hh. Qed.

Lemma preserves_bind {A B} (m : M A) (k : A -> M B) :
  preserves unique_keys m -> (forall a, preserves unique_keys (k a)) ->
  preserves unique_keys (bind m k).
Proof.
  intros Hm Hk h Hh. unfold bind. specialize (Hm h Hh).
  destruct (m h) as [a h'|e h'|]; auto. now apply Hk.
Qed.

Lemma preserves_put_own l p x : preserves unique_keys (modify (put_own l p x)).
Proof. intros h Hh. now apply unique_keys_put_own. Qed.

Lemma preserves_remove_own l p : preserves unique_keys (modify (remove_own l p)).
Proof. intros h Hh. now apply unique_keys_remove_own. Qed.

Lemma preserves_new_object o :
  NoDup (keys (props o)) -> preserves unique_keys (new_object o).
Proof. intros Ho h Hh. now apply unique_keys_new. Qed.

Lemma preserves_resolve n l : preserves unique_keys (resolve n l).
Proof. intros h Hh. unfold resolve. now destruct (target_of n h l). Qed.

#[export] Hint Resolve preserves_ret preserves_throw preserves_gets preserves_put_own
  preserves_remove_own preserves_resolve : pres.

(** Follows the structure of a monadic term. *)
Ltac pres :=
  repeat (intros;
    match goal with
    | |- preserves _ (bind _ _) => apply preserves_bind
    | |- preserves _ (ret _) => apply preserves_ret
    | |- preserves _ (throw _) => apply preserves_throw
    | |- preserves _ (gets _) => apply preserves_gets
    | |- preserves _ (new_object _) =>
        apply preserves_new_object; simpl; repeat constructor
    | |- preserves _ (match ?x with _ => _ end) => destruct x
    | |- preserves _ _ => solve [eauto with pres]
    end).

Section Preservation.

Variable Call : value -> value -> list value -> M value.
Hypothesis Call_preserves :
  forall f this args, preserves unique_keys (Call f this args).

Lemma preserves_GetOwnProperty n l p : preserves unique_keys (GetOwnProperty n l p).
Proof. unfold GetOwnProperty. pres. Qed.

Lemma preserves_GetPrototypeOf n l : preserves unique_keys (GetPrototypeOf n l).
Proof. unfold GetPrototypeOf. pres. Qed.

Lemma preserves_HasProperty n l p : preserves unique_keys (HasProperty n l p).
Proof.
  revert l. induction n as [|n IH]; intros l h Hh; simpl; [trivial|].
  destruct (kind (obj h l)); try (now apply IH);
    destruct (assoc p (props (obj h l))); try assumption;
    destruct (proto (obj h l)); try assumption; now apply IH.
Qed.

Lemma preserves_Delete n l p : preserves unique_keys (Delete n l p).
Proof. unfold Delete. pres. Qed.

Lemma preserves_IsCallable n v : preserves unique_keys (IsCallable n v).
Proof. unfold IsCallable. pres. Qed.

Lemma preserves_IsConstructor n v : preserves unique_keys (IsConstructor n v).
Proof. unfold IsConstructor. pres. Qed.

Lemma preserves_DefineOwnProperty n l p d :
  preserves unique_keys (DefineOwnProperty n l p d).
Proof. unfold DefineOwnProperty. pres. Qed.

Lemma preserves_for_in n o : preserves unique_keys (for_in n o).
Proof.
  unfold for_in. destruct o; pres.
  intros h Hh. now destruct (for_in_keys n h l []).
Qed.

#[local] Hint Resolve preserves_GetOwnProperty preserves_GetPrototypeOf
  preserves_HasProperty preserves_Delete preserves_IsCallable
  preserves_IsConstructor preserves_DefineOwnProperty preserves_for_in : pres.

Lemma preserves_proxy_get n t p : preserves unique_keys (proxy_get n t p).
Proof. unfold proxy_get. pres. Qed.

#[local] Hint Resolve preserves_proxy_get : pres.

Lemma preserves_Get n l p r : preserves unique_keys (Get Call n l p r).
Proof.
  revert l. induction n as [|n IH]; intros l h Hh; simpl; [trivial|].
  destruct (kind (obj h l)); try (now apply preserves_proxy_get);
    (destruct (assoc p (props (obj h l))) as [[? ? ? ?|g ? ? ?]|];
     [assumption
     |destruct (is_undefined g); [assumption|now apply Call_preserves]
     |destruct (proto (obj h l)); [now apply IH|assumption]]).
Qed.

#[local] Hint Resolve preserves_Get : pres.

Lemma preserves_GetV n o p : preserves unique_keys (GetV Call n o p).
Proof. unfold GetV. pres. Qed.

Lemma preserves_set_on_receiver n r p v :
  preserves unique_keys (set_on_receiver n r p v).
Proof. unfold set_on_receiver. pres. Qed.

#[local] Hint Resolve preserves_GetV preserves_set_on_receiver : pres.

Lemma preserves_SetProp n l p v r : preserves unique_keys (SetProp Call n l p v r).
Proof.
  revert l. induction n as [|n IH]; intros l h Hh; simpl; [trivial|].
  destruct (kind (obj h l)); try (now apply IH);
    (destruct (assoc p (props (obj h l))) as [[? w ? ?|? s ? ?]|];
     [destruct w; [now apply preserves_set_on_receiver|assumption]
     |destruct (is_undefined s); [assumption|]
     |destruct (proto (obj h l));
      [now apply IH|now apply preserves_set_on_receiver]]);
    (apply (preserves_bind (Call s r [v]) (fun _ => ret true)); auto with pres).
Qed.

#[local] Hint Resolve preserves_SetProp : pres.

Lemma preserves_assign n o p v : preserves unique_keys (assign Call n o p v).
Proof. unfold assign. pres. Qed.

Lemma preserves_delete_property n o p : preserves unique_keys (delete_property n o p).
Proof. unfold delete_property. pres. Qed.

Lemma preserves_has_in n p o : preserves unique_keys (has_in n p o).
Proof. unfold has_in. pres. Qed.

Lemma preserves_getOwnPropertyDescriptor n o p :
  preserves unique_keys (getOwnPropertyDescriptor n o p).
Proof. unfold getOwnPropertyDescriptor. pres. Qed.

Lemma preserves_getPrototypeOf n o : preserves unique_keys (getPrototypeOf n o).
Proof. unfold getPrototypeOf. pres. Qed.

Lemma preserves_hasOwnProperty n o p : preserves unique_keys (hasOwnProperty n o p).
Proof. unfold hasOwnProperty. pres. Qed.

#[local] Hint Resolve preserves_assign preserves_delete_property preserves_has_in
  preserves_getOwnPropertyDescriptor preserves_getPrototypeOf
  preserves_hasOwnProperty : pres.

Lemma preserves_callSuper_loop k n target name args direct base isSuper :
  preserves unique_keys
    (callSuper_loop Call k n target name args direct base isSuper).
Proof.
  revert base isSuper. induction k as [|k IH]; intros base isSuper; simpl.
  - intros h Hh. exact I.
  - pres.
Qed.

#[local] Hint Resolve preserves_callSuper_loop : pres.

Lemma preserves_callSuper n target name args :
  preserves unique_keys (callSuper Call n target name args).
Proof. unfold callSuper. pres. Qed.

Lemma preserves_super n this : preserves unique_keys (super Call n this).
Proof. unfold super. pres. Qed.

Lemma preserves_isMarkedPropertyDescriptor n v :
  preserves unique_keys (isMarkedPropertyDescriptor n v).
Proof. unfold isMarkedPropertyDescriptor. pres. Qed.

Lemma preserves_property n d : preserves unique_keys (property Call n d).
Proof. unfold property. pres. Qed.

#[local] Hint Resolve preserves_callSuper preserves_super
  preserves_isMarkedPropertyDescriptor preserves_property : pres.

Lemma preserves_field n o name : preserves unique_keys (field Call n o name).
Proof. unfold field. pres. Qed.

#[local] Hint Resolve preserves_field : pres.

Lemma preserves_function_field n o name :
  preserves unique_keys (function_field Call n o name).
Proof. unfold function_field. pres. Qed.

#[local] Hint Resolve preserves_function_field : pres.

Lemma preserves_ToPropertyDescriptor n a :
  preserves unique_keys (ToPropertyDescriptor Call n a).
Proof. unfold ToPropertyDescriptor. pres. Qed.

#[local] Hint Resolve preserves_ToPropertyDescriptor : pres.

Lemma preserves_defineProperty n O p a :
  preserves unique_keys (defineProperty Call n O p a).
Proof. unfold defineProperty. pres. Qed.

#[local] Hint Resolve preserves_defineProperty : pres.

Lemma preserves_enhance_loop n c m ks :
  preserves unique_keys (enhance_loop Call n c m ks).
Proof. induction ks as [|k ks IH]; simpl; pres. Qed.

#[local] Hint Resolve preserves_enhance_loop : pres.

Lemma preserves_enhance n c m : preserves unique_keys (enhance Call n c m).
Proof. unfold enhance. pres. Qed.

Lemma preserves_ObjectCreate n p : preserves unique_keys (ObjectCreate n p).
Proof. unfold ObjectCreate. pres. Qed.

Lemma preserves_extend_loop n c m ks :
  preserves unique_keys (extend_loop Call n c m ks).
Proof. induction ks as [|k ks IH]; simpl; pres. Qed.

Lemma preserves_new_function c : preserves unique_keys (new_function c).
Proof.
  intros h Hh. unfold new_function. apply Forall_app. split; [assumption|].
  repeat constructor; simpl; intros Hin; inversion Hin.
Qed.

#[local] Hint Resolve preserves_enhance preserves_ObjectCreate preserves_extend_loop
  preserves_new_function : pres.

Lemma preserves_extend n b d : preserves unique_keys (extend Call n b d).
Proof. unfold extend. pres. Qed.

Lemma preserves_elements n o i count :
  preserves unique_keys (elements Call n o i count).
Proof. revert i. induction count as [|c IH]; intros i; simpl; pres. Qed.

#[local] Hint Resolve preserves_extend preserves_elements : pres.

Lemma preserves_CreateListFromArrayLike n a :
  preserves unique_keys (CreateListFromArrayLike Call n a).
Proof. unfold CreateListFromArrayLike. pres. Qed.

Lemma preserves_Construct n F args nt :
  preserves unique_keys (Construct Call n F args nt).
Proof. unfold Construct. pres. Qed.

#[local] Hint Resolve preserves_CreateListFromArrayLike preserves_Construct : pres.

Lemma preserves_Reflect_construct n F a nt :
  preserves unique_keys (Reflect_construct Call n F a nt).
Proof. unfold Reflect_construct. pres. Qed.

Lemma preserves_assign_loop n to s ks :
  preserves unique_keys (assign_loop Call n to s ks).
Proof. induction ks as [|k ks IH]; simpl; pres. Qed.

#[local] Hint Resolve preserves_Reflect_construct preserves_assign_loop : pres.

Lemma preserves_Object_assign n to s : preserves unique_keys (Object_assign Call n to s).
Proof. unfold Object_assign. pres. Qed.

#[local] Hint Resolve preserves_Object_assign : pres.

Lemma preserves_derivedClass_body n dc b d args :
  preserves unique_keys (derivedClass_body Call n dc b d args).
Proof. unfold derivedClass_body. pres. Qed.

End Preservation.

(** Every function object keeps [unique_keys] when the user functions do. *)
Lemma Call_preserves_unique_keys prog :
  program_preserves unique_keys prog ->
  forall n f this args, preserves unique_keys (Call prog n f this args).
Proof.
  intros Hprog. induction n as [|n IH]; intros f this args; simpl.
  - intros h Hh. exact I.
  - destruct f; try apply preserves_throw.
    intros h Hh. destruct (target_of n h l) as [t|]; [|exact I].
    destruct (kind (obj h t)) as [|[id|b d|target name] ctor|]; try exact Hh.
    + apply Hprog; [|assumption].
      repeat split; intros.
      * apply IH.
      * now apply preserves_Reflect_construct.
      * now apply preserves_GetV.
      * now apply preserves_assign.
      * apply preserves_delete_property.
      * now apply preserves_defineProperty.
      * now apply preserves_callSuper.
      * now apply preserves_super.
      * now apply preserves_property.
      * now apply preserves_enhance.
      * now apply preserves_extend.
    + now apply preserves_derivedClass_body.
    + now apply preserves_callSuper.
Qed.

Lemma Levels_prog_preserves : program_preserves unique_keys Levels.prog.
Proof.
  intros id rt this args (Hcall & Hnew & Hget & Hset & Hdel & Hdef & Hcs & Hsuper & Hrest).
  destruct id as [|[|[|[|id]]]]; simpl; unfold Levels.chained; pres.
Qed.

(** C5.  Every operation of the library, and hence every function object,
    keeps each object's keys distinct, on normal and on abrupt completion
    alike, as long as the user's functions do; so at each step of nested
    dispatches an instance carries at most one [$BaseReference].  In the
    chain [A], [B extends A], [C extends B], where each [action] first calls
    the ancestor's, [action] on an instance of [C] returns "ABC" and the
    instance carries no marker afterwards. *)
Theorem dispatch_keeps_one_marker :
  (forall prog n target name args h,
      program_preserves unique_keys prog -> unique_keys h ->
      forall h' l,
        heap_of (callSuper (Call prog n) n target name args h) = Some h' ->
        unique_keys h' /\ count_key BaseReference (props (obj h' l)) <= 1)
  /\
  (result_of (Levels.invoke_action 20 Levels.c Prepared.levels)
   = Some (inl (VString "ABC"))
   /\ forall h', heap_of (Levels.invoke_action 20 Levels.c Prepared.levels) = Some h' ->
        own h' Levels.c BaseReference = None).
Proof.
  split.
  - intros prog n target name args h Hprog Hh h' l Hheap.
    assert (Hu : unique_keys h').
    { pose proof (preserves_callSuper (Call prog n)
                    (Call_preserves_unique_keys prog Hprog n) n target name args h Hh)
        as Hp.
      destruct (callSuper (Call prog n) n target name args h);
        simpl in Hheap; congruence. }
    split; [assumption|]. now apply unique_keys_count.
  - split; [vm_compute; reflexivity|].
    intros h' Hheap. vm_compute in Hheap. injection Hheap as <-. reflexivity.
Qed.

Lemma dispatch_keeps_one_marker_witness :
  unique_keys
    (default [] (heap_of (callSuper (Call Levels.prog 20) 20 (VObject Levels.c)
                            "action" [] Prepared.levels)))
  /\ count_key BaseReference
       (props (obj (default [] (heap_of (callSuper (Call Levels.prog 20) 20
                                           (VObject Levels.c) "action" []
                                           Prepared.levels)))
                   Levels.c)) <= 1.
Proof.
  apply (proj1 dispatch_keeps_one_marker Levels.prog 20 (VObject Levels.c)
           "action" [] Prepared.levels).
  - exact Levels_prog_preserves.
  - unfold unique_keys. repeat constructor; simpl; intros Hin; inversion Hin;
      subst; try discriminate;
      repeat match goal with
             | H : _ ∈ _ |- _ => inversion H; clear H; subst; try discriminate
             end.
  - vm_compute. reflexivity.
Defined.

(** ** Allocation leaves the existing objects as they are *)

Lemma own_app_old (h hs : heap) l p : l < length h -> own (h ++ hs) l p = own h l p.
Proof. intros Hl. unfold own. now rewrite obj_app_old. Qed.

Lemma chain_levels_valid h l ls : chain h l ls -> Forall (fun x => x < length h) ls.
Proof. induction 1; repeat constructor; auto. Qed.

Lemma chain_app_heap h hs l ls : chain h l ls -> chain (h ++ hs) l ls.
Proof.
  induction 1 as [l Hv Hk Hp|l q ls Hv Hk Hp Hq IH];
    [apply chain_end|eapply chain_link];
    rewrite ?obj_app_old by assumption; eauto; rewrite length_app; lia.
Qed.


(** ** [$super] and its wrapper *)

Section WrapperFacts.

Variable Call : value -> value -> list value -> M value.



Lemma wrapper_get n h w x p :
  obj h w = wrapper x -> x < length h -> is_proxy (obj h x) = false ->
  locked (own h x p) = false ->
  GetV Call (S (S n)) (VObject w) p h
  = Normal (VObject (length h)) (h ++ [arrow x p]).
Proof.
  intros Hw Hx Hk Hl. unfold GetV. simpl Get. rewrite Hw. simpl kind.
  unfold proxy_get, bind, new_object.
  rewrite GetOwnProperty_ordinary by (now rewrite obj_app_old).
  rewrite own_app_old by assumption.
  destruct (own h x p) as [[v wr e c|g s e c]|];
    [destruct wr, c|destruct g, c|]; try reflexivity; discriminate.
Qed.

Lemma wrapper_get_locked n h w x p :
  obj h w = wrapper x -> x < length h -> is_proxy (obj h x) = false ->
  locked (own h x p) = true ->
  (forall v wr e c, own h x p = Some (DataProperty v wr e c) ->
                    v <> VObject (length h)) ->
  GetV Call (S (S n)) (VObject w) p h = Abrupt TypeError (h ++ [arrow x p]).
Proof.
  intros Hw Hx Hk Hl Hv. unfold GetV. simpl Get. rewrite Hw. simpl kind.
  unfold proxy_get, bind, new_object.
  rewrite GetOwnProperty_ordinary by (now rewrite obj_app_old).
  rewrite own_app_old by assumption.
  destruct (own h x p) as [[v wr e c|g s e c]|];
    [destruct wr, c|destruct g, c|]; try discriminate; try reflexivity.
  specialize (Hv v false e false eq_refl).
  destruct (strict_equal (VObject (length h)) v) eqn:E; [|reflexivity].
  apply strict_equal_true in E. congruence.
Qed.

End WrapperFacts.

Lemma Call_step prog n l t this args h :
  target_of n h l = Some t ->
  Call prog (S n) (VObject l) this args h =
  match kind (obj h t) with
  | Callable (UserFunction id) _ =>
      prog id
        (mkRuntime (Call prog n)
           (fun F args' => Reflect_construct (Call prog n) n F (inl args') F)
           (GetV (Call prog n) n) (assign (Call prog n) n) (delete_property n)
           (defineProperty (Call prog n) n)
           (callSuper (Call prog n) n) (super (Call prog n) n)
           (property (Call prog n) n)
           (enhance (Call prog n) n) (extend (Call prog n) n))
        this args h
  | Callable (DerivedClass baseClass classDescriptor) _ =>
      derivedClass_body (Call prog n) n (VObject t) baseClass classDescriptor args h
  | Callable (SuperMethod target name) _ =>
      callSuper (Call prog n) n target name args h
  | _ => Abrupt TypeError h
  end.
Proof. intros Ht. simpl. now rewrite Ht. Qed.

Lemma arrow_call prog n h f x p this args :
  obj h f = arrow x p ->
  Call prog (S (S n)) (VObject f) this args h
  = callSuper (Call prog (S n)) (S n) (VObject x) p args h.
Proof.
  intros Hf. rewrite (Call_step prog (S n) f f).
  - now rewrite Hf.
  - apply target_of_ordinary. unfold is_proxy. now rewrite Hf.
Qed.


(** C9, as the code has it.  Reading any property name [p] on the wrapper of
    [x] creates a new function -- an object the heap did not hold, so never
    the instance's own value of [p] -- and calling it is [callSuper] on [x],
    [p] and the arguments; except that the read raises [TypeError] when [x]
    itself holds [p] as a non-configurable property that is a read-only data
    property or an accessor without getter. *)
Theorem wrapper_read_yields_dispatcher :
  forall prog n h w x p,
    obj h w = wrapper x -> x < length h -> is_proxy (obj h x) = false -> 1 < n ->
    (locked (own h x p) = false ->
       GetV (Call prog n) n (VObject w) p h
       = Normal (VObject (length h)) (h ++ [arrow x p])
       /\ h !! length h = None
       /\ forall this args,
            Call prog (S n) (VObject (length h)) this args (h ++ [arrow x p])
            = callSuper (Call prog n) n (VObject x) p args (h ++ [arrow x p]))
    /\ (locked (own h x p) = true ->
        (forall v wr e c, own h x p = Some (DataProperty v wr e c) ->
                          v <> VObject (length h)) ->
        GetV (Call prog n) n (VObject w) p h = Abrupt TypeError (h ++ [arrow x p])).
Proof.
  intros prog n h w x p Hw Hx Hk Hn.
  destruct n as [|[|m]]; try lia. split.
  - intros Hl. split; [now apply wrapper_get|].
    split; [apply lookup_ge_None_2; lia|].
    intros this args. apply arrow_call. apply obj_app_new.
  - intros Hl Hv. now apply wrapper_get_locked.
Qed.

(** C9 as stated fails: [$super(x).id] raises [TypeError] when [x] holds
    [id] as a read-only, non-configurable own field. *)
Lemma wrapper_read_of_locked_field_raises :
  result_of (Sealed.read_id 20 Sealed.initial) = Some (inr TypeError).
Proof. vm_compute. reflexivity. Qed.


Lemma wrapper_read_yields_dispatcher_witness :
  GetV (Call Levels.prog 20) 20 (VObject Wrapped.w) "action" Wrapped.levels
  = Normal (VObject 16) (Wrapped.levels ++ [arrow Levels.c "action"]).
Proof.
  apply (wrapper_read_yields_dispatcher Levels.prog 20 Wrapped.levels
           Wrapped.w Levels.c "action").
  - reflexivity.
  - apply Nat.ltb_lt. reflexivity.
  - reflexivity.
  - lia.
  - reflexivity.
Defined.

(** ** Accepted assignments *)

Lemma same_except_refl t h : same_except t h h.
Proof. repeat split; auto. Qed.

Lemma same_except_trans t h1 h2 h3 :
  same_except t h1 h2 -> same_except t h2 h3 -> same_except t h1 h3.
Proof.
  intros (L1 & O1 & P1 & K1) (L2 & O2 & P2 & K2). repeat split; try congruence.
  intros l Hl. rewrite O2, O1; auto.
Qed.

Lemma same_except_put_own t p x h : same_except t h (put_own t p x h).
Proof.
  unfold put_own. repeat split.
  - apply length_alter.
  - intros l Hl. apply obj_alter_other. congruence.
  - apply (proto_put_own h t p x t).
  - pose proof (is_proxy_put_own h t p x t) as _.
    destruct (Nat.lt_ge_cases t (length h)) as [Hl|Hl].
    + now rewrite obj_alter_same.
    + unfold obj. rewrite list_lookup_alter_eq.
      rewrite (lookup_ge_None_2 h t) by lia. reflexivity.
Qed.

Lemma same_except_install t p v h : same_except t h (install t p v h).
Proof. apply same_except_put_own. Qed.

Lemma same_except_is_proxy t h h' l :
  same_except t h h' -> is_proxy (obj h' l) = is_proxy (obj h l).
Proof.
  intros (_ & O & _ & K). unfold is_proxy.
  destruct (Nat.eq_dec l t) as [->|Hne]; [now rewrite K|now rewrite O].
Qed.

Lemma same_except_proto t h h' l :
  same_except t h h' -> proto (obj h' l) = proto (obj h l).
Proof.
  intros (_ & O & P & _).
  destruct (Nat.eq_dec l t) as [->|Hne]; [assumption|now rewrite O].
Qed.

Lemma same_except_own t h h' l p :
  same_except t h h' -> l <> t -> own h' l p = own h l p.
Proof. intros (_ & O & _) Hne. unfold own. now rewrite O. Qed.

Lemma same_except_chain t h h' l ls :
  same_except t h h' -> chain h l ls -> chain h' l ls.
Proof.
  intros Hs. induction 1 as [l Hv Hk Hp|l q ls Hv Hk Hp Hq IH];
    [apply chain_end|eapply chain_link];
    rewrite ?(same_except_is_proxy t h h'), ?(same_except_proto t h h');
    eauto; destruct Hs as (L & _); lia.
Qed.

Lemma nearest_install t p q v h ls :
  p <> q -> nearest (install t p v h) q ls = nearest h q ls.
Proof.
  intros Hne. induction ls as [|l ls IH]; simpl; [reflexivity|].
  rewrite IH. unfold install.
  destruct (Nat.eq_dec t l) as [->|Hl].
  - now rewrite own_put_own_other_key.
  - now rewrite own_put_own_other_loc.
Qed.

Lemma accepts_write_written v d : accepts_write d = true ->
  accepts_write (Some (written v d)) = true.
Proof. destruct d as [[? [|] ? ?|? ? ? ?]|]; simpl; congruence. Qed.

(** An accepted assignment keeps every name of the chain assignable. *)
Lemma accepts_write_install t p q v h ls :
  chain h t ls -> accepts_write (nearest h p ls) = true ->
  accepts_write (nearest h q ls) = true ->
  accepts_write (nearest (install t p v h) q ls) = true.
Proof.
  intros Hc Hp Hq. destruct (String.eqb_spec p q) as [<-|Hne].
  - destruct (chain_head _ _ _ Hc) as [ls' ->]. simpl in *.
    unfold install at 1. rewrite own_put_own_same by (inversion Hc; assumption).
    destruct (own h t p) as [x|] eqn:E.
    + now apply accepts_write_written.
    + reflexivity.
  - now rewrite nearest_install.
Qed.

Section AssignFacts.

Variable Call : value -> value -> list value -> M value.

Lemma SetProp_accepts n h t l ls p v :
  chain h l ls -> accepts_write (nearest h p ls) = true ->
  is_proxy (obj h t) = false -> accepts_write (own h t p) = true ->
  length ls < n ->
  SetProp Call n l p v (VObject t) h = Normal true (install t p v h).
Proof.
  intros Hc. revert n.
  assert (Hrecv : forall n, is_proxy (obj h t) = false ->
            accepts_write (own h t p) = true ->
            set_on_receiver (S n) (VObject t) p v h = Normal true (install t p v h)).
  { intros n Hk Ha. unfold install.
    destruct (own h t p) as [[v0 w e c|g s e c]|] eqn:E; simpl in Ha;
      try discriminate.
    - subst w. now apply set_on_receiver_writable with v0.
    - now apply set_on_receiver_fresh. }
  induction Hc as [l Hv Hk Hp|l q ls Hv Hk Hp Hq IH]; intros n Hn Ht Ha Hlen;
    simpl in Hlen; (destruct n as [|n]; [lia|]);
    rewrite SetProp_step by assumption; simpl in Hn;
    destruct (own h l p) as [[v0 w e c|g s e c]|] eqn:E; simpl in Hn;
    try discriminate; try subst w; rewrite ?Hp;
    try (destruct n as [|n]; [lia|]; now apply Hrecv).
  apply IH; auto. lia.
Qed.

Lemma assign_accepts n h t ls p v :
  chain h t ls -> accepts_write (nearest h p ls) = true -> length ls < n ->
  assign Call n (VObject t) p v h = Normal tt (install t p v h).
Proof.
  intros Hc Ha Hn. unfold assign, bind.
  erewrite SetProp_accepts; eauto.
  - eapply chain_not_proxy; eauto.
  - destruct (chain_head _ _ _ Hc) as [ls' ->]. simpl in Ha.
    destruct (own h t p); [assumption|reflexivity].
Qed.

(** A refused assignment: the nearest declaration is a read-only data
    property. *)
Lemma assign_read_only n h t pre x post p v0 e c v :
  chain h t (pre ++ x :: post) -> undeclared h p pre ->
  own h x p = Some (DataProperty v0 false e c) -> length pre < n ->
  assign Call n (VObject t) p v h = Abrupt TypeError h.
Proof.
  intros Hc Hu Hx Hn. unfold assign, bind.
  assert (E : forall r, SetProp Call n t p v r h = Normal false h).
  { intros r. revert t n Hc Hn Hu.
    induction pre as [|a pre IH]; simpl; intros t n Hc Hn Hu;
      (destruct n as [|n]; [lia|]);
      rewrite SetProp_step by (eapply chain_not_proxy; eauto).
    - destruct (chain_head _ _ _ Hc) as [ls' E]. injection E as -> _.
      now rewrite Hx.
    - inversion Hu as [|? ? Ha Hrest]; subst.
      inversion Hc as [? Hv Hk Hp|? q ls Hv Hk Hp Hq]; subst.
      + destruct pre; discriminate.
      + rewrite Ha, Hp. apply IH; auto. lia. }
  now rewrite E.
Qed.

End AssignFacts.

(** ** Sequences of accepted assignments *)

Lemma same_except_installs h0 s t ks h : same_except t h (installs h0 s t ks h).
Proof.
  revert h. induction ks as [|k ks IH]; intros h; simpl.
  - apply same_except_refl.
  - destruct (enumerable_field h0 s k).
    + eapply same_except_trans; [apply same_except_install|apply IH].
    + apply IH.
Qed.

Lemma own_install_same t p v h :
  t < length h -> exists w e c, own (install t p v h) t p = Some (DataProperty v w e c).
Proof.
  intros Ht. unfold install. rewrite own_put_own_same by assumption.
  destruct (own h t p) as [[v0 w e c|g s e c]|]; simpl; eauto.
Qed.

Lemma own_install_other t p q v h : p <> q -> own (install t p v h) t q = own h t q.
Proof. intros Hne. unfold install. now apply own_put_own_other_key. Qed.

Lemma own_installs_untouched h0 s t ks h k :
  (~ In k ks \/ enumerable_field h0 s k = None) ->
  own (installs h0 s t ks h) t k = own h t k.
Proof.
  revert h. induction ks as [|a ks IH]; intros h Hk; simpl; [reflexivity|].
  assert (Hk' : ~ In k ks \/ enumerable_field h0 s k = None)
    by (destruct Hk as [Hk|Hk]; [left; intros Hin; apply Hk; now right|now right]).
  destruct (enumerable_field h0 s a) as [v|] eqn:E; rewrite IH by assumption;
    [|reflexivity].
  apply own_install_other. intros ->. destruct Hk as [Hk|Hk].
  - apply Hk. now left.
  - congruence.
Qed.



Section LoopFacts.

Variable Call : value -> value -> list value -> M value.


End LoopFacts.

(** ** Construction *)

Section ConstructFacts.

Variable Call : value -> value -> list value -> M value.

Lemma IsConstructor_ordinary n h l c b :
  is_proxy (obj h l) = false -> kind (obj h l) = Callable c b ->
  IsConstructor (S n) (VObject l) h = Normal b h.
Proof.
  intros Hk Hc. unfold IsConstructor, bind, gets.
  rewrite resolve_ordinary by assumption. now rewrite Hc.
Qed.

Lemma GetV_own_data n h l p v w e c :
  is_proxy (obj h l) = false -> own h l p = Some (DataProperty v w e c) ->
  GetV Call (S n) (VObject l) p h = Normal v h.
Proof. intros Hk Ho. unfold GetV. rewrite Get_step by assumption. now rewrite Ho. Qed.


End ConstructFacts.

(** [new dc(...A)] runs the body of [derivedClass] on a receiver it then
    discards. *)
Lemma New_derived prog n h dc B D A P0 w e c :
  is_proxy (obj h dc) = false -> kind (obj h dc) = Callable (DerivedClass B D) true ->
  own h dc "prototype" = Some (DataProperty (VObject P0) w e c) ->
  New prog (S (S n)) (VObject dc) A h =
  match derivedClass_body (Call prog (S n)) (S n) (VObject dc) B D A
          (h ++ [mkObject (Some P0) [] Ordinary]) with
  | Normal r h' => Normal (match r with VObject _ => r | _ => VObject (length h) end) h'
  | Abrupt e h' => Abrupt e h'
  | OutOfFuel => OutOfFuel
  end.
Proof.
  intros Hk Hc Ho. unfold New, Reflect_construct. unfold bind at 1.
  rewrite (IsConstructor_ordinary _ h dc _ true Hk Hc). cbn [negb].
  unfold bind at 1. rewrite (IsConstructor_ordinary _ h dc _ true Hk Hc).
  cbn [negb]. unfold bind at 1. unfold ret at 1. unfold Construct.
  unfold bind at 1. rewrite (GetV_own_data _ _ h dc _ _ _ _ _ Hk Ho).
  unfold bind at 1. unfold new_object at 1. unfold bind.
  rewrite (Call_step prog (S n) dc dc).
  - rewrite obj_app_old by (apply lookup_lt_is_Some; unfold obj in Hc;
      destruct (h !! dc); [eauto|discriminate]).
    rewrite Hc. reflexivity.
  - apply target_of_ordinary. rewrite obj_app_old; [assumption|].
    apply lookup_lt_is_Some. unfold obj in Hc.
    destruct (h !! dc); [eauto|discriminate].
Qed.

Lemma bind_normal {A B} (m : M A) (k : A -> M B) h a h' :
  m h = Normal a h' -> bind m k h = k a h'.
Proof. unfold bind. now intros ->. Qed.

Lemma bind_abrupt {A B} (m : M A) (k : A -> M B) h e h' :
  m h = Abrupt e h' -> bind m k h = Abrupt e h'.
Proof. unfold bind. now intros ->. Qed.

(** One step of a monadic sequence whose outcome [H] gives. *)
Ltac step H := erewrite bind_normal; [|exact H].
Ltac step_refl := erewrite bind_normal; [|reflexivity].








(** ** Enumeration of a member map *)

Lemma existsb_eqb_In k l : existsb (String.eqb k) l = true <-> In k l.
Proof.
  rewrite existsb_exists. split.
  - intros (x & Hin & E). apply String.eqb_eq in E. now subst.
  - intros Hin. exists k. split; [assumption|apply String.eqb_refl].
Qed.

Lemma for_in_keys_fresh n h l visited ks :
  for_in_keys n h l visited = Some ks -> forall k, In k ks -> ~ In k visited.
Proof.
  revert l visited ks. induction n as [|n IH]; intros l visited ks; simpl;
    [discriminate|].
  destruct (target_of n h l) as [t|]; [|discriminate].
  assert (Hfresh : forall k,
    In k (List.filter (fun k => negb (existsb (String.eqb k) visited))
            (map fst (List.filter (fun kv => enumerable (snd kv)) (props (obj h t))))) ->
    ~ In k visited).
  { intros k Hin Hv. apply filter_In in Hin. destruct Hin as [_ Hin].
    apply existsb_eqb_In in Hv. rewrite Hv in Hin. discriminate. }
  destruct (proto (obj h t)) as [q|].
  - destruct (for_in_keys n h q (visited ++ map fst (props (obj h t)))) as [rest|] eqn:E;
      [|discriminate].
    intros [= <-] k Hin. apply in_app_or in Hin. destruct Hin as [Hin|Hin].
    + now apply Hfresh.
    + intros Hv. eapply IH; eauto. apply in_or_app. now left.
  - intros [= <-]. exact Hfresh.
Qed.

Lemma for_in_keys_step n h l visited :
  for_in_keys (S n) h l visited =
  match target_of n h l with
  | None => None
  | Some t =>
      let o := obj h t in
      let fresh :=
        List.filter (fun k => negb (existsb (String.eqb k) visited))
          (map fst (List.filter (fun kv => enumerable (snd kv)) (props o))) in
      match proto o with
      | None => Some fresh
      | Some q =>
          match for_in_keys n h q (visited ++ map fst (props o)) with
          | Some rest => Some (fresh ++ rest)
          | None => None
          end
      end
  end.
Proof. reflexivity. Qed.

Lemma for_in_keys_total n h l ls visited :
  chain h l ls -> length ls < n -> exists ks, for_in_keys n h l visited = Some ks.
Proof.
  intros Hc. revert n visited.
  induction Hc as [l Hv Hk Hp|l q ls Hv Hk Hp Hq IH]; intros n visited Hn;
    simpl in Hn; (destruct n as [|[|n]]; try lia); rewrite for_in_keys_step;
    rewrite target_of_ordinary by assumption; cbv zeta; rewrite Hp.
  - eauto.
  - destruct (IH (S n) (visited ++ map fst (props (obj h l)))) as [rest ->]; [lia|].
    eauto.
Qed.

(** From an object that is not a wrapper the loop meets the enumerable own
    keys, in order, and then only keys the object does not own. *)
Lemma for_in_keys_own n h m ks :
  is_proxy (obj h m) = false -> for_in_keys n h m [] = Some ks ->
  exists rest, ks = own_enumerable_keys h m ++ rest
               /\ forall k, In k rest -> own h m k = None.
Proof.
  intros Hk. destruct n as [|[|n]]; try discriminate. rewrite for_in_keys_step.
  rewrite target_of_ordinary by assumption. cbv zeta.
  assert (E : List.filter (fun k => negb (existsb (String.eqb k) []))
                (map fst (List.filter (fun kv => enumerable (snd kv)) (props (obj h m))))
              = own_enumerable_keys h m).
  { unfold own_enumerable_keys.
    generalize (map fst (List.filter (fun kv : string * Property => enumerable (snd kv))
                           (props (obj h m)))).
    induction l as [|a l IH]; [reflexivity|].
    cbn [List.filter existsb negb]. now f_equal. }
  rewrite E. destruct (proto (obj h m)) as [q|].
  - destruct (for_in_keys (S n) h q ([] ++ map fst (props (obj h m)))) as [rest|] eqn:Er;
      [|discriminate].
    intros [= <-]. exists rest. split; [reflexivity|].
    intros k Hin. apply assoc_None_keys.
    eapply for_in_keys_fresh in Er; eauto.
  - intros [= <-]. exists []. split; [now rewrite app_nil_r|]. intros k [].
Qed.

Lemma NoDup_keys_assoc ps k x :
  NoDup (keys ps) -> In (k, x) ps -> assoc k ps = Some x.
Proof.
  induction ps as [|[a y] ps IH]; simpl; intros Hn Hin; [destruct Hin|].
  apply NoDup_cons in Hn. destruct Hn as [Ha Hn].
  destruct Hin as [[= -> ->]|Hin]; [now rewrite String.eqb_refl|].
  destruct (String.eqb_spec a k) as [->|Hne]; [|auto].
  exfalso. apply Ha. apply list_elem_of_In. unfold keys.
  apply in_map_iff. now exists (k, x).
Qed.

Lemma own_enumerable_keys_field h m k :
  plain_fields h m -> In k (own_enumerable_keys h m) ->
  exists v, enumerable_field h m k = Some v.
Proof.
  intros [Hn Hd] Hin. unfold own_enumerable_keys in Hin.
  apply in_map_iff in Hin. destruct Hin as ([k' x] & <- & Hin).
  apply filter_In in Hin. destruct Hin as [Hin He]. simpl in He.
  unfold enumerable_field, own. cbn [fst].
  rewrite (NoDup_keys_assoc _ _ _ Hn Hin).
  rewrite Forall_forall in Hd.
  specialize (Hd (k', x) (proj2 (list_elem_of_In _ _) Hin)). simpl in Hd.
  destruct x as [v w e c|]; [|discriminate]. simpl in He. subst e. eauto.
Qed.

Lemma enumerable_field_own_enumerable_keys h m k v :
  enumerable_field h m k = Some v -> In k (own_enumerable_keys h m).
Proof.
  unfold enumerable_field, own, own_enumerable_keys.
  generalize (props (obj h m)). induction l as [|[a y] ps IH]; simpl; [discriminate|].
  destruct (String.eqb_spec a k) as [->|Hne].
  - destruct y as [v0 w [|] c|]; try discriminate. intros _. simpl. now left.
  - intros H. destruct (enumerable y); simpl; [right|]; auto.
Qed.

(** ** The installation loops of [enhance] and [extend] *)

Section InstallFacts.

Variable Call : value -> value -> list value -> M value.

Lemma hasOwnProperty_ordinary n h l p :
  is_proxy (obj h l) = false ->
  hasOwnProperty (S n) (VObject l) p h = Normal (present (own h l p)) h.
Proof.
  intros Hk. unfold hasOwnProperty.
  step (GetOwnProperty_ordinary n h l p Hk). reflexivity.
Qed.

(** The marker counts only as an own property of the entry. *)
Lemma isMarkedPropertyDescriptor_object n h e :
  is_proxy (obj h e) = false ->
  isMarkedPropertyDescriptor (S n) (VObject e) h
  = Normal (present (own h e IsPropertyDescriptor)) h.
Proof. apply hasOwnProperty_ordinary. Qed.


Lemma enhance_loop_skip n h C m key keys :
  is_proxy (obj h m) = false -> own h m key = None ->
  enhance_loop Call (S n) C (VObject m) (key :: keys) h
  = enhance_loop Call (S n) C (VObject m) keys h.
Proof.
  intros Hk Ho. cbn [enhance_loop].
  step (hasOwnProperty_ordinary n h m key Hk). now rewrite Ho.
Qed.

Lemma enhance_loop_entry n h C m key keys member w e c :
  is_proxy (obj h m) = false -> own h m key = Some (DataProperty member w e c) ->
  enhance_loop Call (S n) C (VObject m) (key :: keys) h =
  (let* marked := isMarkedPropertyDescriptor (S n) member in
   (if marked then
      let* prototype := GetV Call (S n) C "prototype" in
      defineProperty Call (S n) prototype key member ;; ret tt
    else
      let* prototype := GetV Call (S n) C "prototype" in
      assign Call (S n) prototype key member) ;;
   enhance_loop Call (S n) C (VObject m) keys) h.
Proof.
  intros Hk Ho. cbn [enhance_loop].
  step (hasOwnProperty_ordinary n h m key Hk). rewrite Ho. cbn [present negb].
  step (GetV_own_data Call n h m key member w e c Hk Ho). reflexivity.
Qed.

Lemma extend_loop_skip n h dc D key keys :
  is_proxy (obj h D) = false -> own h D key = None ->
  extend_loop Call (S n) dc (VObject D) (key :: keys) h
  = extend_loop Call (S n) dc (VObject D) keys h.
Proof.
  intros Hk Ho. cbn [extend_loop].
  step (hasOwnProperty_ordinary n h D key Hk). now rewrite Ho.
Qed.

Lemma extend_loop_reserved n h dc D key keys :
  is_proxy (obj h D) = false -> key = "preConstructor" \/ key = "constructor" ->
  extend_loop Call (S n) dc (VObject D) (key :: keys) h
  = extend_loop Call (S n) dc (VObject D) keys h.
Proof.
  intros Hk Hr. cbn [extend_loop].
  step (hasOwnProperty_ordinary n h D key Hk).
  destruct (negb (present (own h D key))); [reflexivity|].
  destruct Hr as [-> | ->]; reflexivity.
Qed.

Lemma extend_loop_entry n h dc D key keys member w e c :
  is_proxy (obj h D) = false -> own h D key = Some (DataProperty member w e c) ->
  key <> "preConstructor" -> key <> "constructor" ->
  extend_loop Call (S n) dc (VObject D) (key :: keys) h =
  (let* marked := isMarkedPropertyDescriptor (S n) member in
   (if marked then
      let* prototype := GetV Call (S n) dc "prototype" in
      defineProperty Call (S n) prototype key member ;; ret tt
    else
      let* prototype := GetV Call (S n) dc "prototype" in
      assign Call (S n) prototype key member) ;;
   extend_loop Call (S n) dc (VObject D) keys) h.
Proof.
  intros Hk Ho Hp Hc. cbn [extend_loop].
  step (hasOwnProperty_ordinary n h D key Hk). rewrite Ho. cbn [present negb].
  apply String.eqb_neq in Hp. apply String.eqb_neq in Hc. rewrite Hp, Hc.
  cbn [orb].
  step (GetV_own_data Call n h D key member w e c Hk Ho). reflexivity.
Qed.

(** A member map of plain values goes onto a prototype that accepts the
    writes. *)
Lemma enhance_loop_installs n h0 c m t ls pw pe pc ks :
  c <> t -> m <> t ->
  is_proxy (obj h0 c) = false ->
  own h0 c "prototype" = Some (DataProperty (VObject t) pw pe pc) ->
  is_proxy (obj h0 m) = false -> plain_fields h0 m ->
  chain h0 t ls -> length ls < n ->
  (forall k, In k ks -> own h0 m k = None \/ enumerable_field h0 m k <> None) ->
  (forall k v, enumerable_field h0 m k = Some v ->
               plain_member h0 t v = true
               /\ accepts_write (nearest h0 k ls) = true) ->
  forall h, same_except t h0 h ->
  (forall k, accepts_write (nearest h0 k ls) = true ->
             accepts_write (nearest h k ls) = true) ->
  enhance_loop Call n (VObject c) (VObject m) ks h = Normal tt (installs h0 m t ks h).
Proof.
  intros Hct Hmt Hkc Hproto Hkm Hplain Hc Hn Hks Hval.
  assert (Hn0 : exists n', n = S n')
    by (destruct n; [destruct ls; simpl in Hn; lia|eauto]).
  destruct Hn0 as [n' ->].
  induction ks as [|k ks IH]; intros h Hsame Hmono; [reflexivity|].
  assert (Hkm' : is_proxy (obj h m) = false)
    by (rewrite (same_except_is_proxy t h0 h); assumption).
  assert (Hom : own h m k = own h0 m k) by (now apply same_except_own with t).
  assert (IH' : forall h', same_except t h0 h' ->
            (forall q, accepts_write (nearest h0 q ls) = true ->
                       accepts_write (nearest h' q ls) = true) ->
            enhance_loop Call (S n') (VObject c) (VObject m) ks h'
            = Normal tt (installs h0 m t ks h')).
  { apply IH. intros q Hq. apply Hks. now right. }
  cbn [installs]. destruct (Hks k (or_introl eq_refl)) as [Hnone|Hsome].
  - rewrite enhance_loop_skip by congruence.
    unfold enumerable_field. rewrite Hnone. now apply IH'.
  - destruct (enumerable_field h0 m k) as [v|] eqn:Ef; [|congruence].
    destruct (Hval k v Ef) as [Hpm Hacc].
    unfold enumerable_field in Ef.
    destruct (own h0 m k) as [[v' w [|] cf|]|] eqn:Eo; try discriminate.
    injection Ef as ->.
    rewrite (enhance_loop_entry n' h (VObject c) m k ks v w true cf)
      by congruence.
    assert (Hmark : isMarkedPropertyDescriptor (S n') v h = Normal false h).
    { destruct v; cbn [plain_member] in Hpm; try discriminate; try reflexivity.
      apply andb_true_iff in Hpm. destruct Hpm as [Hpm Hlt].
      apply andb_true_iff in Hpm. destruct Hpm as [Hke Hoe].
      apply negb_true_iff in Hlt. apply Nat.eqb_neq in Hlt.
      rewrite isMarkedPropertyDescriptor_object
        by (rewrite (same_except_is_proxy t h0 h); auto;
            now destruct (is_proxy (obj h0 l))).
      rewrite (same_except_own t h0 h l _ Hsame Hlt).
      now destruct (present (own h0 l IsPropertyDescriptor)). }
    step Hmark.
    assert (Hinstall :
      (let* prototype := GetV Call (S n') (VObject c) "prototype" in
       assign Call (S n') prototype k v) h = Normal tt (install t k v h)).
    { assert (Hget : GetV Call (S n') (VObject c) "prototype" h
                     = Normal (VObject t) h).
      { apply GetV_own_data with pw pe pc.
        - rewrite (same_except_is_proxy t h0 h); assumption.
        - rewrite (same_except_own t h0 h c _ Hsame Hct). assumption. }
      step Hget. apply (assign_accepts Call (S n') h t ls k v); auto.
      eapply same_except_chain; eauto. }
    step Hinstall. apply IH'.
    + eapply same_except_trans; [eassumption|apply same_except_install].
    + intros q Hq. apply accepts_write_install; auto.
      eapply same_except_chain; eauto.
Qed.

End InstallFacts.

Lemma chain_no_repeat h l pre x post : chain h l (pre ++ x :: post) -> ~ In x pre.
Proof.
  intros Hc Hin. destruct (in_split _ _ Hin) as (a & b & ->).
  pose proof (chain_suffix h l (a ++ x :: b) x post Hc) as H2.
  rewrite <- app_assoc in Hc. simpl in Hc.
  pose proof (chain_suffix h l a x (b ++ x :: post) Hc) as H1.
  pose proof (chain_functional _ _ _ _ H1 H2) as E.
  apply (f_equal (@length loc)) in E. simpl in E. rewrite length_app in E.
  simpl in E. lia.
Qed.

Lemma DefineOwnProperty_ordinary n h t p d :
  is_proxy (obj h t) = false ->
  DefineOwnProperty (S n) t p d h =
  match own h t p with
  | None => Normal true (put_own t p (new_property d) h)
  | Some cur =>
      if permitted cur d then Normal true (put_own t p (apply_descriptor cur d) h)
      else Normal false h
  end.
Proof.
  intros Hk. unfold DefineOwnProperty.
  step (resolve_ordinary n h t Hk). step_refl.
  destruct (own h t p) as [cur|]; [destruct (permitted cur d)|]; reflexivity.
Qed.

Section EnhanceFacts.

Variable Call : value -> value -> list value -> M value.



(** A tagged entry is defined on the prototype, as far as the property
    already there admits it. *)
Lemma enhance_loop_tagged n h c m t key keys e w en cf pw pe pc marker desc :
  is_proxy (obj h m) = false -> own h m key = Some (DataProperty (VObject e) w en cf) ->
  is_proxy (obj h e) = false -> own h e IsPropertyDescriptor = Some marker ->
  is_proxy (obj h c) = false ->
  own h c "prototype" = Some (DataProperty (VObject t) pw pe pc) ->
  is_proxy (obj h t) = false ->
  ToPropertyDescriptor Call (S n) (VObject e) h = Normal desc h ->
  enhance_loop Call (S n) (VObject c) (VObject m) (key :: keys) h =
  match own h t key with
  | None =>
      enhance_loop Call (S n) (VObject c) (VObject m) keys
        (put_own t key (new_property desc) h)
  | Some cur =>
      if permitted cur desc
      then enhance_loop Call (S n) (VObject c) (VObject m) keys
             (put_own t key (apply_descriptor cur desc) h)
      else Abrupt TypeError h
  end.
Proof.
  intros Hkm Ho Hke Hmark Hkc Hproto Hkt Hdesc.
  rewrite (enhance_loop_entry Call n h (VObject c) m key keys (VObject e) w en cf)
    by assumption.
  step (isMarkedPropertyDescriptor_object n h e Hke). rewrite Hmark. cbn [present].
  pose proof (DefineOwnProperty_ordinary n h t key desc Hkt) as Hdef.
  assert (Hget : GetV Call (S n) (VObject c) "prototype" h = Normal (VObject t) h)
    by (now apply GetV_own_data with pw pe pc).
  destruct (own h t key) as [cur|]; [destruct (permitted cur desc)|].
  - erewrite bind_normal; [reflexivity|].
    step Hget. erewrite bind_normal; [reflexivity|].
    unfold defineProperty. step Hdesc. step Hdef. reflexivity.
  - apply bind_abrupt. step Hget. apply bind_abrupt.
    unfold defineProperty. step Hdesc. step Hdef. reflexivity.
  - erewrite bind_normal; [reflexivity|].
    step Hget. erewrite bind_normal; [reflexivity|].
    unfold defineProperty. step Hdesc. step Hdef. reflexivity.
Qed.

(** [enhance] with a member map of plain values. *)
Lemma enhance_plain n h c m t ls lsm pw pe pc :
  c <> t -> m <> t ->
  is_proxy (obj h c) = false ->
  own h c "prototype" = Some (DataProperty (VObject t) pw pe pc) ->
  plain_fields h m -> chain h m lsm -> length lsm < n ->
  chain h t ls -> length ls < n ->
  (forall k v, enumerable_field h m k = Some v ->
               plain_member h t v = true
               /\ accepts_write (nearest h k ls) = true) ->
  exists ks,
    enhance Call n (VObject c) (VObject m) h
    = Normal (VObject c) (installs h m t ks h)
    /\ forall k v, enumerable_field h m k = Some v -> In k ks.
Proof.
  intros Hct Hmt Hkc Hproto Hplain Hcm Hnm Hc Hn Hval.
  assert (Hkm : is_proxy (obj h m) = false) by (eapply chain_not_proxy; eauto).
  destruct (for_in_keys_total n h m lsm [] Hcm Hnm) as [ks Hks].
  destruct (for_in_keys_own n h m ks Hkm Hks) as (rest & -> & Hrest).
  exists (own_enumerable_keys h m ++ rest). split.
  - unfold enhance.
    assert (Hfor : for_in n (VObject m) h
                   = Normal (own_enumerable_keys h m ++ rest) h)
      by (unfold for_in; now rewrite Hks).
    step Hfor.
    erewrite bind_normal; [reflexivity|].
    apply (enhance_loop_installs Call n h c m t ls pw pe pc); auto.
    + intros k Hin. apply in_app_or in Hin. destruct Hin as [Hin|Hin].
      * right. destruct (own_enumerable_keys_field h m k Hplain Hin) as [v ->].
        discriminate.
      * left. now apply Hrest.
    + apply same_except_refl.
  - intros k v Hv. apply in_or_app. left.
    eapply enumerable_field_own_enumerable_keys; eauto.
Qed.

End EnhanceFacts.

(** ** The claims about [enhance] and [extend] *)




(** C10.  For an entry that is an object, both loops choose between
    property definition and plain assignment by whether the entry has
    [$IsPropertyDescriptor] among its own properties: an entry that only
    inherits the marker is assigned as a plain value.  In the example an
    object created from a tagged descriptor inherits the marker and is
    installed as itself, by [enhance] and by [extend] alike, while the
    tagged descriptor yields the read-only member it describes. *)
Theorem marker_counts_only_as_own_property :
  (forall prog n h C m key keys e w en cf,
      is_proxy (obj h m) = false ->
      own h m key = Some (DataProperty (VObject e) w en cf) ->
      is_proxy (obj h e) = false ->
      enhance_loop (Call prog (S n)) (S n) C (VObject m) (key :: keys) h =
      ((if present (own h e IsPropertyDescriptor) then
          let* prototype := GetV (Call prog (S n)) (S n) C "prototype" in
          defineProperty (Call prog (S n)) (S n) prototype key (VObject e) ;; ret tt
        else
          let* prototype := GetV (Call prog (S n)) (S n) C "prototype" in
          assign (Call prog (S n)) (S n) prototype key (VObject e)) ;;
       enhance_loop (Call prog (S n)) (S n) C (VObject m) keys) h)
  /\
  (forall prog n h dc D key keys e w en cf,
      is_proxy (obj h D) = false ->
      own h D key = Some (DataProperty (VObject e) w en cf) ->
      is_proxy (obj h e) = false ->
      key <> "preConstructor" -> key <> "constructor" ->
      extend_loop (Call prog (S n)) (S n) dc (VObject D) (key :: keys) h =
      ((if present (own h e IsPropertyDescriptor) then
          let* prototype := GetV (Call prog (S n)) (S n) dc "prototype" in
          defineProperty (Call prog (S n)) (S n) prototype key (VObject e) ;; ret tt
        else
          let* prototype := GetV (Call prog (S n)) (S n) dc "prototype" in
          assign (Call prog (S n)) (S n) prototype key (VObject e)) ;;
       extend_loop (Call prog (S n)) (S n) dc (VObject D) keys) h)
  /\
  (HasProperty 20 Tagged.heir IsPropertyDescriptor Tagged.tagged
   = Normal true Tagged.tagged
   /\ own Tagged.tagged Tagged.heir IsPropertyDescriptor = None
   /\ own Tagged.inherited Tagged.C_prototype "z"
      = Some (data (VObject Tagged.heir))
   /\ own Tagged.extended 12 "z" = Some (data (VObject Tagged.heir))
   /\ own Tagged.tagged Tagged.C_prototype "y"
      = Some (DataProperty (VNumber 7) false false false)
   /\ own Tagged.extended 15 "y"
      = Some (DataProperty (VNumber 7) false false false)).
Proof.
  split; [|split].
  - intros prog n h C m key keys e w en cf Hkm Ho Hke.
    rewrite (enhance_loop_entry (Call prog (S n)) n h C m key keys (VObject e) w en cf)
      by assumption.
    step (isMarkedPropertyDescriptor_object n h e Hke). reflexivity.
  - intros prog n h dc D key keys e w en cf Hkd Ho Hke Hp Hc.
    rewrite (extend_loop_entry (Call prog (S n)) n h dc D key keys (VObject e) w en cf)
      by assumption.
    step (isMarkedPropertyDescriptor_object n h e Hke). reflexivity.
  - repeat split; vm_compute; reflexivity.
Qed.

Lemma marker_counts_only_as_own_property_witness :
  enhance_loop (Call Tagged.prog 20) 20 (VObject Tagged.C) (VObject 7) ["z"]
    Tagged.tagged
  = ((let* prototype := GetV (Call Tagged.prog 20) 20 (VObject Tagged.C) "prototype" in
      assign (Call Tagged.prog 20) 20 prototype "z" (VObject Tagged.heir)) ;;
     enhance_loop (Call Tagged.prog 20) 20 (VObject Tagged.C) (VObject 7) [])
      Tagged.tagged.
Proof.
  apply (proj1 marker_counts_only_as_own_property Tagged.prog 19 Tagged.tagged
           (VObject Tagged.C) 7 "z" [] Tagged.heir true true true).
  - reflexivity.
  - reflexivity.
  - reflexivity.
Defined.

(** * Further properties of the library *)

(** ** [callSuper] *)

Lemma own_Some_valid h l p x : own h l p = Some x -> l < length h.
Proof.
  unfold own, obj. intros H. destruct (h !! l) as [o|] eqn:E.
  - apply lookup_lt_is_Some. eauto.
  - discriminate.
Qed.






Lemma dispatch_target_declares_only h name direct ls rest :
  declares_only h name direct ls ->
  dispatch_target h name direct (ls ++ rest) true
  = dispatch_target h name direct rest true.
Proof.
  induction 1 as [|l ls Hl _ IH]; simpl; [reflexivity|].
  destruct (own h l name) as [x|]; [|assumption].
  now rewrite (Hl x eq_refl), strict_equal_refl.
Qed.

(** X2.  The ancestor [callSuper] invokes is the nearest level above the
    current one whose value for the name differs from the current function:
    levels in between that hold the very same function (a method shared by
    two classes of the chain) are passed over. *)
Theorem callSuper_passes_over_the_same_function :
  forall prog n h t d base pre l1 mid l2 post name args
         current w1 e1 c1 f w2 e2 c2,
    is_proxy (obj h t) = false ->
    starts_at h t d base -> d < n ->
    chain h base (pre ++ l1 :: mid ++ l2 :: post) ->
    length (pre ++ l1 :: mid ++ l2 :: post) < n ->
    undeclared h name pre ->
    own h l1 name = Some (DataProperty current w1 e1 c1) ->
    declares_only h name current mid ->
    own h l2 name = Some (DataProperty f w2 e2 c2) ->
    f <> current ->
    callSuper (Call prog n) n (VObject t) name args h
    = (let* result := Call prog n f (VObject t) args in
       delete_property n (VObject t) BaseReference ;;
       ret result) (with_marker t l2 h).
Proof.
  intros prog n h t d base pre l1 mid l2 post name args
         current w1 e1 c1 f w2 e2 c2 Hk Hs Hd Hc Hlen Hpre H1 Hmid H2 Hne.
  assert (Hn : 1 < n).
  { rewrite length_app in Hlen. simpl in Hlen. rewrite length_app in Hlen.
    simpl in Hlen. lia. }
  rewrite (callSuper_walk _ n h h t d base (pre ++ l1 :: mid ++ l2 :: post)
             name args current Hk Hs Hd);
    [|eapply Get_data; eauto; rewrite length_app in Hlen; simpl in Hlen; lia
     |assumption|assumption].
  rewrite dispatch_target_undeclared by assumption. cbn [dispatch_target].
  rewrite H1. cbn [descriptor_value]. rewrite strict_equal_refl.
  rewrite dispatch_target_declares_only by assumption. cbn [dispatch_target].
  rewrite H2. cbn [descriptor_value].
  apply strict_equal_false in Hne. rewrite Hne.
  unfold bind at 1. now rewrite (assign_marker _ n h t d base l2).
Qed.

Lemma callSuper_passes_over_the_same_function_witness :
  callSuper (Call Shapes.prog 20) 20 (VObject Shapes.x) "m" [] Shapes.initial
  = (let* result := Call Shapes.prog 20 (VObject Shapes.g) (VObject Shapes.x) [] in
     delete_property 20 (VObject Shapes.x) BaseReference ;;
     ret result) (with_marker Shapes.x Shapes.root Shapes.initial)
  /\ result_of (callSuper (Call Shapes.prog 20) 20 (VObject Shapes.x) "m" []
                  Shapes.initial) = Some (inl (VString "g")).
Proof.
  split; [|vm_compute; reflexivity].
  apply (callSuper_passes_over_the_same_function Shapes.prog 20 Shapes.initial
           Shapes.x 5 Shapes.x [Shapes.x] Shapes.upper [Shapes.lower] Shapes.root
           [ObjectPrototype] "m" [] (VObject Shapes.f) true false true
           (VObject Shapes.g) true false true).
  - reflexivity.
  - apply (starts_at_instance _ _
             [Shapes.x; Shapes.upper; Shapes.lower; Shapes.root; ObjectPrototype]).
    + chain_levels.
    + repeat constructor.
  - lia.
  - chain_levels.
  - simpl. lia.
  - repeat constructor.
  - reflexivity.
  - constructor; [|constructor]. intros x Hx. vm_compute in Hx.
    injection Hx as <-. reflexivity.
  - reflexivity.
  - discriminate.
Defined.

Lemma same_except_remove_own t p h : same_except t h (remove_own t p h).
Proof.
  unfold remove_own. repeat split.
  - apply length_alter.
  - intros l Hl. apply obj_alter_other. congruence.
  - destruct (Nat.lt_ge_cases t (length h)) as [Hl|Hl].
    + now rewrite obj_alter_same.
    + unfold obj. rewrite list_lookup_alter_eq.
      rewrite (lookup_ge_None_2 h t) by lia. reflexivity.
  - destruct (Nat.lt_ge_cases t (length h)) as [Hl|Hl].
    + now rewrite obj_alter_same.
    + unfold obj. rewrite list_lookup_alter_eq.
      rewrite (lookup_ge_None_2 h t) by lia. reflexivity.
Qed.

(** X3.  [callSuper] does not put back the marker it found on entry: when it
    is called while an outer dispatch is in progress (the instance carries
    the outer marker) and its own dispatch returns, the instance is left
    with no marker at all, so a further [callSuper] made by the same outer
    method starts from the instance itself, not from the outer level. *)
Theorem nested_dispatch_forgets_the_outer_level :
  forall prog n h t base pre l1 mid l2 post name args
         current w1 e1 c1 f w2 e2 c2 result h2 ls,
    is_proxy (obj h t) = false ->
    own h t BaseReference = Some (DataProperty (VObject base) true true true) ->
    chain h base (pre ++ l1 :: mid ++ l2 :: post) ->
    length (pre ++ l1 :: mid ++ l2 :: post) < n ->
    undeclared h name pre ->
    own h l1 name = Some (DataProperty current w1 e1 c1) ->
    undeclared h name mid ->
    own h l2 name = Some (DataProperty f w2 e2 c2) ->
    f <> current ->
    Call prog n f (VObject t) args (with_marker t l2 h) = Normal result h2 ->
    (forall x, own h2 t BaseReference = Some x -> configurable x = true) ->
    chain h2 t (t :: ls) -> undeclared h2 BaseReference ls ->
    callSuper (Call prog n) n (VObject t) name args h
    = Normal result (remove_own t BaseReference h2)
    /\ own (remove_own t BaseReference h2) t BaseReference = None
    /\ starts_at (remove_own t BaseReference h2) t (length (t :: ls)) t.
Proof.
  intros prog n h t base pre l1 mid l2 post name args
         current w1 e1 c1 f w2 e2 c2 result h2 ls
         Hk Ho Hc Hlen Hpre H1 Hmid H2 Hne Hcall Hcfg Hc2 Hu2.
  assert (Hn : exists m, n = S (S m)).
  { rewrite length_app in Hlen. simpl in Hlen.
    destruct n as [|[|m]]; try lia. eauto. }
  destruct Hn as [m ->].
  assert (Hk2 : is_proxy (obj h2 t) = false) by (eapply chain_not_proxy; eauto).
  split; [|split].
  - rewrite (callSuper_dispatches prog (S (S m)) h t 1 base pre l1 mid l2 post
               name args current w1 e1 c1 f w2 e2 c2); auto;
      [|now apply starts_at_marker|lia].
    step Hcall.
    destruct (own h2 t BaseReference) as [x|] eqn:E.
    + step (delete_property_configurable (S m) h2 t BaseReference x Hk2 E
              (Hcfg x eq_refl)).
      reflexivity.
    + step (delete_property_absent (S m) h2 t BaseReference Hk2 E).
      now rewrite remove_own_absent.
  - apply own_remove_own_same.
  - apply starts_at_instance.
    + eapply same_except_chain; [apply same_except_remove_own|eassumption].
    + constructor; [apply own_remove_own_same|].
      assert (Hnot : ~ In t ls).
      { intros Hin. destruct (in_split _ _ Hin) as (a & b & ->).
        apply (chain_no_repeat h2 t (t :: a) t b); [exact Hc2|now left]. }
      unfold undeclared in *. rewrite Forall_forall in *. intros l Hl.
      rewrite (same_except_own t h2 _ l BaseReference
                 (same_except_remove_own t BaseReference h2)).
      * now apply Hu2.
      * intros ->. apply Hnot. now apply list_elem_of_In.
Qed.

Lemma nested_dispatch_forgets_the_outer_level_witness :
  callSuper (Call Levels.prog 20) 20 (VObject Levels.c) "action" []
    (with_marker Levels.c Levels.B_prototype Prepared.levels)
  = Normal (VString "A")
      (remove_own Levels.c BaseReference
         (with_marker Levels.c Levels.A_prototype
            (with_marker Levels.c Levels.B_prototype Prepared.levels)))
  /\ own (remove_own Levels.c BaseReference
            (with_marker Levels.c Levels.A_prototype
               (with_marker Levels.c Levels.B_prototype Prepared.levels)))
       Levels.c BaseReference = None.
Proof.
  destruct (nested_dispatch_forgets_the_outer_level Levels.prog 20
              (with_marker Levels.c Levels.B_prototype Prepared.levels)
              Levels.c Levels.B_prototype [] Levels.B_prototype []
              Levels.A_prototype [ObjectPrototype] "action" []
              (VObject Levels.actionB) true true true
              (VObject Levels.actionA) true false true
              (VString "A")
              (with_marker Levels.c Levels.A_prototype
                 (with_marker Levels.c Levels.B_prototype Prepared.levels))
              [Levels.C_prototype; Levels.B_prototype; Levels.A_prototype;
               ObjectPrototype])
    as (Hrun & Hnone & _).
  - reflexivity.
  - reflexivity.
  - chain_levels.
  - simpl. lia.
  - constructor.
  - reflexivity.
  - constructor.
  - reflexivity.
  - discriminate.
  - vm_compute. reflexivity.
  - intros x Hx. vm_compute in Hx. injection Hx as <-. reflexivity.
  - chain_levels.
  - repeat constructor.
  - split; assumption.
Defined.

(** ** [$super] *)

Lemma existsb_declared h p pre x post d :
  own h x p = Some d ->
  existsb (fun l => present (own h l p)) (pre ++ x :: post) = true.
Proof.
  intros Hx. apply existsb_exists. exists x. split.
  - apply in_or_app. right. now left.
  - now rewrite Hx.
Qed.

(** X4.  [$super] tests for its cache with [in]: it returns whatever
    [$SuperProxy] the nearest level of the chain holds and creates nothing,
    also when that level is not the object itself.  An object that inherits
    from an instance (or from a prototype) on which [$super] has been called
    therefore gets that object's wrapper, and a call through it is
    [callSuper] on the wrapper's target, not on the object. *)
Theorem super_returns_the_nearest_cache :
  forall prog n h x pre p post v w e c,
    chain h x (pre ++ p :: post) -> undeclared h SuperProxyField pre ->
    own h p SuperProxyField = Some (DataProperty v w e c) ->
    length (pre ++ p :: post) < n ->
    super (Call prog n) n (VObject x) h = Normal v h
    /\ forall wr name this args,
         v = VObject wr -> obj h wr = wrapper p -> locked (own h p name) = false ->
         GetV (Call prog n) n (VObject wr) name h
         = Normal (VObject (length h)) (h ++ [arrow p name])
         /\ Call prog (S n) (VObject (length h)) this args (h ++ [arrow p name])
            = callSuper (Call prog n) n (VObject p) name args (h ++ [arrow p name]).
Proof.
  intros prog n h x pre p post v w e c Hc Hu Ho Hn.
  assert (Hp : chain h p (p :: post)) by (eapply chain_suffix; eauto).
  assert (Hn2 : exists m, n = S (S m)).
  { rewrite length_app in Hn. simpl in Hn. destruct n as [|[|m]]; try lia. eauto. }
  split.
  - unfold super, has_in.
    step (HasProperty_chain n h x (pre ++ p :: post) SuperProxyField Hc
            (Nat.lt_le_incl _ _ Hn)).
    rewrite (existsb_declared h SuperProxyField pre p post _ Ho).
    unfold GetV. eapply Get_data; eauto.
    rewrite length_app in Hn. simpl in Hn. lia.
  - intros wr name this args -> Hw Hl. destruct Hn2 as [m ->]. split.
    + apply wrapper_get; auto.
      * destruct Hp; assumption.
      * eapply chain_not_proxy; eauto.
    + apply arrow_call. apply obj_app_new.
Qed.

Lemma super_returns_the_nearest_cache_witness :
  super (Call Levels.prog 20) 20 (VObject Borrowed.y) Borrowed.levels
  = Normal (VObject Wrapped.w) Borrowed.levels.
Proof.
  apply (super_returns_the_nearest_cache Levels.prog 20 Borrowed.levels
           Borrowed.y [Borrowed.y] Levels.c
           [Levels.C_prototype; Levels.B_prototype; Levels.A_prototype;
            ObjectPrototype]
           (VObject Wrapped.w) true true true).
  - chain_levels.
  - repeat constructor.
  - reflexivity.
  - simpl. lia.
Defined.


(** ** [property] *)

Lemma put_same p x ps : assoc p ps = Some x -> put p x ps = ps.
Proof.
  induction ps as [|[k y] ps IH]; simpl; [discriminate|].
  destruct (String.eqb k p); [now intros [= ->]|].
  intros H. now rewrite IH.
Qed.

Lemma put_own_same h l p x : own h l p = Some x -> put_own l p x h = h.
Proof.
  intros Ho. pose proof (own_Some_valid _ _ _ _ Ho) as Hl.
  unfold put_own. apply list_eq. intros i.
  destruct (Nat.eq_dec i l) as [->|Hne].
  - rewrite list_lookup_alter_eq.
    destruct (lookup_lt_is_Some_2 h l Hl) as [o Eo].
    unfold own, obj in Ho. rewrite Eo in *. simpl in *.
    destruct o as [q ps k]. unfold set_props. simpl in *.
    now rewrite put_same.
  - now rewrite list_lookup_alter_ne by congruence.
Qed.

Lemma install_again t p v h :
  t < length h -> install t p v (install t p v h) = install t p v h.
Proof.
  intros Ht. unfold install at 1. apply put_own_same.
  unfold install. rewrite own_put_own_same by assumption.
  now destruct (own h t p) as [[v0 w e c|g s e c]|].
Qed.

(** X5.  [property(d)] with an object [d] returns [d] itself, tagged in
    place: [isMarkedPropertyDescriptor] then recognises it, its other own
    properties and every other object are as before, and tagging it once
    more changes nothing.  The tag goes on as by an assignment, so this
    holds when the nearest declaration of [$IsPropertyDescriptor] on the
    chain of [d], if any, is a writable data property. *)
Theorem property_tags_in_place :
  forall prog n h d ls,
    chain h d ls ->
    accepts_write (nearest h IsPropertyDescriptor ls) = true ->
    length ls < n ->
    let h' := install d IsPropertyDescriptor (VBool true) h in
    property (Call prog n) n (VObject d) h = Normal (VObject d) h'
    /\ isMarkedPropertyDescriptor n (VObject d) h' = Normal true h'
    /\ (forall q, q <> IsPropertyDescriptor -> own h' d q = own h d q)
    /\ (forall l, l <> d -> obj h' l = obj h l)
    /\ property (Call prog n) n (VObject d) h' = Normal (VObject d) h'.
Proof.
  intros prog n h d ls Hc Ha Hn h'.
  assert (Hd : d < length h) by (destruct Hc; assumption).
  assert (Hs : same_except d h h') by apply same_except_install.
  assert (Hrun : forall h0, chain h0 d ls ->
            accepts_write (nearest h0 IsPropertyDescriptor ls) = true ->
            property (Call prog n) n (VObject d) h0
            = Normal (VObject d) (install d IsPropertyDescriptor (VBool true) h0)).
  { intros h0 Hc0 Ha0. unfold property. cbn [to_boolean]. step_refl.
    step (assign_accepts (Call prog n) n h0 d ls IsPropertyDescriptor (VBool true)
            Hc0 Ha0 Hn).
    reflexivity. }
  split; [now apply Hrun|]. split; [|split; [|split]].
  - destruct n as [|n]; [lia|].
    rewrite isMarkedPropertyDescriptor_object.
    + destruct (own_install_same d IsPropertyDescriptor (VBool true) h Hd)
        as (w & e & c & E).
      fold h' in E. now rewrite E.
    + rewrite (same_except_is_proxy d h h') by assumption.
      eapply chain_not_proxy; eauto.
  - intros q Hq. apply own_install_other. congruence.
  - intros l Hl. destruct Hs as (_ & O & _). now apply O.
  - rewrite Hrun.
    + unfold h'. now rewrite install_again.
    + eapply same_except_chain; eauto.
    + apply accepts_write_install; assumption.
Qed.

Lemma property_tags_in_place_witness :
  property (Call Tagged.prog 20) 20 (VObject Tagged.descriptor) Tagged.initial
  = Normal (VObject Tagged.descriptor)
      (install Tagged.descriptor IsPropertyDescriptor (VBool true) Tagged.initial).
Proof.
  apply (property_tags_in_place Tagged.prog 20 Tagged.initial Tagged.descriptor
           [Tagged.descriptor; ObjectPrototype]).
  - chain_levels.
  - reflexivity.
  - simpl. lia.
Defined.


Lemma nearest_app_heap h hs p ls :
  Forall (fun x => x < length h) ls -> nearest (h ++ hs) p ls = nearest h p ls.
Proof.
  induction 1 as [|l ls Hl _ IH]; simpl; [reflexivity|].
  now rewrite own_app_old, IH.
Qed.

Lemma put_own_new h o p x :
  put_own (length h) p x (h ++ [o]) = h ++ [set_props (put p x) o].
Proof.
  unfold put_own. replace (length h) with (length h + 0) at 1 by lia.
  now rewrite alter_app_r.
Qed.

(** X6.  [property()] -- and [property] of any falsy value: [undefined],
    [null], [false], [0], the empty string -- makes a new object, tags it
    and returns it: the result is an object that did not exist before,
    whose only own property is the tag, and nothing else changes.  The
    hypothesis is that [Object.prototype] (and what it may inherit from)
    does not declare [$IsPropertyDescriptor] read-only or as an accessor. *)
Theorem property_of_nothing_is_a_fresh_descriptor :
  forall prog n h v ls,
    to_boolean v = false ->
    chain h ObjectPrototype ls ->
    accepts_write (nearest h IsPropertyDescriptor ls) = true ->
    S (length ls) < n ->
    property (Call prog n) n v h
    = Normal (VObject (length h))
        (h ++ [mkObject (Some ObjectPrototype)
                 [(IsPropertyDescriptor, DataProperty (VBool true) true true true)]
                 Ordinary]).
Proof.
  intros prog n h v ls Hv Hc Ha Hn. unfold property. rewrite Hv.
  set (o := mkObject (Some ObjectPrototype) [] Ordinary).
  assert (Hnew : (let* l := new_object o in ret (VObject l)) h
                 = Normal (VObject (length h)) (h ++ [o])) by reflexivity.
  step Hnew.
  assert (Hc' : chain (h ++ [o]) (length h) (length h :: ls)).
  { eapply chain_link.
    - rewrite length_app. simpl. lia.
    - now rewrite obj_app_new.
    - now rewrite obj_app_new.
    - now apply chain_app_heap. }
  assert (Hown : own (h ++ [o]) (length h) IsPropertyDescriptor = None)
    by (unfold own; now rewrite obj_app_new).
  assert (Ha' : accepts_write
                  (nearest (h ++ [o]) IsPropertyDescriptor (length h :: ls)) = true).
  { cbn [nearest]. rewrite Hown.
    rewrite nearest_app_heap by (eapply chain_levels_valid; eauto). assumption. }
  step (assign_accepts (Call prog n) n (h ++ [o]) (length h) (length h :: ls)
          IsPropertyDescriptor (VBool true) Hc' Ha' Hn).
  unfold install. rewrite Hown. cbn [written]. now rewrite put_own_new.
Qed.

Lemma property_of_nothing_is_a_fresh_descriptor_witness :
  property (Call Tagged.prog 20) 20 VUndefined Tagged.initial
  = Normal (VObject (length Tagged.initial))
      (Tagged.initial
       ++ [mkObject (Some ObjectPrototype)
             [(IsPropertyDescriptor, DataProperty (VBool true) true true true)]
             Ordinary]).
Proof.
  apply (property_of_nothing_is_a_fresh_descriptor Tagged.prog 20 Tagged.initial
           VUndefined [ObjectPrototype]).
  - reflexivity.
  - chain_levels.
  - reflexivity.
  - simpl. lia.
Defined.


(** ** [enhance] *)

Section NothingFacts.

Variable Call : value -> value -> list value -> M value.

Lemma enhance_loop_nothing n h C m ks :
  is_proxy (obj h m) = false -> (forall k, In k ks -> own h m k = None) ->
  enhance_loop Call (S n) C (VObject m) ks h = Normal tt h.
Proof.
  intros Hk. induction ks as [|k ks IH]; intros Hks; [reflexivity|].
  rewrite enhance_loop_skip by (auto; apply Hks; now left).
  apply IH. intros k' Hin. apply Hks. now right.
Qed.


End NothingFacts.




Section NullEntryFacts.

Variable Call : value -> value -> list value -> M value.




End NullEntryFacts.





(** ** Tagged entries *)

Lemma existsb_present_nearest h p ls :
  existsb (fun x => present (own h x p)) ls = present (nearest h p ls).
Proof.
  induction ls as [|l ls IH]; simpl; [reflexivity|].
  destruct (own h l p); [reflexivity|assumption].
Qed.

Section DescriptorFacts.

Variable Call : value -> value -> list value -> M value.

Lemma Get_nearest_data n h l ls p r :
  chain h l ls -> length ls <= n -> data_or_absent (nearest h p ls) = true ->
  Get Call n l p r h
  = Normal (default VUndefined (read_field h ls p)) h.
Proof.
  intros H. revert n. unfold read_field.
  induction H as [l Hv Hk Hp|l q ls Hv Hk Hp Hq IH]; intros n Hn Hd;
    simpl in Hn; (destruct n as [|n]; [lia|]);
    rewrite Get_step by assumption; cbn [nearest] in *;
    destruct (own h l p) as [[v w e c|g s e c]|]; try discriminate;
    try reflexivity; rewrite Hp.
  - reflexivity.
  - apply IH; [lia|assumption].
Qed.

Lemma field_read n h e ls name :
  chain h e ls -> length ls <= n -> data_or_absent (nearest h name ls) = true ->
  field Call n e name h = Normal (read_field h ls name) h.
Proof.
  intros Hc Hn Hd. unfold field.
  step (HasProperty_chain n h e ls name Hc Hn).
  rewrite existsb_present_nearest.
  pose proof (Get_nearest_data n h e ls name (VObject e) Hc Hn Hd) as Hget.
  unfold read_field in *.
  destruct (nearest h name ls) as [x|]; cbn [present option_map default] in *.
  - step Hget. reflexivity.
  - reflexivity.
Qed.

Lemma function_field_read n h e ls name :
  chain h e ls -> length ls <= n -> data_or_absent (nearest h name ls) = true ->
  function_or_undefined h (read_field h ls name) = true ->
  function_field Call n e name h = Normal (read_field h ls name) h.
Proof.
  intros Hc Hn Hd Hf. unfold function_field.
  step (field_read n h e ls name Hc Hn Hd).
  assert (Hn0 : exists n', n = S n').
  { destruct Hc; simpl in Hn; (destruct n; [lia|eauto]). }
  destruct Hn0 as [n' ->].
  destruct (read_field h ls name) as [[| | | | |l]|]; try discriminate;
    try reflexivity.
  cbn [function_or_undefined] in Hf.
  unfold IsCallable, bind, resolve, gets. cbn [target_of].
  destruct (kind (obj h l)) eqn:E; try discriminate. now rewrite E.
Qed.

Lemma ToPropertyDescriptor_described n h e ls :
  chain h e ls -> length ls <= n -> data_fields h ls = true ->
  function_or_undefined h (read_field h ls "get") = true ->
  function_or_undefined h (read_field h ls "set") = true ->
  ToPropertyDescriptor Call n (VObject e) h
  = if is_accessor_descriptor (described h ls) && is_data_descriptor (described h ls)
    then Abrupt TypeError h
    else Normal (described h ls) h.
Proof.
  intros Hc Hn Hd Hg Hs. cbn [data_fields forallb] in Hd.
  repeat rewrite andb_true_iff in Hd.
  destruct Hd as (De & Dc & Dv & Dw & Dg & Ds & _).
  unfold ToPropertyDescriptor.
  step (field_read n h e ls "enumerable" Hc Hn De).
  step (field_read n h e ls "configurable" Hc Hn Dc).
  step (field_read n h e ls "value" Hc Hn Dv).
  step (field_read n h e ls "writable" Hc Hn Dw).
  step (function_field_read n h e ls "get" Hc Hn Dg Hg).
  step (function_field_read n h e ls "set" Hc Hn Ds Hs).
  unfold is_accessor_descriptor, is_data_descriptor, described. cbn [d_get d_set d_value d_writable].
  destruct (read_field h ls "get"), (read_field h ls "set"),
    (read_field h ls "value"), (read_field h ls "writable"); reflexivity.
Qed.

End DescriptorFacts.


(** A tagged entry whose fields are data properties. *)
Lemma enhance_loop_described :
  forall prog n h c m t key keys e ls w en cf pw pe pc marker,
    is_proxy (obj h m) = false ->
    own h m key = Some (DataProperty (VObject e) w en cf) ->
    chain h e ls -> length ls <= n ->
    own h e IsPropertyDescriptor = Some marker ->
    data_fields h ls = true ->
    function_or_undefined h (read_field h ls "get") = true ->
    function_or_undefined h (read_field h ls "set") = true ->
    is_proxy (obj h c) = false ->
    own h c "prototype" = Some (DataProperty (VObject t) pw pe pc) ->
    is_proxy (obj h t) = false ->
    enhance_loop (Call prog (S n)) (S n) (VObject c) (VObject m) (key :: keys) h
    = if is_accessor_descriptor (described h ls)
         && is_data_descriptor (described h ls)
      then Abrupt TypeError h
      else
        match own h t key with
        | None =>
            enhance_loop (Call prog (S n)) (S n) (VObject c) (VObject m) keys
              (put_own t key (new_property (described h ls)) h)
        | Some cur =>
            if permitted cur (described h ls)
            then enhance_loop (Call prog (S n)) (S n) (VObject c) (VObject m) keys
                   (put_own t key (apply_descriptor cur (described h ls)) h)
            else Abrupt TypeError h
        end.
Proof.
  intros prog n h c m t key keys e ls w en cf pw pe pc marker
    Hkm Ho Hc Hn Hmark Hd Hg Hs Hkc Hproto Hkt.
  assert (Hke : is_proxy (obj h e) = false) by (eapply chain_not_proxy; eauto).
  pose proof (ToPropertyDescriptor_described (Call prog (S n)) (S n) h e ls Hc
                (Nat.le_trans _ _ _ Hn (Nat.le_succ_diag_r n)) Hd Hg Hs) as Hdesc.
  destruct (is_accessor_descriptor (described h ls)
            && is_data_descriptor (described h ls)).
  - rewrite (enhance_loop_entry (Call prog (S n)) n h (VObject c) m key keys
               (VObject e) w en cf) by assumption.
    step (isMarkedPropertyDescriptor_object n h e Hke). rewrite Hmark.
    cbn [present]. apply bind_abrupt.
    step (GetV_own_data (Call prog (S n)) n h c "prototype" (VObject t) pw pe pc
            Hkc Hproto).
    apply bind_abrupt. unfold defineProperty. now apply bind_abrupt.
  - now apply enhance_loop_tagged with e w en cf pw pe pc marker.
Qed.

(** X9.  An entry with its own tag is handed to [Object.defineProperty],
    which reads the six descriptor fields through the prototype chain of
    the entry (only the tag has to be an own property) and ignores the tag:
    the member is the property these fields describe, with every attribute
    that is not given taken as [false] when the prototype has no such
    member yet.  A descriptor that gives [get] or [set] together with
    [value] or [writable] raises [TypeError] and changes nothing. *)
Theorem enhance_defines_the_described_property :
  forall prog n h c m t key keys e ls w en cf pw pe pc marker,
    is_proxy (obj h m) = false ->
    own h m key = Some (DataProperty (VObject e) w en cf) ->
    chain h e ls -> length ls <= n ->
    own h e IsPropertyDescriptor = Some marker ->
    data_fields h ls = true ->
    function_or_undefined h (read_field h ls "get") = true ->
    function_or_undefined h (read_field h ls "set") = true ->
    is_proxy (obj h c) = false ->
    own h c "prototype" = Some (DataProperty (VObject t) pw pe pc) ->
    is_proxy (obj h t) = false ->
    enhance_loop (Call prog (S n)) (S n) (VObject c) (VObject m) (key :: keys) h
    = if is_accessor_descriptor (described h ls)
         && is_data_descriptor (described h ls)
      then Abrupt TypeError h
      else
        match own h t key with
        | None =>
            enhance_loop (Call prog (S n)) (S n) (VObject c) (VObject m) keys
              (put_own t key (new_property (described h ls)) h)
        | Some cur =>
            if permitted cur (described h ls)
            then enhance_loop (Call prog (S n)) (S n) (VObject c) (VObject m) keys
                   (put_own t key (apply_descriptor cur (described h ls)) h)
            else Abrupt TypeError h
        end.
Proof. intros. eapply enhance_loop_described; eauto. Qed.

Lemma enhance_defines_the_described_property_witness :
  enhance_loop (Call Tagged.prog 20) 20 (VObject Tagged.C) (VObject 6) ["y"]
    (install Tagged.descriptor IsPropertyDescriptor (VBool true) Tagged.initial)
  = Normal tt
      (put_own Tagged.C_prototype "y" (DataProperty (VNumber 7) false false false)
         (install Tagged.descriptor IsPropertyDescriptor (VBool true)
            Tagged.initial)).
Proof.
  rewrite (enhance_defines_the_described_property Tagged.prog 19
             (install Tagged.descriptor IsPropertyDescriptor (VBool true)
                Tagged.initial)
             Tagged.C 6 Tagged.C_prototype "y" [] Tagged.descriptor
             [Tagged.descriptor; ObjectPrototype] true true true
             false false false (DataProperty (VBool true) true true true)).
  - reflexivity.
  - reflexivity.
  - reflexivity.
  - chain_levels.
  - simpl. lia.
  - reflexivity.
  - reflexivity.
  - reflexivity.
  - reflexivity.
  - reflexivity.
  - reflexivity.
  - reflexivity.
Defined.


Lemma described_value_only h ls v vw ve vc :
  nearest h "value" ls = Some (DataProperty v vw ve vc) ->
  nearest h "writable" ls = None -> nearest h "enumerable" ls = None ->
  nearest h "configurable" ls = None ->
  nearest h "get" ls = None -> nearest h "set" ls = None ->
  data_fields h ls = true
  /\ described h ls = mkDescriptor (Some v) None None None None None.
Proof.
  intros Hv Hw He Hc Hg Hs. unfold data_fields, described, read_field.
  cbn [forallb]. rewrite Hv, Hw, He, Hc, Hg, Hs. split; reflexivity.
Qed.

(** X10.  A member given as [property({ value: v })] -- a tagged descriptor
    with a [value] and nothing else -- is installed read-only, not
    enumerable and not configurable, where a plain entry [v] would be
    writable, enumerable and configurable.  Assigning to that member
    through an object that inherits it then raises [TypeError] and changes
    nothing. *)
Theorem enhance_value_descriptor_is_read_only :
  forall prog n h c m t lsm key e ls v vw ve vc w en cf pw pe pc marker,
    m <> t -> chain h m lsm -> length lsm < n ->
    own_enumerable_keys h m = [key] ->
    own h m key = Some (DataProperty (VObject e) w en cf) ->
    chain h e ls -> length ls < n ->
    own h e IsPropertyDescriptor = Some marker ->
    nearest h "value" ls = Some (DataProperty v vw ve vc) ->
    nearest h "writable" ls = None -> nearest h "enumerable" ls = None ->
    nearest h "configurable" ls = None ->
    nearest h "get" ls = None -> nearest h "set" ls = None ->
    is_proxy (obj h c) = false ->
    own h c "prototype" = Some (DataProperty (VObject t) pw pe pc) ->
    is_proxy (obj h t) = false -> own h t key = None ->
    let h' := put_own t key (DataProperty v false false false) h in
    enhance (Call prog n) n (VObject c) (VObject m) h = Normal (VObject c) h'
    /\ forall x pre post u,
         chain h x (pre ++ t :: post) -> undeclared h key pre -> length pre < n ->
         assign (Call prog n) n (VObject x) key u h' = Abrupt TypeError h'.
Proof.
  intros prog n h c m t lsm key e ls v vw ve vc w en cf pw pe pc marker
    Hmt Hcm Hnm Hkeys Ho Hc Hn Hmark Hv Hw He Hcf Hg Hs Hkc Hproto Hkt Hfresh h'.
  assert (Hkm : is_proxy (obj h m) = false) by (eapply chain_not_proxy; eauto).
  assert (Hsame : same_except t h h') by apply same_except_put_own.
  destruct (described_value_only h ls v vw ve vc Hv Hw He Hcf Hg Hs) as [Hd Hdesc].
  split.
  - destruct (for_in_keys_total n h m lsm [] Hcm Hnm) as [ks Hks].
    destruct (for_in_keys_own n h m ks Hkm Hks) as (rest & -> & Hrest).
    assert (Hfor : for_in n (VObject m) h = Normal (key :: rest) h).
    { unfold for_in. now rewrite Hks, Hkeys. }
    unfold enhance. step Hfor.
    destruct n as [|n]; [lia|].
    erewrite bind_normal; [reflexivity|].
    rewrite (enhance_loop_described prog n h c m t key rest e ls
               w en cf pw pe pc marker); auto; try lia.
    + rewrite Hdesc. cbn. rewrite Hfresh. cbn.
      apply enhance_loop_nothing.
      * now rewrite (same_except_is_proxy t h h').
      * intros k Hin. rewrite (same_except_own t h h' m k Hsame Hmt). auto.
    + unfold read_field. now rewrite Hg.
    + unfold read_field. now rewrite Hs.
  - intros x pre post u Hx Hu Hlen.
    apply (assign_read_only (Call prog n) n h' x pre t post key v false false u).
    + eapply same_except_chain; eauto.
    + pose proof (chain_no_repeat _ _ _ _ _ Hx) as Hnr.
      unfold undeclared in *. rewrite Forall_forall in *. intros l Hl.
      rewrite (same_except_own t h h' l key Hsame).
      * now apply Hu.
      * intros ->. apply Hnr. now apply list_elem_of_In.
    + unfold h'. apply own_put_own_same.
      pose proof (chain_suffix _ _ _ _ _ Hx) as Ht. inversion Ht; assumption.
    + assumption.
Qed.


Lemma enhance_value_descriptor_is_read_only_witness :
  enhance (Call Constant.prog 20) 20 (VObject Constant.C) (VObject Constant.members)
    Constant.initial
  = Normal (VObject Constant.C)
      (put_own Constant.C_prototype "limit"
         (DataProperty (VNumber 7) false false false) Constant.initial)
  /\ assign (Call Constant.prog 20) 20 (VObject Constant.x) "limit" (VNumber 8)
       (put_own Constant.C_prototype "limit"
          (DataProperty (VNumber 7) false false false) Constant.initial)
     = Abrupt TypeError
         (put_own Constant.C_prototype "limit"
            (DataProperty (VNumber 7) false false false) Constant.initial).
Proof.
  destruct (enhance_value_descriptor_is_read_only Constant.prog 20 Constant.initial
              Constant.C Constant.members Constant.C_prototype
              [Constant.members; ObjectPrototype] "limit" Constant.descriptor
              [Constant.descriptor; ObjectPrototype] (VNumber 7) true true true
              true true true false false false (data (VBool true)))
    as [Hrun Hassign].
  - discriminate.
  - chain_levels.
  - simpl. lia.
  - reflexivity.
  - reflexivity.
  - chain_levels.
  - simpl. lia.
  - reflexivity.
  - reflexivity.
  - reflexivity.
  - reflexivity.
  - reflexivity.
  - reflexivity.
  - reflexivity.
  - reflexivity.
  - reflexivity.
  - reflexivity.
  - reflexivity.
  - split; [exact Hrun|].
    apply (Hassign Constant.x [Constant.x] [ObjectPrototype]).
    + chain_levels.
    + repeat constructor.
    + simpl. lia.
Defined.


(** ** [extend] *)

Lemma obj_app_nth (h hs : heap) i :
  obj (h ++ hs) (length h + i) = default empty_object (hs !! i).
Proof.
  unfold obj. rewrite lookup_app_r by lia.
  now replace (length h + i - length h) with i by lia.
Qed.

Lemma own_installs_fresh h0 s t ks h k v :
  t < length h -> In k ks -> enumerable_field h0 s k = Some v ->
  own h t k = None \/ own h t k = Some (DataProperty v true true true) ->
  own (installs h0 s t ks h) t k = Some (DataProperty v true true true).
Proof.
  revert h. induction ks as [|a ks IH]; intros h Ht Hin Hv Ho; simpl;
    [destruct Hin|].
  assert (Hlen : forall u, t < length (install t a u h))
    by (intros u; unfold install, put_own; now rewrite length_alter).
  destruct (String.eqb_spec a k) as [->|Hne].
  - rewrite Hv.
    assert (Hk : own (install t k v h) t k = Some (DataProperty v true true true)).
    { unfold install. rewrite own_put_own_same by assumption.
      destruct Ho as [-> | ->]; reflexivity. }
    destruct (in_dec string_dec k ks) as [Hk'|Hk'].
    + apply IH; auto.
    + rewrite own_installs_untouched by (now left). exact Hk.
  - destruct Hin as [->|Hin]; [congruence|].
    destruct (enumerable_field h0 s a) as [u|]; apply IH; auto.
    now rewrite own_install_other.
Qed.

Section ExtendFacts.

Variable Call : value -> value -> list value -> M value.

Lemma extend_loop_installs n h0 c m t ls pw pe pc ks :
  c <> t -> m <> t ->
  is_proxy (obj h0 c) = false ->
  own h0 c "prototype" = Some (DataProperty (VObject t) pw pe pc) ->
  is_proxy (obj h0 m) = false ->
  chain h0 t ls -> length ls < n ->
  (forall k, In k ks -> own h0 m k = None \/ enumerable_field h0 m k <> None) ->
  (forall k v, reserved k = false -> enumerable_field h0 m k = Some v ->
               plain_member h0 t v = true
               /\ accepts_write (nearest h0 k ls) = true) ->
  forall h, same_except t h0 h ->
  (forall k, accepts_write (nearest h0 k ls) = true ->
             accepts_write (nearest h k ls) = true) ->
  extend_loop Call n (VObject c) (VObject m) ks h
  = Normal tt (installs h0 m t (List.filter (fun k => negb (reserved k)) ks) h).
Proof.
  intros Hct Hmt Hkc Hproto Hkm Hc Hn Hks Hval.
  assert (Hn0 : exists n', n = S n')
    by (destruct n; [destruct ls; simpl in Hn; lia|eauto]).
  destruct Hn0 as [n' ->].
  induction ks as [|k ks IH]; intros h Hsame Hmono; [reflexivity|].
  assert (Hkm' : is_proxy (obj h m) = false)
    by (rewrite (same_except_is_proxy t h0 h); assumption).
  assert (Hom : own h m k = own h0 m k) by (now apply same_except_own with t).
  assert (IH' : forall h', same_except t h0 h' ->
            (forall q, accepts_write (nearest h0 q ls) = true ->
                       accepts_write (nearest h' q ls) = true) ->
            extend_loop Call (S n') (VObject c) (VObject m) ks h'
            = Normal tt
                (installs h0 m t (List.filter (fun k => negb (reserved k)) ks) h')).
  { apply IH. intros q Hq. apply Hks. now right. }
  cbn [List.filter]. destruct (reserved k) eqn:Er; cbn [negb].
  - rewrite extend_loop_reserved; auto.
    unfold reserved in Er. apply orb_true_iff in Er.
    destruct Er as [Er|Er]; apply String.eqb_eq in Er; auto.
  - cbn [installs]. destruct (Hks k (or_introl eq_refl)) as [Hnone|Hsome].
    + rewrite extend_loop_skip by congruence.
      unfold enumerable_field. rewrite Hnone. now apply IH'.
    + destruct (enumerable_field h0 m k) as [v|] eqn:Ef; [|congruence].
      destruct (Hval k v Er Ef) as [Hpm Hacc].
      unfold enumerable_field in Ef.
      destruct (own h0 m k) as [[v' w [|] cf|]|] eqn:Eo; try discriminate.
      injection Ef as ->.
      unfold reserved in Er. apply orb_false_iff in Er. destruct Er as [Er1 Er2].
      apply String.eqb_neq in Er1. apply String.eqb_neq in Er2.
      rewrite (extend_loop_entry Call n' h (VObject c) m k ks v w true cf)
        by congruence.
      assert (Hmark : isMarkedPropertyDescriptor (S n') v h = Normal false h).
      { destruct v; cbn [plain_member] in Hpm; try discriminate; try reflexivity.
        apply andb_true_iff in Hpm. destruct Hpm as [Hpm Hlt].
        apply andb_true_iff in Hpm. destruct Hpm as [Hke Hoe].
        apply negb_true_iff in Hlt. apply Nat.eqb_neq in Hlt.
        rewrite isMarkedPropertyDescriptor_object
          by (rewrite (same_except_is_proxy t h0 h); auto;
              now destruct (is_proxy (obj h0 l))).
        rewrite (same_except_own t h0 h l _ Hsame Hlt).
        now destruct (present (own h0 l IsPropertyDescriptor)). }
      step Hmark.
      assert (Hinstall :
        (let* prototype := GetV Call (S n') (VObject c) "prototype" in
         assign Call (S n') prototype k v) h = Normal tt (install t k v h)).
      { assert (Hget : GetV Call (S n') (VObject c) "prototype" h
                       = Normal (VObject t) h).
        { apply GetV_own_data with pw pe pc.
          - rewrite (same_except_is_proxy t h0 h); assumption.
          - rewrite (same_except_own t h0 h c _ Hsame Hct). assumption. }
        step Hget. apply (assign_accepts Call (S n') h t ls k v); auto.
        eapply same_except_chain; eauto. }
      step Hinstall. apply IH'.
      * eapply same_except_trans; [eassumption|apply same_except_install].
      * intros q Hq. apply accepts_write_install; auto.
        eapply same_except_chain; eauto.
Qed.

(** [extend] up to the installation of the members. *)
Lemma extend_allocation n h B D bp pw pe pc :
  is_proxy (obj h B) = false ->
  own h B "prototype" = Some (DataProperty (VObject bp) pw pe pc) ->
  extend Call (S (S n)) (VObject B) D h
  = (let* keys := for_in (S (S n)) D in
     extend_loop Call (S (S n)) (VObject (length h)) D keys ;;
     ret (VObject (length h))) (h ++ extend_allocates h (VObject B) D bp).
Proof.
  intros Hk Ho. pose proof (own_Some_valid _ _ _ _ Ho) as HB.
  unfold extend. unfold bind at 1. unfold new_function at 1.
  set (F0 := mkObject (Some FunctionPrototype)
               [("prototype", DataProperty (VObject (S (length h))) true false false)]
               (Callable (DerivedClass (VObject B) D) true)).
  set (P0 := mkObject (Some ObjectPrototype)
               [("constructor", DataProperty (VObject (length h)) true false true)]
               Ordinary).
  assert (Hget : GetV Call (S (S n)) (VObject B) "prototype" (h ++ [F0; P0])
                 = Normal (VObject bp) (h ++ [F0; P0])).
  { apply GetV_own_data with pw pe pc.
    - now rewrite obj_app_old.
    - now rewrite own_app_old. }
  step Hget.
  assert (Hcreate : ObjectCreate (S (S n)) (VObject bp) (h ++ [F0; P0])
                    = Normal (VObject (S (S (length h))))
                        (h ++ [F0; P0; mkObject (Some bp) [] Ordinary])).
  { unfold ObjectCreate, bind, new_object, ret.
    rewrite length_app. cbn [length]. rewrite <- app_assoc.
    replace (length h + 2) with (S (S (length h))) by lia. reflexivity. }
  step Hcreate.
  set (P := mkObject (Some bp) [] Ordinary).
  assert (HF : obj (h ++ [F0; P0; P]) (length h) = F0).
  { pose proof (obj_app_nth h [F0; P0; P] 0) as E.
    now rewrite Nat.add_0_r in E. }
  assert (Hset : assign Call (S (S n)) (VObject (length h)) "prototype"
                   (VObject (S (S (length h)))) (h ++ [F0; P0; P])
                 = Normal tt (h ++ extend_allocates h (VObject B) D bp)).
  { unfold assign.
    erewrite bind_normal;
      [|apply (SetProp_own_writable Call n _ (length h) "prototype"
                 (VObject (S (S (length h)))) (VObject (S (length h))) false false);
        [unfold is_proxy; now rewrite HF|unfold own; now rewrite HF]].
    cbn beta iota. unfold ret. f_equal. unfold put_own.
    pose proof (alter_app_r
                  (set_props (put "prototype"
                                (DataProperty (VObject (S (S (length h))))
                                   true false false)))
                  h [F0; P0; P] 0) as E.
    rewrite Nat.add_0_r in E. exact E. }
  step Hset. reflexivity.
Qed.

End ExtendFacts.


Lemma plain_fields_app_heap h hs l :
  l < length h -> plain_fields h l -> plain_fields (h ++ hs) l.
Proof. intros Hl. unfold plain_fields. now rewrite obj_app_old. Qed.

(** The class [extend] returns. *)
Lemma extend_class_shape :
  forall prog n h B D bp lsb lsd pw pe pc,
    is_proxy (obj h B) = false ->
    own h B "prototype" = Some (DataProperty (VObject bp) pw pe pc) ->
    chain h bp lsb -> S (length lsb) < n ->
    plain_fields h D -> chain h D lsd -> length lsd < n ->
    (forall k v, reserved k = false -> enumerable_field h D k = Some v ->
                 untagged h v = true
                 /\ accepts_write (nearest h k lsb) = true) ->
    exists h',
      extend (Call prog n) n (VObject B) (VObject D) h
      = Normal (VObject (length h)) h'
      /\ length h' = 3 + length h
      /\ (forall l, l < length h -> obj h' l = obj h l)
      /\ kind (obj h' (length h))
         = Callable (DerivedClass (VObject B) (VObject D)) true
      /\ own h' (length h) "prototype"
         = Some (DataProperty (VObject (S (S (length h)))) true false false)
      /\ proto (obj h' (S (S (length h)))) = Some bp
      /\ chain h' (S (S (length h))) (S (S (length h)) :: lsb)
      /\ (forall k v, reserved k = false -> enumerable_field h D k = Some v ->
            own h' (S (S (length h))) k = Some (DataProperty v true true true))
      /\ (forall k, reserved k = true \/ enumerable_field h D k = None ->
            own h' (S (S (length h))) k = None).
Proof.
  intros prog n h B D bp lsb lsd pw pe pc Hk Ho Hcb Hnb Hplain Hcd Hnd Hval.
  set (P := S (S (length h))). set (F := length h).
  set (h3 := h ++ extend_allocates h (VObject B) (VObject D) bp).
  assert (HD : D < length h) by (destruct Hcd; assumption).
  assert (Hlen3 : length h3 = 3 + length h)
    by (unfold h3; rewrite length_app; simpl; lia).
  assert (HobjF : obj h3 F = mkObject (Some FunctionPrototype)
            [("prototype", DataProperty (VObject P) true false false)]
            (Callable (DerivedClass (VObject B) (VObject D)) true)).
  { pose proof (obj_app_nth h (extend_allocates h (VObject B) (VObject D) bp) 0) as E.
    now rewrite Nat.add_0_r in E. }
  assert (HobjP : obj h3 P = mkObject (Some bp) [] Ordinary).
  { pose proof (obj_app_nth h (extend_allocates h (VObject B) (VObject D) bp) 2) as E.
    replace (length h + 2) with P in E by (unfold P; lia). exact E. }
  assert (Hold : forall l, l < length h -> obj h3 l = obj h l)
    by (intros l Hl; unfold h3; now apply obj_app_old).
  assert (HownP : forall k, own h3 P k = None)
    by (intros k; unfold own; now rewrite HobjP).
  assert (Hchain : chain h3 P (P :: lsb)).
  { eapply chain_link.
    - rewrite Hlen3. unfold P. lia.
    - unfold is_proxy. now rewrite HobjP.
    - now rewrite HobjP.
    - now apply chain_app_heap. }
  assert (Hnear : forall k, nearest h3 k (P :: lsb) = nearest h k lsb).
  { intros k. cbn [nearest]. rewrite HownP. unfold h3.
    apply nearest_app_heap. eapply chain_levels_valid; eauto. }
  assert (Hfield : forall k, enumerable_field h3 D k = enumerable_field h D k).
  { intros k. unfold enumerable_field, h3. now rewrite own_app_old. }
  assert (HkD : is_proxy (obj h3 D) = false).
  { rewrite Hold by assumption. eapply chain_not_proxy; eauto. }
  assert (Hplain3 : plain_fields h3 D) by (now apply plain_fields_app_heap).
  destruct (for_in_keys_total n h3 D lsd []) as [ks Hks];
    [now apply chain_app_heap|assumption|].
  destruct (for_in_keys_own n h3 D ks HkD Hks) as (rest & -> & Hrest).
  set (ks := own_enumerable_keys h3 D ++ rest) in *.
  set (h' := installs h3 D P (List.filter (fun k => negb (reserved k)) ks) h3).
  assert (Hsame : same_except P h3 h') by apply same_except_installs.
  assert (HPF : F <> P) by (unfold F, P; lia).
  exists h'. split; [|split; [|split; [|split; [|split; [|split; [|split; [|split]]]]]]].
  - assert (Hn0 : exists n', n = S (S n')).
    { destruct n as [|[|n']]; try lia. eauto. }
    destruct Hn0 as [n' ->].
    rewrite (extend_allocation (Call prog (S (S n'))) n' h B (VObject D) bp pw pe pc)
      by assumption.
    fold h3 F.
    assert (Hfor : for_in (S (S n')) (VObject D) h3 = Normal ks h3)
      by (unfold for_in; now rewrite Hks).
    step Hfor. erewrite bind_normal; [reflexivity|].
    apply (extend_loop_installs (Call prog (S (S n'))) (S (S n')) h3 F D P
             (P :: lsb) true false false); auto.
    + unfold P. lia.
    + unfold is_proxy. now rewrite HobjF.
    + unfold own. now rewrite HobjF.
    + intros k Hin. apply in_app_or in Hin. destruct Hin as [Hin|Hin].
      * right. destruct (own_enumerable_keys_field h3 D k Hplain3 Hin) as [v ->].
        discriminate.
      * left. now apply Hrest.
    + intros k v Hr Hv. rewrite Hfield in Hv.
      destruct (Hval k v Hr Hv) as [Hu Hacc]. split; [|now rewrite Hnear].
      destruct v; cbn [untagged plain_member] in *; try discriminate;
        try reflexivity.
      apply andb_true_iff in Hu. destruct Hu as [Hu Hmark].
      apply andb_true_iff in Hu. destruct Hu as [Hl Hprox].
      apply Nat.ltb_lt in Hl.
      unfold own in *. rewrite (Hold l Hl). rewrite Hprox, Hmark.
      cbn [andb]. apply negb_true_iff. apply Nat.eqb_neq. unfold P. lia.
    + apply same_except_refl.
  - destruct Hsame as (L & _). now rewrite L.
  - intros l Hl. destruct Hsame as (_ & O & _).
    rewrite O by (unfold P; lia). now apply Hold.
  - destruct Hsame as (_ & O & _). rewrite (O F HPF). now rewrite HobjF.
  - rewrite (same_except_own P h3 h' F "prototype" Hsame HPF).
    unfold own. now rewrite HobjF.
  - rewrite (same_except_proto P h3 h' P Hsame). now rewrite HobjP.
  - eapply same_except_chain; eauto.
  - intros k v Hr Hv. apply own_installs_fresh.
    + rewrite Hlen3. unfold P. lia.
    + apply filter_In. split; [|now rewrite Hr].
      apply in_or_app. left. rewrite <- Hfield in Hv.
      eapply enumerable_field_own_enumerable_keys; eauto.
    + now rewrite Hfield.
    + left. apply HownP.
  - intros k Hk'. unfold h'. rewrite own_installs_untouched; [apply HownP|].
    destruct Hk' as [Hr|Hn'].
    + left. intros Hin. apply filter_In in Hin. destruct Hin as [_ Hin].
      rewrite Hr in Hin. discriminate.
    + right. now rewrite Hfield.
Qed.

(** X11.  [extend(B, D)] allocates three objects and touches no existing
    one.  It returns a new constructor function that records [B] and [D];
    the function's [prototype] is a new object whose parent is
    [B.prototype], so that its chain is itself followed by the chain of
    [B.prototype] (the prototype object the function came with is replaced
    and left unused).  Every own enumerable entry of [D] other than
    [preConstructor] and [constructor] is on the new prototype as a
    writable, enumerable, configurable data property; the two reserved keys
    and the names [D] does not own are not, so that the [constructor] seen
    through the new prototype is the one inherited from [B.prototype].
    The entries are plain values here (none is [null], [undefined] or a
    tagged descriptor) and no ancestor prototype declares one of the names
    read-only or as an accessor. *)
Theorem extend_builds_the_class :
  forall prog n h B D bp lsb lsd pw pe pc,
    is_proxy (obj h B) = false ->
    own h B "prototype" = Some (DataProperty (VObject bp) pw pe pc) ->
    chain h bp lsb -> S (length lsb) < n ->
    plain_fields h D -> chain h D lsd -> length lsd < n ->
    (forall k v, reserved k = false -> enumerable_field h D k = Some v ->
                 untagged h v = true
                 /\ accepts_write (nearest h k lsb) = true) ->
    exists h',
      extend (Call prog n) n (VObject B) (VObject D) h
      = Normal (VObject (length h)) h'
      /\ length h' = 3 + length h
      /\ (forall l, l < length h -> obj h' l = obj h l)
      /\ kind (obj h' (length h))
         = Callable (DerivedClass (VObject B) (VObject D)) true
      /\ own h' (length h) "prototype"
         = Some (DataProperty (VObject (S (S (length h)))) true false false)
      /\ proto (obj h' (S (S (length h)))) = Some bp
      /\ chain h' (S (S (length h))) (S (S (length h)) :: lsb)
      /\ (forall k v, reserved k = false -> enumerable_field h D k = Some v ->
            own h' (S (S (length h))) k = Some (DataProperty v true true true))
      /\ (forall k, reserved k = true \/ enumerable_field h D k = None ->
            own h' (S (S (length h))) k = None).
Proof. exact extend_class_shape. Qed.

Lemma extend_builds_the_class_witness :
  exists h',
    extend (Call Blueprint.prog 20) 20 (VObject Blueprint.Base)
      (VObject Blueprint.descriptor) Blueprint.initial
    = Normal (VObject 9) h'
    /\ own h' 11 "sides" = Some (DataProperty (VNumber 4) true true true)
    /\ own h' 11 "constructor" = None.
Proof.
  destruct (extend_builds_the_class Blueprint.prog 20 Blueprint.initial
              Blueprint.Base Blueprint.descriptor Blueprint.Base_prototype
              [Blueprint.Base_prototype; ObjectPrototype]
              [Blueprint.descriptor; ObjectPrototype] false false false)
    as (h' & Hrun & _ & _ & _ & _ & _ & _ & Hin & Hout).
  - reflexivity.
  - reflexivity.
  - chain_levels.
  - simpl. lia.
  - split.
    + repeat (constructor; [rewrite list_elem_of_In; simpl; intuition discriminate|]).
      constructor.
    + repeat constructor.
  - chain_levels.
  - simpl. lia.
  - intros k v Hr Hv. unfold enumerable_field, own in Hv.
    change (props (obj Blueprint.initial Blueprint.descriptor))
      with [("preConstructor", data (VObject 6)); ("sides", data (VNumber 4));
            ("constructor", data (VObject 7)); ("area", data (VObject Blueprint.area))]
      in Hv.
    cbn [assoc] in Hv.
    repeat match type of Hv with
           | context [String.eqb ?a k] =>
               destruct (String.eqb_spec a k) as [<-|_]
           end; try discriminate; injection Hv as <-; try discriminate;
      split; reflexivity.
  - exists h'. split; [exact Hrun|]. split.
    + apply Hin; reflexivity.
    + apply Hout. now left.
Defined.


(** X12.  [extend] does not check its base class; it fails when
    [baseClass.prototype] is neither an object nor [null] -- the base is
    [undefined], [null] or a primitive, or a function without [prototype]
    such as an arrow function or a method -- with the [TypeError] of
    [Object.create].  By then the new function and the prototype object it
    came with are allocated; no existing object is changed. *)
Theorem extend_needs_a_base_prototype :
  forall prog n h baseClass D,
    (is_object baseClass = false
     \/ exists B ls,
          baseClass = VObject B /\ chain h B ls /\ length ls <= n
          /\ data_or_absent (nearest h "prototype" ls) = true
          /\ usable_prototype (default VUndefined (read_field h ls "prototype"))
             = false) ->
    exists F0 P0,
      extend (Call prog n) n baseClass D h = Abrupt TypeError (h ++ [F0; P0]).
Proof.
  intros prog n h baseClass D Hbase. unfold extend. unfold bind at 1.
  unfold new_function at 1. do 2 eexists.
  destruct Hbase as [Hb|(B & ls & -> & Hc & Hn & Hd & Hu)].
  - destruct baseClass; try discriminate; reflexivity.
  - match goal with |- _ ?h1 = _ => set (h' := h1) end.
    assert (Hget : GetV (Call prog n) n (VObject B) "prototype" h'
                   = Normal (default VUndefined (read_field h ls "prototype")) h').
    { unfold GetV.
      rewrite (Get_nearest_data (Call prog n) n h' B ls "prototype" (VObject B)).
      - unfold read_field, h'.
        now rewrite nearest_app_heap by (eapply chain_levels_valid; eauto).
      - now apply chain_app_heap.
      - assumption.
      - unfold h'.
        now rewrite nearest_app_heap by (eapply chain_levels_valid; eauto). }
    step Hget.
    destruct (default VUndefined (read_field h ls "prototype"));
      try discriminate; reflexivity.
Qed.

Lemma extend_needs_a_base_prototype_witness :
  exists F0 P0,
    extend (Call Levels.prog 20) 20 (VObject Levels.actionA) (VObject Levels.membersB)
      Levels.initial
    = Abrupt TypeError (Levels.initial ++ [F0; P0]).
Proof.
  apply (extend_needs_a_base_prototype Levels.prog 20 Levels.initial).
  right. exists Levels.actionA, [Levels.actionA; FunctionPrototype; ObjectPrototype].
  split; [reflexivity|]. split; [chain_levels|]. split; [simpl; lia|].
  split; reflexivity.
Defined.


(** ** Construction through a class made by [extend]: failures *)

Section ConstructFailures.

Variable Call : value -> value -> list value -> M value.

Lemma IsConstructor_not_proxy n h l :
  is_proxy (obj h l) = false ->
  IsConstructor (S n) (VObject l) h
  = Normal (match kind (obj h l) with Callable _ c => c | _ => false end) h.
Proof.
  intros Hk. unfold IsConstructor, bind, gets.
  now rewrite resolve_ordinary by assumption.
Qed.

Lemma Reflect_construct_not_a_list n h b dc r :
  is_proxy (obj h b) = false -> is_proxy (obj h dc) = false ->
  is_object r = false ->
  Reflect_construct Call (S n) (VObject b) (inr r) (VObject dc) h
  = Abrupt TypeError h.
Proof.
  intros Hb Hdc Hr. unfold Reflect_construct.
  step (IsConstructor_not_proxy n h b Hb).
  destruct (match kind (obj h b) with Callable _ c => c | _ => false end);
    [|reflexivity].
  cbn [negb]. step (IsConstructor_not_proxy n h dc Hdc).
  destruct (match kind (obj h dc) with Callable _ c => c | _ => false end);
    [|reflexivity].
  cbn [negb]. apply bind_abrupt. destruct r; try discriminate; reflexivity.
Qed.

End ConstructFailures.

(** X13.  The [preConstructor] of a class made by [extend] decides whether
    anything is built.  If it raises, the construction raises the same
    exception; if it returns something that is not an object ([undefined]
    when the [return] is forgotten, a number, ...), the construction raises
    [TypeError].  In both cases the heap is the one the [preConstructor]
    left: the base construction function has not run, and neither has the
    descriptor's [constructor]. *)
Theorem construction_stops_at_the_preConstructor :
  forall prog n h dc b D A P0 w e c pre,
    is_proxy (obj h dc) = false ->
    kind (obj h dc) = Callable (DerivedClass (VObject b) D) true ->
    own h dc "prototype" = Some (DataProperty (VObject P0) w e c) ->
    GetV (Call prog (S n)) (S n) D "preConstructor"
      ((h ++ [mkObject (Some P0) [] Ordinary])
       ++ [mkObject (Some ObjectPrototype) [] Ordinary])
    = Normal pre
        ((h ++ [mkObject (Some P0) [] Ordinary])
         ++ [mkObject (Some ObjectPrototype) [] Ordinary]) ->
    to_boolean pre = true ->
    (forall x h2,
        Call prog (S n) pre (VObject (S (length h))) A
          ((h ++ [mkObject (Some P0) [] Ordinary])
           ++ [mkObject (Some ObjectPrototype) [] Ordinary])
        = Abrupt x h2 ->
        New prog (S (S n)) (VObject dc) A h = Abrupt x h2)
    /\ (forall r h2,
          Call prog (S n) pre (VObject (S (length h))) A
            ((h ++ [mkObject (Some P0) [] Ordinary])
             ++ [mkObject (Some ObjectPrototype) [] Ordinary])
          = Normal r h2 ->
          is_object r = false ->
          is_proxy (obj h2 b) = false -> is_proxy (obj h2 dc) = false ->
          New prog (S (S n)) (VObject dc) A h = Abrupt TypeError h2).
Proof.
  intros prog n h dc b D A P0 w e c pre Hk Hkind Hproto Hpre Htrue.
  set (h0 := h ++ [mkObject (Some P0) [] Ordinary]) in *.
  assert (Hcourier : length h0 = S (length h))
    by (unfold h0; rewrite length_app; simpl; lia).
  split.
  - intros x h2 Hcall.
    rewrite (New_derived prog n h dc (VObject b) D A P0 w e c) by assumption.
    fold h0.
    assert (Hbody : derivedClass_body (Call prog (S n)) (S n) (VObject dc)
                      (VObject b) D A h0 = Abrupt x h2).
    { unfold derivedClass_body. step_refl. step Hpre. apply bind_abrupt.
      rewrite Htrue. step Hpre. apply bind_abrupt. now rewrite Hcourier. }
    now rewrite Hbody.
  - intros r h2 Hcall Hr Hb Hdc.
    rewrite (New_derived prog n h dc (VObject b) D A P0 w e c) by assumption.
    fold h0.
    assert (Hbody : derivedClass_body (Call prog (S n)) (S n) (VObject dc)
                      (VObject b) D A h0 = Abrupt TypeError h2).
    { unfold derivedClass_body. step_refl. step Hpre.
      assert (Hargs :
        (if to_boolean pre
         then let* preConstructor := GetV (Call prog (S n)) (S n) D "preConstructor" in
              let* r := Call prog (S n) preConstructor (VObject (length h0)) A in
              ret (inr r)
         else ret (inl A))
          (h0 ++ [mkObject (Some ObjectPrototype) [] Ordinary])
        = Normal (inr r) h2).
      { rewrite Htrue. step Hpre. rewrite Hcourier. step Hcall. reflexivity. }
      step Hargs. apply bind_abrupt.
      now apply Reflect_construct_not_a_list. }
    now rewrite Hbody.
Qed.


Lemma construction_stops_at_the_preConstructor_witness :
  New Forgetful.prog 20 (VObject Forgetful.Derived) [VNumber 1] Forgetful.defined
  = Abrupt TypeError Forgetful.after_pre
  /\ own Forgetful.after_pre Forgetful.courier "tag"
     = Some (data (VString "pre")).
Proof.
  split; [|reflexivity].
  apply (proj2 (construction_stops_at_the_preConstructor Forgetful.prog 18
                  Forgetful.defined Forgetful.Derived Forgetful.Base
                  (VObject Forgetful.descriptor) [VNumber 1]
                  Forgetful.Derived_prototype true false false
                  (VObject Forgetful.preConstructor)
                  eq_refl eq_refl eq_refl eq_refl eq_refl) VUndefined).
  - vm_compute. reflexivity.
  - reflexivity.
  - reflexivity.
  - reflexivity.
Defined.


(** ** Writing through the wrapper *)

Section WrapperWrites.

Variable Call : value -> value -> list value -> M value.

Lemma set_on_receiver_wrapper n h w x p v :
  obj h w = wrapper x -> is_proxy (obj h x) = false ->
  accepts_write (own h x p) = true ->
  set_on_receiver (S (S n)) (VObject w) p v h = Normal true (install x p v h).
Proof.
  intros Hw Hk Ha. unfold set_on_receiver, bind, resolve, gets.
  assert (Ht : target_of (S (S n)) h w = Some x).
  { change (target_of (S (S n)) h w)
      with (match kind (obj h w) with
            | SuperProxy t => target_of (S n) h t
            | _ => Some w
            end).
    rewrite Hw. cbn [kind wrapper]. now apply target_of_ordinary. }
  rewrite Ht. unfold install.
  destruct (own h x p) as [[v0 wr e c|g s e c]|]; cbn [accepts_write] in Ha;
    try discriminate; [subst wr|]; reflexivity.
Qed.

Lemma SetProp_accepts_wrapper n h w x l ls p v :
  obj h w = wrapper x -> is_proxy (obj h x) = false ->
  accepts_write (own h x p) = true ->
  chain h l ls -> accepts_write (nearest h p ls) = true ->
  S (length ls) < n ->
  SetProp Call n l p v (VObject w) h = Normal true (install x p v h).
Proof.
  intros Hw Hk Ha Hc. revert n.
  induction Hc as [l Hv Hkl Hp|l q ls Hv Hkl Hp Hq IH]; intros n Hn Hlen;
    simpl in Hlen; (destruct n as [|n]; [lia|]);
    rewrite SetProp_step by assumption; cbn [nearest] in Hn;
    destruct (own h l p) as [[v0 wr e c|g s e c]|] eqn:E;
    cbn [accepts_write] in Hn; try discriminate; try subst wr; rewrite ?Hp;
    try (destruct n as [|[|n]]; try lia; now apply set_on_receiver_wrapper).
  apply IH; auto. lia.
Qed.

End WrapperWrites.

(** X14.  The wrapper of [$super] intercepts reads only.  An assignment
    through it is an assignment on the wrapped object: it writes an own
    property of that object, under the rules of a plain assignment.  A read
    of the same name through the wrapper does not return what was written
    but, as for every name, a new dispatcher function; a read on the object
    itself returns it. *)
Theorem wrapper_write_lands_on_the_object :
  forall prog n h w x ls p v,
    obj h w = wrapper x -> chain h x ls ->
    accepts_write (nearest h p ls) = true ->
    S (S (length ls)) < n ->
    let h' := install x p v h in
    assign (Call prog n) n (VObject w) p v h = Normal tt h'
    /\ GetV (Call prog n) n (VObject x) p h' = Normal v h'
    /\ GetV (Call prog n) n (VObject w) p h'
       = Normal (VObject (length h')) (h' ++ [arrow x p]).
Proof.
  intros prog n h w x ls p v Hw Hc Ha Hn h'.
  assert (Hk : is_proxy (obj h x) = false) by (eapply chain_not_proxy; eauto).
  assert (Hx : x < length h) by (destruct Hc; assumption).
  assert (Hown : accepts_write (own h x p) = true).
  { destruct (chain_head _ _ _ Hc) as [ls' ->]. cbn [nearest] in Ha.
    destruct (own h x p); [assumption|reflexivity]. }
  assert (Hs : same_except x h h') by apply same_except_install.
  assert (Hwx : w <> x).
  { intros ->. unfold is_proxy in Hk. now rewrite Hw in Hk. }
  assert (Hk' : is_proxy (obj h' x) = false)
    by (now rewrite (same_except_is_proxy x h h')).
  assert (Hwritten : own h' x p = Some (written v (own h x p))).
  { unfold h', install. now apply own_put_own_same. }
  destruct n as [|[|n]]; try lia.
  split; [|split].
  - unfold assign.
    assert (Hset : SetProp (Call prog (S (S n))) (S (S n)) w p v (VObject w) h
                   = Normal true h').
    { cbn [SetProp]. rewrite Hw. cbn [kind wrapper].
      apply (SetProp_accepts_wrapper (Call prog (S (S n))) (S n) h w x x ls p v);
        auto. lia. }
    step Hset. reflexivity.
  - destruct (own h x p) as [[v0 wr e c|g s e c]|] eqn:E;
      cbn [written] in Hwritten;
      eapply GetV_own_data; eauto.
  - apply wrapper_get.
    + destruct Hs as (_ & O & _). now rewrite (O w Hwx).
    + destruct Hs as (L & _). now rewrite L.
    + assumption.
    + rewrite Hwritten.
      destruct (own h x p) as [[v0 [|] e c|g s e c]|]; cbn [accepts_write] in Hown;
        try discriminate; reflexivity.
Qed.

Lemma wrapper_write_lands_on_the_object_witness :
  assign (Call Levels.prog 20) 20 (VObject Wrapped.w) "action" (VNumber 1)
    Wrapped.levels
  = Normal tt (install Levels.c "action" (VNumber 1) Wrapped.levels).
Proof.
  apply (wrapper_write_lands_on_the_object Levels.prog 20 Wrapped.levels
           Wrapped.w Levels.c
           [Levels.c; Levels.C_prototype; Levels.B_prototype; Levels.A_prototype;
            ObjectPrototype] "action" (VNumber 1)).
  - reflexivity.
  - chain_levels.
  - reflexivity.
  - simpl. lia.
Defined.


(** X15.  [$super] applied to a wrapper does not give a wrapper.  The test
    for the cache looks through the wrapper and finds the cache of the
    wrapped object, and the read of [$SuperProxy] that follows is a read
    through the wrapper: the result is a new dispatcher function for a
    method named [$SuperProxy], so [$super($super(x))] is neither [x]'s
    wrapper nor a wrapper one level further up. *)
Theorem super_of_a_wrapper_is_a_dispatcher :
  forall prog n h w x ls,
    obj h w = wrapper x -> chain h x ls ->
    present (nearest h SuperProxyField ls) = true ->
    locked (own h x SuperProxyField) = false ->
    S (length ls) < n ->
    super (Call prog n) n (VObject w) h
    = Normal (VObject (length h)) (h ++ [arrow x SuperProxyField]).
Proof.
  intros prog n h w x ls Hw Hc Hp Hl Hn.
  destruct n as [|[|n]]; try lia.
  unfold super, has_in.
  assert (Hhas : HasProperty (S (S n)) w SuperProxyField h = Normal true h).
  { remember (S n) as m eqn:Em. cbn [HasProperty]. rewrite Hw.
    cbn [kind wrapper]. subst m.
    rewrite (HasProperty_chain (S n) h x ls SuperProxyField Hc) by lia.
    now rewrite existsb_present_nearest, Hp. }
  step Hhas. apply wrapper_get; auto.
  - destruct Hc; assumption.
  - eapply chain_not_proxy; eauto.
Qed.

Lemma super_of_a_wrapper_is_a_dispatcher_witness :
  super (Call Levels.prog 20) 20 (VObject Wrapped.w) Wrapped.levels
  = Normal (VObject (length Wrapped.levels))
      (Wrapped.levels ++ [arrow Levels.c SuperProxyField]).
Proof.
  apply (super_of_a_wrapper_is_a_dispatcher Levels.prog 20 Wrapped.levels
           Wrapped.w Levels.c
           [Levels.c; Levels.C_prototype; Levels.B_prototype; Levels.A_prototype;
            ObjectPrototype]).
  - reflexivity.
  - chain_levels.
  - reflexivity.
  - reflexivity.
  - simpl. lia.
Defined.


(** ** The attributes of an installed member *)

Lemma written_again v d : written v (Some (written v d)) = written v d.
Proof. now destruct d as [[v0 w e c|g s e c]|]. Qed.

Lemma own_installs_exact h0 s t ks h k v :
  t < length h -> In k ks -> enumerable_field h0 s k = Some v ->
  own (installs h0 s t ks h) t k = Some (written v (own h t k)).
Proof.
  revert h. induction ks as [|a ks IH]; intros h Ht Hin Hv; simpl;
    [destruct Hin|].
  assert (Hlen : forall u, t < length (install t a u h))
    by (intros u; unfold install, put_own; now rewrite length_alter).
  destruct (String.eqb_spec a k) as [->|Hne].
  - rewrite Hv.
    assert (Hk : own (install t k v h) t k = Some (written v (own h t k)))
      by (unfold install; now apply own_put_own_same).
    destruct (in_dec string_dec k ks) as [Hk'|Hk'].
    + rewrite IH by auto. now rewrite Hk, written_again.
    + now rewrite own_installs_untouched by (now left).
  - destruct Hin as [->|Hin]; [congruence|].
    destruct (enumerable_field h0 s a) as [u|]; rewrite IH by auto;
      [|reflexivity].
    now rewrite own_install_other.
Qed.

(** X16.  A plain member that [enhance] puts over a member the prototype
    already owns replaces the value only: the member keeps its enumerable
    and configurable attributes, so a method that was not enumerable (as
    the methods of a class body are) stays hidden from [for-in].  A member
    under a name the prototype does not own -- new, or only inherited from
    an ancestor -- becomes a writable, enumerable, configurable own
    property. *)
Theorem enhance_keeps_the_attributes :
  forall prog n h c m t ls lsm pw pe pc,
    c <> t -> m <> t ->
    is_proxy (obj h c) = false ->
    own h c "prototype" = Some (DataProperty (VObject t) pw pe pc) ->
    plain_fields h m -> chain h m lsm -> length lsm < n ->
    chain h t ls -> length ls < n ->
    (forall k v, enumerable_field h m k = Some v ->
                 plain_member h t v = true
                 /\ accepts_write (nearest h k ls) = true) ->
    exists h',
      enhance (Call prog n) n (VObject c) (VObject m) h = Normal (VObject c) h'
      /\ (forall k v v0 e cf,
            enumerable_field h m k = Some v ->
            own h t k = Some (DataProperty v0 true e cf) ->
            own h' t k = Some (DataProperty v true e cf))
      /\ (forall k v,
            enumerable_field h m k = Some v -> own h t k = None ->
            own h' t k = Some (DataProperty v true true true)).
Proof.
  intros prog n h c m t ls lsm pw pe pc Hct Hmt Hkc Hproto Hplain Hcm Hnm Hc Hn Hval.
  destruct (enhance_plain (Call prog n) n h c m t ls lsm pw pe pc)
    as (ks & Hrun & Hin); auto.
  assert (Ht : t < length h) by (destruct Hc; assumption).
  exists (installs h m t ks h). split; [exact Hrun|]. split.
  - intros k v v0 e cf Hv Ho.
    rewrite (own_installs_exact h m t ks h k v) by eauto. now rewrite Ho.
  - intros k v Hv Ho.
    rewrite (own_installs_exact h m t ks h k v) by eauto. now rewrite Ho.
Qed.

Lemma enhance_keeps_the_attributes_witness :
  exists h',
    enhance (Call Levels.prog 20) 20 (VObject Levels.A) (VObject Levels.membersB)
      Levels.initial = Normal (VObject Levels.A) h'
    /\ own h' Levels.A_prototype "action"
       = Some (DataProperty (VObject Levels.actionB) true false true).
Proof.
  destruct (enhance_keeps_the_attributes Levels.prog 20 Levels.initial
              Levels.A Levels.membersB Levels.A_prototype
              [Levels.A_prototype; ObjectPrototype]
              [Levels.membersB; ObjectPrototype] false false false)
    as (h' & Hrun & Hkept & _).
  - discriminate.
  - discriminate.
  - reflexivity.
  - reflexivity.
  - split.
    + repeat constructor. intros Hin. inversion Hin.
    + repeat constructor.
  - chain_levels.
  - simpl. lia.
  - chain_levels.
  - simpl. lia.
  - intros k v Hv. unfold enumerable_field, own in Hv.
    change (props (obj Levels.initial Levels.membersB))
      with [("action", data (VObject Levels.actionB))] in Hv.
    cbn [assoc] in Hv.
    destruct (String.eqb_spec "action" k) as [Hk|_]; [|discriminate].
    injection Hv as <-. rewrite <- Hk. split; reflexivity.
  - exists h'. split; [exact Hrun|].
    apply (Hkept "action" (VObject Levels.actionB) (VObject Levels.actionA));
      reflexivity.
Defined.


(** ** A class made by [extend], used with [callSuper] *)

(** X17.  [extend] and [callSuper] together: on an object created from the
    prototype of the class [extend(B, D)] returns, [callSuper] for a member
    [k] that [D] supplies reaches the nearest declaration of [k] on the
    chain of [B.prototype] -- the method the member of [D] overrides -- and
    calls it on that object with the marker naming the level that declares
    it. *)
Theorem extended_member_dispatches_to_the_base :
  forall prog n h B D bp lsd pw pe pc k g pre l2 post f w2 e2 c2,
    is_proxy (obj h B) = false ->
    own h B "prototype" = Some (DataProperty (VObject bp) pw pe pc) ->
    chain h bp (pre ++ l2 :: post) ->
    S (S (length (pre ++ l2 :: post))) < n ->
    plain_fields h D -> chain h D lsd -> length lsd < n ->
    (forall q v, reserved q = false -> enumerable_field h D q = Some v ->
                 untagged h v = true
                 /\ accepts_write (nearest h q (pre ++ l2 :: post)) = true) ->
    reserved k = false -> enumerable_field h D k = Some g ->
    undeclared h k pre -> own h l2 k = Some (DataProperty f w2 e2 c2) ->
    f <> g ->
    enumerable_field h D BaseReference = None ->
    undeclared h BaseReference (pre ++ l2 :: post) ->
    exists h',
      extend (Call prog n) n (VObject B) (VObject D) h
      = Normal (VObject (length h)) h'
      /\ forall args,
           callSuper (Call prog n) n (VObject (length h')) k args
             (h' ++ [mkObject (Some (S (S (length h)))) [] Ordinary])
           = (let* result := Call prog n f (VObject (length h')) args in
              delete_property n (VObject (length h')) BaseReference ;;
              ret result)
               (with_marker (length h') l2
                  (h' ++ [mkObject (Some (S (S (length h)))) [] Ordinary])).
Proof.
  intros prog n h B D bp lsd pw pe pc k g pre l2 post f w2 e2 c2
    Hk Ho Hcb Hn Hplain Hcd Hnd Hval Hr Hg Hpre H2 Hne Hmark Hum.
  destruct (extend_class_shape prog n h B D bp (pre ++ l2 :: post) lsd pw pe pc)
    as (h' & Hrun & Hlen & Hold & _ & _ & _ & Hchain & Hin & Hout); auto; try lia.
  exists h'. split; [exact Hrun|]. intros args.
  set (P := S (S (length h))) in *.
  set (x := length h').
  set (h1 := h' ++ [mkObject (Some P) [] Ordinary]).
  assert (Hvalid : Forall (fun l => l < length h) (pre ++ l2 :: post))
    by (eapply chain_levels_valid; eauto).
  assert (Hown : forall l p, l < length h -> own h1 l p = own h l p).
  { intros l p Hl. unfold h1. rewrite own_app_old by lia.
    unfold own. now rewrite Hold. }
  assert (HownP : forall p, own h1 P p = own h' P p).
  { intros p. unfold h1. apply own_app_old. unfold P. lia. }
  assert (Hx : obj h1 x = mkObject (Some P) [] Ordinary) by apply obj_app_new.
  assert (Hcx : chain h1 x ([x] ++ P :: pre ++ l2 :: post)).
  { cbn [app]. eapply chain_link.
    - unfold h1, x. rewrite length_app. simpl. lia.
    - unfold is_proxy. now rewrite Hx.
    - now rewrite Hx.
    - now apply chain_app_heap. }
  assert (Hlift : forall p ls, Forall (fun l => l < length h) ls ->
            undeclared h p ls -> undeclared h1 p ls).
  { intros p ls Hv Hu. unfold undeclared in *. rewrite Forall_forall in *.
    intros l Hl. rewrite Hown by (now apply Hv). now apply Hu. }
  apply (callSuper_dispatches prog n h1 x (length ([x] ++ P :: pre ++ l2 :: post))
           x [x] P pre l2 post k args g true true true f w2 e2 c2).
  - unfold is_proxy. now rewrite Hx.
  - apply starts_at_instance; [exact Hcx|].
    cbn [app]. constructor; [unfold own; now rewrite Hx|].
    constructor.
    + rewrite HownP. apply Hout. now right.
    + now apply Hlift.
  - cbn [app length] in *. lia.
  - exact Hcx.
  - cbn [app length] in *. lia.
  - constructor; [unfold own; now rewrite Hx|constructor].
  - rewrite HownP. now apply Hin.
  - apply Hlift; [|assumption].
    rewrite Forall_forall in *. intros l Hl. apply Hvalid.
    apply list_elem_of_In. apply in_or_app. left. now apply list_elem_of_In.
  - rewrite Hown; [assumption|]. eapply own_Some_valid; eauto.
  - assumption.
Qed.


Lemma extended_member_dispatches_to_the_base_witness :
  exists h',
    extend (Call Override.prog 20) 20 (VObject Override.Base)
      (VObject Override.descriptor) Override.initial
    = Normal (VObject 7) h'
    /\ callSuper (Call Override.prog 20) 20 (VObject (length h')) "describe" []
         (h' ++ [mkObject (Some 9) [] Ordinary])
       = (let* result :=
            Call Override.prog 20 (VObject Override.describeBase)
              (VObject (length h')) [] in
          delete_property 20 (VObject (length h')) BaseReference ;;
          ret result)
           (with_marker (length h') Override.Base_prototype
              (h' ++ [mkObject (Some 9) [] Ordinary])).
Proof.
  destruct (extended_member_dispatches_to_the_base Override.prog 20 Override.initial
              Override.Base Override.descriptor Override.Base_prototype
              [Override.descriptor; ObjectPrototype] false false false
              "describe" (VObject Override.describeDerived)
              [] Override.Base_prototype [ObjectPrototype]
              (VObject Override.describeBase) true false true)
    as (h' & Hrun & Hcall).
  - reflexivity.
  - reflexivity.
  - chain_levels.
  - simpl. lia.
  - split.
    + repeat constructor. intros Hin. inversion Hin.
    + repeat constructor.
  - chain_levels.
  - simpl. lia.
  - intros q v Hr Hv. unfold enumerable_field, own in Hv.
    change (props (obj Override.initial Override.descriptor))
      with [("describe", data (VObject Override.describeDerived))] in Hv.
    cbn [assoc] in Hv.
    destruct (String.eqb_spec "describe" q) as [Hq|_]; [|discriminate].
    injection Hv as <-. rewrite <- Hq. split; reflexivity.
  - reflexivity.
  - reflexivity.
  - constructor.
  - reflexivity.
  - discriminate.
  - reflexivity.
  - repeat constructor.
  - exists h'. split; [exact Hrun|]. apply Hcall.
Defined.
